(** * NeuroQuantum Composer: the rhythm simulator, the signal tracker,
      the genre blender and the trigger scheduler

    A shallow embedding of [js/quantumLayer.js], [js/inputSystem.js],
    [js/aiMusicEngine.js] (the blender methods) and [js/app.js] (the
    update tick), followed by the properties of the written
    specification that these functions decide.

    Number model.  A JavaScript Number is read as a real number: [+], [-],
    [*], [/] are the field operations of [R], [Math.sqrt] is [sqrt],
    [Math.cos] is [cos], [Math.PI] is [PI], [Math.SQRT2] is [sqrt 2],
    [Math.min]/[Math.max]/[Math.abs] are [Rmin]/[Rmax]/[Rabs].  Rounding,
    [NaN] and the infinities of binary64 are outside this model.  Small
    integers that the scripts use as array indices or bits are [nat], with
    the bit operators of [Nat]; every such value stays below 4, far from
    the 32-bit wrap-around of the JavaScript operators.

    Effects.  Objects become records that are passed in and returned.
    The one random draw of [measure] and the clock read of [_update] are
    explicit arguments.  Calls into the sound and picture collaborators are
    collected in a list of [Effect]s.  Writes to the page (meters, debug
    panel) are left out: nothing reads them back. *)

From Stdlib Require Import Reals Lra Lia.
From stdpp Require Import base list gmap strings.

#[local] Open Scope R_scope.

(** ** The [Math] functions that need a definition of their own *)

Module JsMath.

Definition SQRT2 : R := sqrt 2.

(** [Math.pow(x, 2)]: an integer exponent, defined for every base. *)
Definition pow2 (x : R) : R := x ^ 2.

(** [Math.pow(x, y)] for a base [x >= 0] and an exponent [y > 0], the only
    way [InputSystem.update] calls it (base [min(1, v/20)], exponent
    [1.5]).  [Rpower] is [exp (y * ln x)], which is right for [x > 0]; at
    [x = 0] the script gives [0]. *)
Definition pow (x y : R) : R :=
  if Rle_dec x 0 then 0 else Rpower x y.

(** [Math.atan2(y, x)], by quadrants.  The script calls it only when the
    pointer moved, so never at [(0, 0)]. *)
Definition atan2 (y x : R) : R :=
  if Rlt_dec 0 x then atan (y / x)
  else if Rlt_dec x 0 then
    (if Rle_dec 0 y then atan (y / x) + PI else atan (y / x) - PI)
  else if Rlt_dec 0 y then PI / 2
  else if Rlt_dec y 0 then - (PI / 2)
  else 0.

(** [a > b] as a boolean, for conditions joined by [||]. *)
Definition gtb (a b : R) : bool := if Rgt_dec a b then true else false.

End JsMath.

(** ** [js/quantumLayer.js] *)

Module QuantumLayer.

(** The object: [this.state.amplitudes], [this.state.probabilities],
    [this.phase], [this.lastMeasurement] (a two-entry array of bits). *)
Record t := mk {
  amplitudes : list R;
  probabilities : list R;
  phase : R;
  lastMeasurement : nat * nat
}.

Record RhythmTrigger := mkTrigger {
  kick : bool;
  snare : bool;
  hihat : bool;
  clap : bool
}.

(** [constructor()] *)
Definition new : t :=
  {| amplitudes := [1; 0; 0; 0];
     probabilities := [1; 0; 0; 0];
     phase := 0;
     lastMeasurement := (0%nat, 0%nat) |}.

(** [a[i]] on an array of numbers.  Inside the array this is the entry.
    Past its end the script reads [undefined], which the number model
    cannot hold; the model gives [0] there, and no theorem below looks at
    such a read: the gates are called with qubit 0 or 1 on four entries,
    where [i ^ (1 << qubit)] stays below 4. *)
Definition at_index (a : list R) (i : nat) : R := default 0 (a !! i).

(** [_updateProbabilities()]: squares, their sum by [reduce], and the
    division by the sum when it is positive. *)
Definition _updateProbabilities (q : t) : t :=
  let squares := map JsMath.pow2 (amplitudes q) in
  let sum := fold_left Rplus squares 0 in
  let probabilities :=
    if Rgt_dec sum 0 then map (fun p => p / sum) squares else squares in
  {| amplitudes := amplitudes q;
     probabilities := probabilities;
     phase := phase q;
     lastMeasurement := lastMeasurement q |}.

Definition set_amplitudes (a : list R) (q : t) : t :=
  {| amplitudes := a;
     probabilities := probabilities q;
     phase := phase q;
     lastMeasurement := lastMeasurement q |}.

(** The body of the loop of [applyHadamard], at index [i]: it reads the
    amplitudes of the object and writes into the copy [newState]. *)
Definition hadamard_body (amps : list R) (qubit : nat)
    (newState : list R) (i : nat) : list R :=
  let bitValue := Nat.land (Nat.shiftr i qubit) 1 in
  let flipMask := Nat.shiftl 1 qubit in
  let flipIndex := Nat.lxor i flipMask in
  let origVal := at_index amps i in
  let flipVal := at_index amps flipIndex in
  if Nat.eqb bitValue 0 then
    <[flipIndex := (origVal - flipVal) / JsMath.SQRT2]>
      (<[i := (origVal + flipVal) / JsMath.SQRT2]> newState)
  else newState.

(** [applyHadamard(qubit)] *)
Definition applyHadamard (qubit : nat) (q : t) : t :=
  let n := length (amplitudes q) in
  let newState :=
    fold_left (hadamard_body (amplitudes q) qubit) (seq 0 n) (amplitudes q) in
  _updateProbabilities (set_amplitudes newState q).

Definition cnot_body (amps : list R) (controlQubit targetQubit : nat)
    (newState : list R) (i : nat) : list R :=
  let controlValue := Nat.land (Nat.shiftr i controlQubit) 1 in
  if Nat.eqb controlValue 1 then
    let flipMask := Nat.shiftl 1 targetQubit in
    let flipIndex := Nat.lxor i flipMask in
    <[flipIndex := at_index amps i]>
      (<[i := at_index amps flipIndex]> newState)
  else newState.

(** [applyCNOT(controlQubit, targetQubit)] *)
Definition applyCNOT (controlQubit targetQubit : nat) (q : t) : t :=
  let n := length (amplitudes q) in
  let newState :=
    fold_left (cnot_body (amplitudes q) controlQubit targetQubit)
              (seq 0 n) (amplitudes q) in
  _updateProbabilities (set_amplitudes newState q).

(** The loop body of [applyPhaseRotation].  [imag] is computed, as in the
    script, and bound to nothing that is stored. *)
Definition phase_body (amps : list R) (qubit : nat) (phase : R)
    (newState : list R) (i : nat) : list R :=
  let bitValue := Nat.land (Nat.shiftr i qubit) 1 in
  if Nat.eqb bitValue 1 then
    let real := cos phase in
    let imag := sin phase in
    <[i := at_index amps i * real]> newState
  else newState.

(** [applyPhaseRotation(qubit, phase)] *)
Definition applyPhaseRotation (qubit : nat) (phase : R) (q : t) : t :=
  let n := length (amplitudes q) in
  let newState :=
    fold_left (phase_body (amplitudes q) qubit phase)
              (seq 0 n) (amplitudes q) in
  _updateProbabilities (set_amplitudes newState q).

(** [reset()] *)
Definition reset (q : t) : t :=
  {| amplitudes := [1; 0; 0; 0];
     probabilities := [1; 0; 0; 0];
     phase := phase q;
     lastMeasurement := lastMeasurement q |}.

(** [_mapMeasurementToRhythm()] *)
Definition _mapMeasurementToRhythm (q : t) : RhythmTrigger :=
  let stateValue :=
    Nat.lor (Nat.shiftl (fst (lastMeasurement q)) 1)
            (snd (lastMeasurement q)) in
  {| kick := Nat.eqb stateValue 1 || Nat.eqb stateValue 3;
     snare := Nat.eqb stateValue 2 || Nat.eqb stateValue 3;
     hihat := Nat.eqb stateValue 1 || Nat.eqb stateValue 2;
     clap := Nat.eqb stateValue 3 |}.

(** The loop of [measure]: walks the probabilities from index [i] with the
    running sum [cumulativeProb]; [Some i] is the index at which the loop
    reaches [break], [None] means the loop ran to its end. *)
Fixpoint measure_loop (rand : R) (probs : list R) (i : nat)
    (cumulativeProb : R) : option nat :=
  match probs with
  | [] => None
  | p :: rest =>
      let cumulativeProb := cumulativeProb + p in
      if Rlt_dec rand cumulativeProb then Some i
      else measure_loop rand rest (S i) cumulativeProb
  end.

(** The assignments inside the [if] of [measure], at the index [i]. *)
Definition collapse (i : nat) (q : t) : t :=
  {| amplitudes := <[i := 1]> [0; 0; 0; 0];
     probabilities := <[i := 1]> [0; 0; 0; 0];
     phase := phase q;
     lastMeasurement :=
       (Nat.land (Nat.shiftr i 1) 1, Nat.land i 1) |}.

(** [measure()], with the value [rand] of [Math.random()]. *)
Definition measure (rand : R) (q : t) : t * RhythmTrigger :=
  let q' :=
    match measure_loop rand (probabilities q) 0 0 with
    | Some i => collapse i q
    | None => q
    end in
  (q', _mapMeasurementToRhythm q').

Definition set_phase (p : R) (q : t) : t :=
  {| amplitudes := amplitudes q;
     probabilities := probabilities q;
     phase := p;
     lastMeasurement := lastMeasurement q |}.

(** [processInput(alphaValue, betaValue)] *)
Definition processInput (alphaValue betaValue rand : R) (q : t)
    : t * RhythmTrigger :=
  let q := reset q in
  let hadamardStrength := alphaValue in
  let q := set_phase (betaValue * PI) q in
  let q := if Rgt_dec hadamardStrength 0.3 then applyHadamard 0 q else q in
  let q := if Rgt_dec hadamardStrength 0.6 then applyHadamard 1 q else q in
  let q := applyPhaseRotation 0 (phase q) q in
  let q := applyCNOT 0 1 q in
  measure rand q.

(** [getStateForVisualization()]: the four fields, handed out by
    reference.  No method writes into an array it has stored (each builds
    a new one and assigns it), so what the receiver sees later is the
    value at the time of the call. *)
Module Snapshot.
Record t := mk {
  amplitudes : list R;
  probabilities : list R;
  lastMeasurement : nat * nat;
  phase : R
}.
End Snapshot.

Definition getStateForVisualization (q : t) : Snapshot.t :=
  {| Snapshot.amplitudes := amplitudes q;
     Snapshot.probabilities := probabilities q;
     Snapshot.lastMeasurement := lastMeasurement q;
     Snapshot.phase := phase q |}.

End QuantumLayer.

(** ** [js/inputSystem.js] *)

Module InputSystem.

Record t := mk {
  mouseX : R;
  mouseY : R;
  prevMouseX : R;
  prevMouseY : R;
  mouseVelocity : R;
  mouseDirection : R;
  keysPressed : gset string;
  keyActivityLevel : R;
  keyActivityDecay : R;
  alphaValue : R;
  betaValue : R
}.

(** What [update()] returns: [{alpha, beta, mouseDirection, keysActive}]. *)
Record InputData := mkData {
  alpha : R;
  beta : R;
  direction : R;
  keysActive : nat
}.

(** [constructor()] *)
Definition new : t :=
  {| mouseX := 0; mouseY := 0; prevMouseX := 0; prevMouseY := 0;
     mouseVelocity := 0; mouseDirection := 0;
     keysPressed := ∅;
     keyActivityLevel := 0;
     keyActivityDecay := 0.95;
     alphaValue := 0;
     betaValue := 0 |}.

(** [_handleMouseMove(event)], with [event.clientX], [event.clientY]. *)
Definition _handleMouseMove (clientX clientY : R) (s : t) : t :=
  {| mouseX := clientX; mouseY := clientY;
     prevMouseX := prevMouseX s; prevMouseY := prevMouseY s;
     mouseVelocity := mouseVelocity s; mouseDirection := mouseDirection s;
     keysPressed := keysPressed s;
     keyActivityLevel := keyActivityLevel s;
     keyActivityDecay := keyActivityDecay s;
     alphaValue := alphaValue s;
     betaValue := betaValue s |}.

(** [_handleKeyDown(event)], with [event.key]. *)
Definition _handleKeyDown (key : string) (s : t) : t :=
  if Nat.eqb (String.length key) 1 then
    {| mouseX := mouseX s; mouseY := mouseY s;
       prevMouseX := prevMouseX s; prevMouseY := prevMouseY s;
       mouseVelocity := mouseVelocity s; mouseDirection := mouseDirection s;
       keysPressed := {[ key ]} ∪ keysPressed s;
       keyActivityLevel := Rmin 1.0 (keyActivityLevel s + 0.2);
       keyActivityDecay := keyActivityDecay s;
       alphaValue := alphaValue s;
       betaValue := betaValue s |}
  else s.

(** [_handleKeyUp(event)] *)
Definition _handleKeyUp (key : string) (s : t) : t :=
  if bool_decide (key ∈ keysPressed s) then
    {| mouseX := mouseX s; mouseY := mouseY s;
       prevMouseX := prevMouseX s; prevMouseY := prevMouseY s;
       mouseVelocity := mouseVelocity s; mouseDirection := mouseDirection s;
       keysPressed := keysPressed s ∖ {[ key ]};
       keyActivityLevel := keyActivityLevel s;
       keyActivityDecay := keyActivityDecay s;
       alphaValue := alphaValue s;
       betaValue := betaValue s |}
  else s.

(** [update()] *)
Definition update (s : t) : t * InputData :=
  let dx := mouseX s - prevMouseX s in
  let dy := mouseY s - prevMouseY s in
  let mouseVelocity := sqrt (dx * dx + dy * dy) in
  let mouseDirection :=
    if Rgt_dec mouseVelocity 0.1 then JsMath.atan2 dy dx
    else mouseDirection s in
  let prevMouseX := mouseX s in
  let prevMouseY := mouseY s in
  let normalizedVelocity := Rmin 1.0 (mouseVelocity / 20) in
  let frequencyFactor := JsMath.pow normalizedVelocity 1.5 in
  let alphaValue := alphaValue s * 0.8 + frequencyFactor * 0.2 in
  let keyActivityLevel := keyActivityLevel s * keyActivityDecay s in
  let complexityFactor :=
    Rmin 1.0 (INR (size (keysPressed s)) / 5) * 0.5 in
  let activityFactor := keyActivityLevel * 0.5 in
  let betaValue :=
    betaValue s * 0.7 + (complexityFactor + activityFactor) * 0.3 in
  ({| mouseX := mouseX s; mouseY := mouseY s;
      prevMouseX := prevMouseX; prevMouseY := prevMouseY;
      mouseVelocity := mouseVelocity; mouseDirection := mouseDirection;
      keysPressed := keysPressed s;
      keyActivityLevel := keyActivityLevel;
      keyActivityDecay := keyActivityDecay s;
      alphaValue := alphaValue;
      betaValue := betaValue |},
   {| alpha := alphaValue;
      beta := betaValue;
      direction := mouseDirection;
      keysActive := size (keysPressed s) |}).

(** [n] calls of [update()] with no event between them. *)
Fixpoint ticks (n : nat) (s : t) : t :=
  match n with
  | O => s
  | S n' => ticks n' (fst (update s))
  end.

Definition getAlphaWaves (s : t) : R := alphaValue s.
Definition getBetaWaves (s : t) : R := betaValue s.

End InputSystem.

(** ** [js/aiMusicEngine.js]: the genre blend *)

Module AIMusicEngine.

Inductive genre := trance | dubstep | dnb.

(** The numeric entries of a genre's parameter object
    ([quantizationInfo] is an object, not a number). *)
Inductive paramName := temperature | stepsPerQuarter | tempoMultiplier.

(** [this.genreParams] *)
Definition genreParams (g : genre) (p : paramName) : R :=
  match g, p with
  | trance, temperature => 0.8
  | trance, stepsPerQuarter => 4
  | trance, tempoMultiplier => 1.0
  | dubstep, temperature => 1.2
  | dubstep, stepsPerQuarter => 4
  | dubstep, tempoMultiplier => 0.5
  | dnb, temperature => 1.0
  | dnb, stepsPerQuarter => 6
  | dnb, tempoMultiplier => 1.5
  end.

(** [this.genreBlend]: an object whose keys are visited by [for ... in]
    in the order they were written; kept as the list of its entries. *)
Record t := mk { genreBlend : list (genre * R) }.

(** [constructor()], the blend only. *)
Definition new : t :=
  {| genreBlend := [(trance, 0.33); (dubstep, 0.33); (dnb, 0.33)] |}.

(** [_updateGenreBlend(influenceValue)] *)
Definition _updateGenreBlend (influenceValue : R) (e : t) : t :=
  let trance_w := Rmax 0 (1 - 2 * influenceValue) in
  let dnb_w := Rmax 0 (2 * influenceValue - 1) in
  let dubstep_w := 1 - trance_w - dnb_w in
  {| genreBlend := [(trance, trance_w); (dubstep, dubstep_w); (dnb, dnb_w)] |}.

(** One turn of the [for ... in] loop of [_blendGenreParams], on the pair
    [(blendedValue, totalWeight)]. *)
Definition blend_body (p : paramName) (acc : R * R) (entry : genre * R)
    : R * R :=
  let weight := snd entry in
  (fst acc + genreParams (fst entry) p * weight, snd acc + weight).

(** [_blendGenreParams(paramName, influenceValue)] *)
Definition _blendGenreParams (p : paramName) (influenceValue : R) (e : t)
    : t * R :=
  let e := _updateGenreBlend influenceValue e in
  let acc := fold_left (blend_body p) (genreBlend e) (0, 0) in
  (e, fst acc / snd acc).

Definition getGenreBlend (e : t) : list (genre * R) := genreBlend e.

End AIMusicEngine.

(** ** [js/app.js]: the update tick *)

Module App.

Record InputValues := mkValues { alpha : R; beta : R }.

(** The fields of the application object that [_update] reads or writes. *)
Record t := mk {
  inputSystem : InputSystem.t;
  quantumLayer : QuantumLayer.t;
  isRunning : bool;
  lastRhythmTriggerTime : R;
  lastInputValues : InputValues;
  inputChangeThreshold : R
}.

(** [constructor()] followed by [_init()]. *)
Definition new : t :=
  {| inputSystem := InputSystem.new;
     quantumLayer := QuantumLayer.new;
     isRunning := false;
     lastRhythmTriggerTime := 0;
     lastInputValues := {| alpha := 0; beta := 0 |};
     inputChangeThreshold := 0.05 |}.

(** The calls that [_update] makes on its collaborators, in order. *)
Inductive Effect :=
| updateMusic (alphaValue betaValue : R)
| visualizerUpdate (quantumState : QuantumLayer.Snapshot.t)
                   (alphaValue betaValue : R) (rhythmTrigger : bool)
| playRhythmPattern (rhythmPattern : QuantumLayer.RhythmTrigger).

Definition baseInterval : R := 1000.
Definition minInterval : R := 300.

(** The local [adjustedInterval] of [_update]. *)
Definition adjustedInterval (alphaValue : R) : R :=
  baseInterval - (alphaValue * (baseInterval - minInterval)).

(** [_update()], with [now] the value of [Date.now()] and [rand] the value
    of [Math.random()] inside [measure]. *)
Definition _update (now rand : R) (app : t) : t * list Effect :=
  if negb (isRunning app) then (app, [])
  else
    let '(input', inputData) := InputSystem.update (inputSystem app) in
    let alphaValue := InputSystem.alpha inputData in
    let betaValue := InputSystem.beta inputData in
    let alphaDiff := Rabs (alphaValue - alpha (lastInputValues app)) in
    let betaDiff := Rabs (betaValue - beta (lastInputValues app)) in
    let inputChanged :=
      JsMath.gtb alphaDiff (inputChangeThreshold app)
      || JsMath.gtb betaDiff (inputChangeThreshold app) in
    let quantumState :=
      QuantumLayer.getStateForVisualization (quantumLayer app) in
    let effects :=
      [updateMusic alphaValue betaValue;
       visualizerUpdate quantumState alphaValue betaValue false] in
    if inputChanged then
      let lastInputValues := {| alpha := alphaValue; beta := betaValue |} in
      let timeSinceLastRhythm := now - lastRhythmTriggerTime app in
      if Rge_dec timeSinceLastRhythm (adjustedInterval alphaValue) then
        let '(layer', rhythmPattern) :=
          QuantumLayer.processInput alphaValue betaValue rand
                                    (quantumLayer app) in
        ({| inputSystem := input';
            quantumLayer := layer';
            isRunning := isRunning app;
            lastRhythmTriggerTime := now;
            lastInputValues := lastInputValues;
            inputChangeThreshold := inputChangeThreshold app |},
         effects ++
         [playRhythmPattern rhythmPattern;
          visualizerUpdate quantumState alphaValue betaValue true])
      else
        ({| inputSystem := input';
            quantumLayer := quantumLayer app;
            isRunning := isRunning app;
            lastRhythmTriggerTime := lastRhythmTriggerTime app;
            lastInputValues := lastInputValues;
            inputChangeThreshold := inputChangeThreshold app |},
         effects)
    else
      ({| inputSystem := input';
          quantumLayer := quantumLayer app;
          isRunning := isRunning app;
          lastRhythmTriggerTime := lastRhythmTriggerTime app;
          lastInputValues := lastInputValues app;
          inputChangeThreshold := inputChangeThreshold app |},
       effects).

End App.

(** ** [js/app.js]: the frame loop *)

Module AppLoop.

(** The application object with the two fields that only the loop uses. *)
Record t := mk {
  app : App.t;
  frameSkip : nat;
  frameCount : nat
}.

(** [_detectPerformance()], from the measured [duration] in milliseconds to
    the value it stores in [frameSkip]. *)
Definition _detectPerformance (duration : R) : nat :=
  if Rgt_dec duration 100 then 2%nat
  else if Rgt_dec duration 50 then 1%nat
  else 0%nat.

(** [_startUpdateLoop()] as far as the counters go: it clears
    [frameCount] and requests the first frame. *)
Definition _startUpdateLoop (l : t) : t :=
  {| app := app l; frameSkip := frameSkip l; frameCount := 0 |}.

(** One call of the closure [animationLoop] of [_startUpdateLoop], with the
    clock and random values that [_update] may consume.  The boolean tells
    whether the closure asked for another frame. *)
Definition animationLoop (now rand : R) (l : t) : t * list App.Effect * bool :=
  if negb (App.isRunning (app l)) then (l, [], false)
  else
    let skipped :=
      if Nat.ltb 0 (frameSkip l) then
        Some (Nat.modulo (frameCount l + 1) (frameSkip l + 1))
      else None in
    match skipped with
    | Some frameCount' =>
        if negb (Nat.eqb frameCount' 0) then
          ({| app := app l; frameSkip := frameSkip l;
              frameCount := frameCount' |}, [], true)
        else
          let '(app', effects) := App._update now rand (app l) in
          ({| app := app'; frameSkip := frameSkip l;
              frameCount := frameCount' |}, effects, true)
    | None =>
        let '(app', effects) := App._update now rand (app l) in
        ({| app := app'; frameSkip := frameSkip l;
            frameCount := frameCount l |}, effects, true)
    end.

(** The frames of a list, oldest first; the result keeps, for each frame,
    the effects it produced. *)
Fixpoint frames (fs : list (R * R)) (l : t) : t * list (list App.Effect) :=
  match fs with
  | [] => (l, [])
  | (now, rand) :: rest =>
      let '(l', effects, _) := animationLoop now rand l in
      let '(l'', log) := frames rest l' in
      (l'', effects :: log)
  end.

End AppLoop.

(** ** [js/visualizer.js]: what [update] computes from the snapshot *)

Module Visualizer.

(** The local values of [update(quantumState, ...)] that set the sphere
    scales, the sphere heights and the beam opacity.  The writes into the
    scene objects, the timers that undo a pulse and the particle loop are
    not modelled. *)
Definition q0Scale (quantumState : QuantumLayer.Snapshot.t) : R :=
  0.5 + QuantumLayer.at_index (QuantumLayer.Snapshot.probabilities quantumState) 0
      + QuantumLayer.at_index (QuantumLayer.Snapshot.probabilities quantumState) 2.

Definition q1Scale (quantumState : QuantumLayer.Snapshot.t) : R :=
  0.5 + QuantumLayer.at_index (QuantumLayer.Snapshot.probabilities quantumState) 1
      + QuantumLayer.at_index (QuantumLayer.Snapshot.probabilities quantumState) 3.

Definition elevate0 (quantumState : QuantumLayer.Snapshot.t) : R :=
  if Nat.eqb (fst (QuantumLayer.Snapshot.lastMeasurement quantumState)) 0
  then 0 else 0.5.

Definition elevate1 (quantumState : QuantumLayer.Snapshot.t) : R :=
  if Nat.eqb (snd (QuantumLayer.Snapshot.lastMeasurement quantumState)) 0
  then 0 else 0.5.

Definition entanglement (quantumState : QuantumLayer.Snapshot.t) : R :=
  1 - Rabs (QuantumLayer.at_index (QuantumLayer.Snapshot.probabilities quantumState) 0
            - QuantumLayer.at_index (QuantumLayer.Snapshot.probabilities quantumState) 3)
    - Rabs (QuantumLayer.at_index (QuantumLayer.Snapshot.probabilities quantumState) 1
            - QuantumLayer.at_index (QuantumLayer.Snapshot.probabilities quantumState) 2).

(** The opacity written to every beam, before the pulse of a trigger. *)
Definition beamOpacity (quantumState : QuantumLayer.Snapshot.t) : R :=
  0.1 + entanglement quantumState * 0.7.

(** The opacity during the pulse of a trigger. *)
Definition pulsedOpacity (quantumState : QuantumLayer.Snapshot.t) : R :=
  Rmin 1.0 (beamOpacity quantumState * 2).

End Visualizer.

(** ** [js/aiMusicEngine.js]: the seed sequence *)

Module Seed.

(** [Math.round] (halves go up) and [Math.floor], with integer results. *)
Definition round (x : R) : Z := Zfloor (x + 0.5).
Definition floor (x : R) : Z := Zfloor x.

(** [a[i]] for an integer-valued index: [None] stands for [undefined],
    which is what a negative index or one past the end reads. *)
Definition at_int {A : Type} (a : list A) (i : Z) : option A :=
  if Z.ltb i 0 then None else a !! Z.to_nat i.

(** [a.slice(0, n)] for an integer-valued [n]: a negative [n] counts from
    the end. *)
Definition slice0 {A : Type} (n : Z) (a : list A) : list A :=
  if Z.ltb n 0 then take (Z.to_nat (Z.of_nat (length a) + n)) a
  else take (Z.to_nat n) a.

(** [a.forEach((x, i) => ...)] where the callback updates a state [s],
    here the array [sequence.notes]. *)
Fixpoint forEach {A St : Type} (f : St -> A -> nat -> St) (a : list A)
    (i : nat) (s : St) : St :=
  match a with
  | [] => s
  | x :: rest => forEach f rest (S i) (f s x i)
  end.

(** A note.  [pitch] is [None] when the scale entry it adds is
    [undefined], which makes the sum [NaN] in the script. *)
Record Note := mkNote {
  pitch : option Z;
  startTime : R;
  endTime : R;
  velocity : R
}.

(** The sequence object: [tempos] has the one entry [{time: 0, qpm}] and
    [quantizationInfo] the one field [stepsPerQuarter]. *)
Record NoteSequence := mkSequence {
  notes : list Note;
  totalTime : R;
  qpm : Z;
  stepsPerQuarter : Z
}.

Definition pitchBase : Z := 60.

Definition minor : list Z := [0; 2; 3; 7; 8; 12; 14; 15]%Z.
Definition pentatonic : list Z := [0; 2; 4; 7; 9; 12; 14; 16]%Z.
Definition major : list Z := [0; 2; 4; 5; 7; 9; 11; 12]%Z.

Definition selectedScale (alphaValue : R) : list Z :=
  if Rlt_dec alphaValue 0.33 then minor
  else if Rlt_dec alphaValue 0.66 then pentatonic
  else major.

Definition rhythmComplexity (betaValue : R) : Z := round (betaValue * 3).

(** The table [positions], by complexity. *)
Definition positions_kick (c : Z) : list R :=
  if Z.eqb c 0 then [0]
  else if Z.eqb c 1 then [0; 0.75]
  else if Z.eqb c 2 then [0; 0.5; 0.75]
  else [0; 0.25; 0.5; 0.75].

Definition positions_snare (c : Z) : list R :=
  if Z.eqb c 0 then [0.5]
  else if Z.eqb c 1 then [0.5; 0.75]
  else if Z.eqb c 2 then [0.25; 0.5; 0.75]
  else [0.125; 0.375; 0.5; 0.875].

Definition positions_hihat (c : Z) : list R :=
  if Z.eqb c 0 then [0; 0.5]
  else if Z.eqb c 1 then [0; 0.25; 0.5; 0.75]
  else if Z.eqb c 2 then [0; 0.125; 0.25; 0.375; 0.5; 0.75]
  else [0; 0.125; 0.25; 0.375; 0.5; 0.625; 0.75; 0.875].

Definition positions_clap (c : Z) : list R :=
  if Z.eqb c 0 then [0.75] else [0.25; 0.75].

Definition baseVelocity (alphaValue : R) : Z := round (80 + alphaValue * 40).

(** The callbacks of the four [forEach] loops. *)
Definition push_kick (alphaValue betaValue : R)
    (notes : list Note) (pos : R) (i : nat) : list Note :=
  let scale := selectedScale alphaValue in
  let pitchVariety := floor (alphaValue * INR (length scale)) in
  if Z.leb (Z.of_nat i) (rhythmComplexity betaValue) then
    let pitchOffset :=
      Z.rem (pitchVariety + Z.of_nat i) (Z.of_nat (length scale)) in
    let velocity := (baseVelocity alphaValue - Z.of_nat i * 5)%Z in
    notes ++
    [{| pitch := (fun v => pitchBase - 24 + v)%Z <$> at_int scale pitchOffset;
        startTime := pos;
        endTime := pos + 0.2;
        velocity := IZR velocity |}]
  else notes.

Definition push_snare (alphaValue betaValue : R)
    (notes : list Note) (pos : R) (i : nat) : list Note :=
  let scale := selectedScale alphaValue in
  if Z.leb (Z.of_nat i) (rhythmComplexity betaValue) then
    let pitchOffset := floor (alphaValue * INR (length scale)) in
    let velocity := (baseVelocity alphaValue - Z.of_nat i * 3)%Z in
    notes ++
    [{| pitch := (fun v => pitchBase - 12 + v)%Z <$> at_int scale pitchOffset;
        startTime := pos;
        endTime := pos + 0.15;
        velocity := IZR velocity |}]
  else notes.

Definition push_hihat (alphaValue : R)
    (notes : list Note) (pos : R) (i : nat) : list Note :=
  let scale := selectedScale alphaValue in
  let pitchOffset :=
    Z.rem (floor (alphaValue * 100) + Z.of_nat i) (Z.of_nat (length scale)) in
  let velocity := IZR (baseVelocity alphaValue) - 15 + alphaValue * 10 in
  notes ++
  [{| pitch := (fun v => pitchBase + v)%Z <$> at_int scale pitchOffset;
      startTime := pos;
      endTime := pos + 0.1;
      velocity := velocity |}].

Definition push_clap (alphaValue betaValue : R)
    (notes : list Note) (pos : R) (i : nat) : list Note :=
  let scale := selectedScale alphaValue in
  if Z.leb (Z.of_nat i) (rhythmComplexity betaValue) then
    let pitchOffset := floor (alphaValue * INR (length scale)) in
    notes ++
    [{| pitch := (fun v => pitchBase + 12 + v)%Z <$> at_int scale pitchOffset;
        startTime := pos;
        endTime := pos + 0.2;
        velocity := IZR (baseVelocity alphaValue + 5) |}]
  else notes.

(** The engine with the field that [createSeedSequence] writes. *)
Record t := mk {
  engine : AIMusicEngine.t;
  currentSequence : option NoteSequence
}.

(** [createSeedSequence(rhythmPattern, alphaValue, betaValue)] *)
Definition createSeedSequence (rhythmPattern : QuantumLayer.RhythmTrigger)
    (alphaValue betaValue : R) (e : t) : t * NoteSequence :=
  let c := rhythmComplexity betaValue in
  let notes : list Note := [] in
  let notes :=
    if QuantumLayer.kick rhythmPattern
    then forEach (push_kick alphaValue betaValue) (positions_kick c) 0 notes
    else notes in
  let notes :=
    if QuantumLayer.snare rhythmPattern
    then forEach (push_snare alphaValue betaValue) (positions_snare c) 0 notes
    else notes in
  let notes :=
    if QuantumLayer.hihat rhythmPattern
    then
      let hihatDensity :=
        Z.min (Z.of_nat (length (positions_hihat c)))
              (round (2 + alphaValue * 6)) in
      forEach (push_hihat alphaValue)
              (slice0 hihatDensity (positions_hihat c)) 0 notes
    else notes in
  let notes :=
    if QuantumLayer.clap rhythmPattern
    then forEach (push_clap alphaValue betaValue) (positions_clap c) 0 notes
    else notes in
  let sequence :=
    {| notes := notes;
       totalTime := 1.0;
       qpm := (100 + round (alphaValue * 60))%Z;
       stepsPerQuarter := Z.max 4 (round (4 + betaValue * 4)) |} in
  ({| engine := engine e; currentSequence := Some sequence |}, sequence).

(** [getCurrentSequence()] *)
Definition getCurrentSequence (e : t) : option NoteSequence :=
  currentSequence e.

End Seed.

(** ** [js/catchyMusicGenerator.js]: the object that [_update] drives *)

Module MusicGenerator.

Inductive Complexity := simple | medium | complex.

Definition Complexity_eqb (a b : Complexity) : bool :=
  match a, b with
  | simple, simple | medium, medium | complex, complex => true
  | _, _ => false
  end.

(** Which of the four sequences of [startMusic] a part is; it stands for
    the callback of the sequence, whose calls on the instruments are not
    modelled. *)
Inductive Role := bassRole | leadRole | kickRole | snareRole.

(** A [Tone.Sequence]: its callback, its events and its subdivision. *)
Record Part := mkPart {
  role : Role;
  events : list (option string);
  subdivision : string
}.

(** The fields of the generator that its methods read or write. *)
Record t := mk {
  currentParts : list Part;
  currentPattern : Complexity;
  isPlaying : bool
}.

(** What the methods read from the sound library at the time of the call:
    [Tone.Transport.state], whether the bass synth has a [filterEnvelope],
    and [this.instruments.lead.get().oscillator.type]. *)
Record Env := mkEnv {
  transportState : string;
  bassFilterEnvelope : bool;
  leadOscillatorType : string
}.

(** The calls made on the sound library. *)
Inductive ToneCall :=
| bpmValue (tempo : Z)
| bpmRampTo (tempo : Z) (seconds : R)
| partStart (p : Part)
| partStop (p : Part)
| partDispose (p : Part)
| transportStart
| bassBaseFrequency (filterFreq : R)
| leadOscillator (type : string).

(** [constructor(audioSystem)], after [_initInstruments()]. *)
Definition new : t :=
  {| currentParts := []; currentPattern := simple; isPlaying := false |}.

(** The tables of [_createPatterns()]. *)
Definition patterns_bass (c : Complexity) : list (option string) :=
  match c with
  | simple => [Some "C2"; None; Some "G1"; None; Some "A1"; None; Some "F1"; None]
  | medium => [Some "C2"; Some "E2"; Some "G1"; None;
               Some "A1"; Some "C2"; Some "F1"; Some "G1"]
  | complex => [Some "C2"; Some "E2"; Some "G1"; Some "C3";
                Some "A1"; Some "C2"; Some "F1"; Some "G1"]
  end.

Definition patterns_lead (c : Complexity) : list (option string) :=
  match c with
  | simple => [None; Some "E4"; None; Some "C4"; None; Some "G3"; None; None]
  | medium => [None; Some "E4"; Some "G4"; Some "C4";
               None; Some "G3"; Some "A3"; Some "C4"]
  | complex => [Some "C4"; Some "E4"; Some "G4"; Some "C5";
                Some "A4"; Some "G4"; Some "E4"; Some "D4"]
  end.

Definition patterns_drums_0 (c : Complexity) : list (option string) :=
  match c with
  | simple => [Some "kick"; None; Some "hihat"; None;
               Some "kick"; None; Some "hihat"; None]
  | medium => [Some "kick"; None; Some "hihat"; Some "kick";
               Some "kick"; None; Some "hihat"; Some "kick"]
  | complex => [Some "kick"; Some "hihat"; Some "kick"; Some "hihat";
                Some "kick"; Some "hihat"; Some "kick"; Some "hihat"]
  end.

Definition patterns_drums_1 (c : Complexity) : list (option string) :=
  match c with
  | simple => [None; None; None; None; Some "snare"; None; None; None]
  | medium => [None; Some "hihat"; None; None;
               Some "snare"; None; Some "hihat"; None]
  | complex => [Some "hihat"; None; Some "snare"; Some "hihat";
                Some "snare"; Some "hihat"; Some "snare"; Some "hihat"]
  end.

(** The local [tempo] of [startMusic] and [updateMusic]. *)
Definition tempo (alpha : R) : Z := (80 + Seed.round (alpha * 80))%Z.

(** The local [complexity] of [startMusic], [newComplexity] of
    [updateMusic]. *)
Definition complexity (beta : R) : Complexity :=
  if Rlt_dec beta 0.3 then simple
  else if Rlt_dec beta 0.7 then medium
  else complex.

(** [stopMusic()] *)
Definition stopMusic (g : t) : t * list ToneCall :=
  if Nat.eqb (length (currentParts g)) 0 then
    ({| currentParts := currentParts g;
        currentPattern := currentPattern g;
        isPlaying := false |}, [])
  else
    ({| currentParts := [];
        currentPattern := currentPattern g;
        isPlaying := false |},
     concat (map (fun part => [partStop part; partDispose part])
                 (currentParts g))).

(** [startMusic(alpha, beta)] *)
Definition startMusic (alpha beta : R) (env : Env) (g : t)
    : t * list ToneCall :=
  let '(g, stopped) := stopMusic g in
  let c := complexity beta in
  let sub : string := if Rgt_dec alpha 0.5 then "16n" else "8n" in
  let bassPattern :=
    {| role := bassRole; events := patterns_bass c; subdivision := sub |} in
  let leadPattern :=
    {| role := leadRole; events := patterns_lead c; subdivision := sub |} in
  let kickPattern :=
    {| role := kickRole; events := patterns_drums_0 c; subdivision := sub |} in
  let snarePattern :=
    {| role := snareRole; events := patterns_drums_1 c; subdivision := sub |} in
  ({| currentParts := [bassPattern; leadPattern; kickPattern; snarePattern];
      currentPattern := c;
      isPlaying := true |},
   stopped ++
   [bpmValue (tempo alpha);
    partStart bassPattern; partStart leadPattern;
    partStart kickPattern; partStart snarePattern] ++
   (if String.eqb (transportState env) "started" then [] else [transportStart])).

(** [updateMusic(alpha, beta)] *)
Definition updateMusic (alpha beta : R) (env : Env) (g : t)
    : t * list ToneCall :=
  if negb (isPlaying g) then (g, [])
  else
    let ramp := [bpmRampTo (tempo alpha) 0.5] in
    let newComplexity := complexity beta in
    if negb (Complexity_eqb newComplexity (currentPattern g)) then
      let g :=
        {| currentParts := currentParts g;
           currentPattern := newComplexity;
           isPlaying := isPlaying g |} in
      let '(g, calls) := startMusic alpha beta env g in
      (g, ramp ++ calls)
    else
      let bass :=
        if bassFilterEnvelope env
        then [bassBaseFrequency (100 + (alpha * 400))] else [] in
      let lead :=
        if JsMath.gtb beta 0.8
           && negb (String.eqb (leadOscillatorType env) "sawtooth")
        then [leadOscillator "sawtooth"]
        else if JsMath.gtb beta 0.4
                && (if Rle_dec beta 0.8 then true else false)
                && negb (String.eqb (leadOscillatorType env) "square4")
        then [leadOscillator "square4"]
        else if (if Rle_dec beta 0.4 then true else false)
                && negb (String.eqb (leadOscillatorType env) "triangle")
        then [leadOscillator "triangle"]
        else [] in
      (g, ramp ++ bass ++ lead).

(** The three methods, as calls that can follow one another. *)
Inductive Call :=
| callStart (alpha beta : R) (env : Env)
| callUpdate (alpha beta : R) (env : Env)
| callStop.

Definition perform (g : t) (c : Call) : t :=
  match c with
  | callStart alpha beta env => fst (startMusic alpha beta env g)
  | callUpdate alpha beta env => fst (updateMusic alpha beta env g)
  | callStop => fst (stopMusic g)
  end.

End MusicGenerator.

(** ** Vocabulary of the statements *)

Import QuantumLayer.

(** What the specification calls the invariant of the state: the
    probabilities are the squared amplitudes over their sum, or all zero
    when that sum is zero. *)
Definition sum_squares (q : t) : R :=
  fold_left Rplus (map (fun a => a ^ 2) (amplitudes q)) 0.

Definition normalized (q : t) : Prop :=
  length (probabilities q) = length (amplitudes q) /\
  (0 < sum_squares q ->
     probabilities q = map (fun a => a ^ 2 / sum_squares q) (amplitudes q) /\
     Forall (fun p => 0 <= p) (probabilities q) /\
     fold_left Rplus (probabilities q) 0 = 1) /\
  (sum_squares q = 0 -> Forall (fun p => p = 0) (probabilities q)).

(** A layer whose four probabilities are all zero, with the measurement
    bits of a fresh object. *)
Definition degenerate : QuantumLayer.t :=
  {| amplitudes := [0; 0; 0; 0];
     probabilities := [0; 0; 0; 0];
     phase := 0;
     lastMeasurement := (0%nat, 0%nat) |}.

(** The trigger with no drum. *)
Definition silent : RhythmTrigger :=
  {| kick := false; snare := false; hihat := false; clap := false |}.

(** The state of [processInput] after [reset] and the write of [phase]. *)
Definition prepared (betaValue : R) (q : QuantumLayer.t) : QuantumLayer.t :=
  set_phase (betaValue * PI) (reset q).

(** The state of [processInput] after its two guarded Hadamard gates. *)
Definition superposed (alphaValue betaValue : R) (q : QuantumLayer.t)
    : QuantumLayer.t :=
  let q := prepared betaValue q in
  let q := if Rgt_dec alphaValue 0.3 then applyHadamard 0 q else q in
  if Rgt_dec alphaValue 0.6 then applyHadamard 1 q else q.

(** The state of [processInput] when it calls [measure]. *)
Definition entangled (alphaValue betaValue : R) (q : QuantumLayer.t)
    : QuantumLayer.t :=
  applyCNOT 0 1
    (applyPhaseRotation 0 (betaValue * PI) (superposed alphaValue betaValue q)).

(** A tracker at rest: the pointer is where the previous tick left it, no
    key is held, and the decay rate is the one set by the constructor (no
    method writes it). *)
Definition quiet (s : InputSystem.t) : Prop :=
  InputSystem.mouseX s = InputSystem.prevMouseX s /\
  InputSystem.mouseY s = InputSystem.prevMouseY s /\
  InputSystem.keysPressed s = ∅ /\
  InputSystem.keyActivityDecay s = 0.95.

(** A tracker at rest whose key activity is still at its ceiling: what
    five key presses and the release of the key leave behind when they
    arrive before the first tick. *)
Definition residual : InputSystem.t :=
  {| InputSystem.mouseX := 0; InputSystem.mouseY := 0;
     InputSystem.prevMouseX := 0; InputSystem.prevMouseY := 0;
     InputSystem.mouseVelocity := 0; InputSystem.mouseDirection := 0;
     InputSystem.keysPressed := ∅;
     InputSystem.keyActivityLevel := 1;
     InputSystem.keyActivityDecay := 0.95;
     InputSystem.alphaValue := 0;
     InputSystem.betaValue := 0 |}.

(** The application once [start()] has set [isRunning]. *)
Definition started : App.t :=
  {| App.inputSystem := App.inputSystem App.new;
     App.quantumLayer := App.quantumLayer App.new;
     App.isRunning := true;
     App.lastRhythmTriggerTime := App.lastRhythmTriggerTime App.new;
     App.lastInputValues := App.lastInputValues App.new;
     App.inputChangeThreshold := App.inputChangeThreshold App.new |}.

(** The sum of the first [k] entries of a probability vector. *)
Definition prefix_sum (k : nat) (probs : list R) : R :=
  fold_left Rplus (take k probs) 0.

(** A layer as [measure] leaves it when its loop breaks at the index [i]:
    both vectors one-hot at [i] and the measurement bits those of [i]. *)
Definition collapsed_at (i : nat) (q : QuantumLayer.t) : Prop :=
  (i < 4)%nat /\
  amplitudes q = <[i := 1]> [0; 0; 0; 0] /\
  probabilities q = <[i := 1]> [0; 0; 0; 0] /\
  lastMeasurement q = (Nat.land (Nat.shiftr i 1) 1, Nat.land i 1).

(** What reaches the tracker: the three page events it listens to, and the
    call of [update()] made by a frame. *)
Inductive PageEvent :=
| mousemove (clientX clientY : R)
| keydown (key : string)
| keyup (key : string)
| frame.

Definition dispatch (s : InputSystem.t) (e : PageEvent) : InputSystem.t :=
  match e with
  | mousemove clientX clientY => InputSystem._handleMouseMove clientX clientY s
  | keydown key => InputSystem._handleKeyDown key s
  | keyup key => InputSystem._handleKeyUp key s
  | frame => fst (InputSystem.update s)
  end.

(** The tracker after a sequence of events, oldest first. *)
Definition replay (events : list PageEvent) (s : InputSystem.t)
    : InputSystem.t :=
  fold_left dispatch events s.

(** Both drives and the key activity in [[0,1]], with the decay rate of the
    constructor. *)
Definition in_range (s : InputSystem.t) : Prop :=
  0 <= InputSystem.alphaValue s <= 1 /\
  0 <= InputSystem.betaValue s <= 1 /\
  0 <= InputSystem.keyActivityLevel s <= 1 /\
  InputSystem.keyActivityDecay s = 0.95.

(** A note whose pitch is a number between [lo] and [hi]. *)
Definition pitch_in (lo hi : Z) (n : Seed.Note) : Prop :=
  exists p, Seed.pitch n = Some p /\ (lo <= p <= hi)%Z.

(** A note that starts inside the bar and lasts between a tenth and a
    fifth of it. *)
Definition well_timed (n : Seed.Note) : Prop :=
  0 <= Seed.startTime n <= 0.875 /\
  0.1 <= Seed.endTime n - Seed.startTime n <= 0.2.

(** The four sequences that [startMusic] builds for a complexity and a
    subdivision. *)
Definition four_parts (c : MusicGenerator.Complexity) (sub : string)
    : list MusicGenerator.Part :=
  [ {| MusicGenerator.role := MusicGenerator.bassRole;
       MusicGenerator.events := MusicGenerator.patterns_bass c;
       MusicGenerator.subdivision := sub |};
    {| MusicGenerator.role := MusicGenerator.leadRole;
       MusicGenerator.events := MusicGenerator.patterns_lead c;
       MusicGenerator.subdivision := sub |};
    {| MusicGenerator.role := MusicGenerator.kickRole;
       MusicGenerator.events := MusicGenerator.patterns_drums_0 c;
       MusicGenerator.subdivision := sub |};
    {| MusicGenerator.role := MusicGenerator.snareRole;
       MusicGenerator.events := MusicGenerator.patterns_drums_1 c;
       MusicGenerator.subdivision := sub |} ].

(** A generator that holds no part and does not play, or plays the four
    parts of its current pattern. *)
Definition parts_consistent (g : MusicGenerator.t) : Prop :=
  (MusicGenerator.isPlaying g = false /\ MusicGenerator.currentParts g = []) \/
  (MusicGenerator.isPlaying g = true /\
   exists sub,
     MusicGenerator.currentParts g
       = four_parts (MusicGenerator.currentPattern g) sub).

(** The waveform that [updateMusic] wants for the lead synth. *)
Definition lead_band (beta : R) : string :=
  if Rgt_dec beta 0.8 then "sawtooth"
  else if Rgt_dec beta 0.4 then "square4"
  else "triangle".

(** * Properties *)

(** ** Sums of squares and [_updateProbabilities] *)

Section Probabilities.

Lemma fold_left_Rplus_acc (l : list R) (a : R) :
  fold_left Rplus l a = a + fold_left Rplus l 0.
Proof.
  revert a. induction l as [|x l IH]; intros a; simpl.
  - lra.
  - rewrite IH, (IH (0 + x)). lra.
Qed.

Lemma sum_cons (x : R) (l : list R) :
  fold_left Rplus (x :: l) 0 = x + fold_left Rplus l 0.
Proof. simpl. rewrite fold_left_Rplus_acc. lra. Qed.

Lemma sum_squares_nonneg (l : list R) :
  0 <= fold_left Rplus (map JsMath.pow2 l) 0.
Proof.
  induction l as [|x l IH].
  - simpl. lra.
  - rewrite map_cons, sum_cons. unfold JsMath.pow2 at 1.
    pose proof (pow2_ge_0 x). lra.
Qed.

Lemma sum_squares_zero (l : list R) :
  fold_left Rplus (map JsMath.pow2 l) 0 = 0 ->
  map JsMath.pow2 l = map (fun _ => 0) l.
Proof.
  induction l as [|x l IH]; intros Hs.
  - reflexivity.
  - rewrite map_cons, sum_cons in Hs.
    pose proof (sum_squares_nonneg l) as Hl.
    assert (Hx : 0 <= JsMath.pow2 x) by (unfold JsMath.pow2; apply pow2_ge_0).
    simpl. f_equal.
    + lra.
    + apply IH. lra.
Qed.

Lemma sum_scaled (l : list R) (s : R) :
  fold_left Rplus (map (fun p => p / s) l) 0 = fold_left Rplus l 0 / s.
Proof.
  induction l as [|x l IH].
  - simpl. lra.
  - rewrite map_cons, !sum_cons, IH. lra.
Qed.

Lemma sum_squares_pos_head (a : R) (l : list R) :
  a <> 0 -> 0 < fold_left Rplus (map JsMath.pow2 (a :: l)) 0.
Proof.
  intros Ha. rewrite map_cons, sum_cons.
  pose proof (sum_squares_nonneg l).
  assert (0 < JsMath.pow2 a).
  { unfold JsMath.pow2. destruct (Rtotal_order a 0) as [Hn|[Hz|Hp]]; nra. }
  lra.
Qed.

Lemma updateProbabilities_normalized (q : t) :
  normalized (_updateProbabilities q).
Proof.
  unfold normalized, sum_squares, _updateProbabilities.
  cbn [amplitudes probabilities].
  change (map (fun a : R => a ^ 2) (amplitudes q))
    with (map JsMath.pow2 (amplitudes q)).
  set (sq := map JsMath.pow2 (amplitudes q)).
  set (s := fold_left Rplus sq 0).
  split; [|split].
  - destruct (Rgt_dec s 0); unfold sq; rewrite ?length_map; reflexivity.
  - intros Hpos. destruct (Rgt_dec s 0) as [_|Hn]; [|exfalso; lra].
    split; [|split].
    + unfold sq. rewrite map_map. reflexivity.
    + unfold sq. rewrite map_map. apply Forall_map, Forall_forall.
      intros a _. simpl. unfold JsMath.pow2.
      apply Rmult_le_pos; [apply pow2_ge_0|].
      left. apply Rinv_0_lt_compat. exact Hpos.
    + rewrite sum_scaled. fold s. field. lra.
  - intros Hz. destruct (Rgt_dec s 0) as [Hp|_]; [exfalso; lra|].
    unfold sq. rewrite (sum_squares_zero _ Hz).
    apply Forall_map, Forall_forall. intros a _. reflexivity.
Qed.

Lemma updateProbabilities_amplitudes (q : t) :
  amplitudes (_updateProbabilities q) = amplitudes q.
Proof. reflexivity. Qed.

End Probabilities.

(** ** The gates *)

Section Gates.

Lemma fold_left_pointwise {A B : Type} (f g : A -> B -> A) (l : list B) (a : A) :
  (forall x y, f x y = g x y) ->
  fold_left f l a = fold_left g l a.
Proof.
  intros Hfg. revert a. induction l as [|y l IH]; intros a; simpl.
  - reflexivity.
  - rewrite Hfg. apply IH.
Qed.

Lemma fold_left_length_invariant {B : Type} (f : list R -> B -> list R)
    (l : list B) (a : list R) :
  (forall x y, length (f x y) = length x) ->
  length (fold_left f l a) = length a.
Proof.
  intros Hf. revert a. induction l as [|y l IH]; intros a; simpl.
  - reflexivity.
  - rewrite IH. apply Hf.
Qed.

Lemma hadamard_body_length amps qubit ns i :
  length (hadamard_body amps qubit ns i) = length ns.
Proof.
  unfold hadamard_body.
  destruct (Nat.eqb _ 0); [rewrite !length_insert|]; reflexivity.
Qed.

Lemma cnot_body_length amps c tq ns i :
  length (cnot_body amps c tq ns i) = length ns.
Proof.
  unfold cnot_body.
  destruct (Nat.eqb _ 1); [rewrite !length_insert|]; reflexivity.
Qed.

Lemma phase_body_length amps qubit ph ns i :
  length (phase_body amps qubit ph ns i) = length ns.
Proof.
  unfold phase_body.
  destruct (Nat.eqb _ 1); [rewrite !length_insert|]; reflexivity.
Qed.

Lemma applyHadamard_length qubit q :
  length (amplitudes (applyHadamard qubit q)) = length (amplitudes q).
Proof.
  unfold applyHadamard. rewrite updateProbabilities_amplitudes.
  cbn [set_amplitudes amplitudes].
  apply fold_left_length_invariant. intros; apply hadamard_body_length.
Qed.

Lemma applyCNOT_length c tq q :
  length (amplitudes (applyCNOT c tq q)) = length (amplitudes q).
Proof.
  unfold applyCNOT. rewrite updateProbabilities_amplitudes.
  cbn [set_amplitudes amplitudes].
  apply fold_left_length_invariant. intros; apply cnot_body_length.
Qed.

Lemma applyPhaseRotation_length qubit ph q :
  length (amplitudes (applyPhaseRotation qubit ph q)) = length (amplitudes q).
Proof.
  unfold applyPhaseRotation. rewrite updateProbabilities_amplitudes.
  cbn [set_amplitudes amplitudes].
  apply fold_left_length_invariant. intros; apply phase_body_length.
Qed.

(** The gates leave [phase] and [lastMeasurement] alone. *)
Lemma applyHadamard_frame qubit q :
  phase (applyHadamard qubit q) = phase q /\
  lastMeasurement (applyHadamard qubit q) = lastMeasurement q.
Proof. split; reflexivity. Qed.

Lemma applyCNOT_frame c tq q :
  phase (applyCNOT c tq q) = phase q /\
  lastMeasurement (applyCNOT c tq q) = lastMeasurement q.
Proof. split; reflexivity. Qed.

Lemma applyPhaseRotation_frame qubit ph q :
  phase (applyPhaseRotation qubit ph q) = phase q /\
  lastMeasurement (applyPhaseRotation qubit ph q) = lastMeasurement q.
Proof. split; reflexivity. Qed.

(** *** Closed forms on four amplitudes *)

Lemma applyHadamard_0_amplitudes (a b c d : R) q :
  amplitudes q = [a; b; c; d] ->
  amplitudes (applyHadamard 0 q) =
    [(a + b) / JsMath.SQRT2; (a - b) / JsMath.SQRT2;
     (c + d) / JsMath.SQRT2; (c - d) / JsMath.SQRT2].
Proof.
  intros H. unfold applyHadamard. rewrite updateProbabilities_amplitudes.
  cbn [set_amplitudes amplitudes]. rewrite H. reflexivity.
Qed.

Lemma applyHadamard_1_amplitudes (a b c d : R) q :
  amplitudes q = [a; b; c; d] ->
  amplitudes (applyHadamard 1 q) =
    [(a + c) / JsMath.SQRT2; (b + d) / JsMath.SQRT2;
     (a - c) / JsMath.SQRT2; (b - d) / JsMath.SQRT2].
Proof.
  intros H. unfold applyHadamard. rewrite updateProbabilities_amplitudes.
  cbn [set_amplitudes amplitudes]. rewrite H. reflexivity.
Qed.

Lemma applyPhaseRotation_0_amplitudes (a b c d ph : R) q :
  amplitudes q = [a; b; c; d] ->
  amplitudes (applyPhaseRotation 0 ph q) = [a; b * cos ph; c; d * cos ph].
Proof.
  intros H. unfold applyPhaseRotation. rewrite updateProbabilities_amplitudes.
  cbn [set_amplitudes amplitudes]. rewrite H. reflexivity.
Qed.

Lemma applyCNOT_0_1_amplitudes (a b c d : R) q :
  amplitudes q = [a; b; c; d] ->
  amplitudes (applyCNOT 0 1 q) = [a; d; c; b].
Proof.
  intros H. unfold applyCNOT. rewrite updateProbabilities_amplitudes.
  cbn [set_amplitudes amplitudes]. rewrite H. reflexivity.
Qed.

(** Every gate ends in [_updateProbabilities]: its result is that
    function applied to some state, hence normalized. *)
Lemma applyHadamard_normalized qubit q : normalized (applyHadamard qubit q).
Proof. apply updateProbabilities_normalized. Qed.

Lemma applyCNOT_normalized c tq q : normalized (applyCNOT c tq q).
Proof. apply updateProbabilities_normalized. Qed.

Lemma applyPhaseRotation_normalized qubit ph q :
  normalized (applyPhaseRotation qubit ph q).
Proof. apply updateProbabilities_normalized. Qed.

(** *** The phase gate on qubit 0, for any number of amplitudes *)

Lemma bit0_test (i : nat) :
  Nat.eqb (Nat.land (Nat.shiftr i 0) 1) 1 = Nat.testbit i 0.
Proof.
  rewrite Nat.shiftr_0_r.
  change 1%nat with (Nat.ones 1) at 1.
  rewrite Nat.land_ones, Nat.bit0_eqb. reflexivity.
Qed.

Lemma phase_fold (amps : list R) (ph : R) (m : nat) :
  forall (k : nat) (ns : list R),
    length ns = length amps ->
    forall i,
      fold_left (phase_body amps 0 ph) (seq k m) ns !! i =
        if bool_decide ((k <= i < k + m)%nat /\ Nat.testbit i 0 = true)
        then (fun a => a * cos ph) <$> (amps !! i)
        else ns !! i.
Proof.
  induction m as [|m IH]; intros k ns Hlen i.
  - simpl. rewrite bool_decide_eq_false_2; [reflexivity|lia].
  - cbn [seq fold_left].
    rewrite IH by (rewrite phase_body_length; exact Hlen).
    unfold phase_body. rewrite bit0_test.
    destruct (bool_decide ((S k <= i < S k + m)%nat /\ Nat.testbit i 0 = true))
      eqn:Hin.
    + apply bool_decide_eq_true_1 in Hin.
      rewrite bool_decide_eq_true_2; [reflexivity|]. split; [lia|tauto].
    + apply bool_decide_eq_false_1 in Hin.
      destruct (Nat.eq_dec i k) as [->|Hne].
      * destruct (Nat.testbit k 0) eqn:Hb.
        -- rewrite bool_decide_eq_true_2 by (split; [lia|reflexivity]).
           unfold at_index.
           destruct (amps !! k) as [a|] eqn:Ha.
           ++ rewrite list_lookup_insert_eq; [reflexivity|].
              rewrite Hlen. apply lookup_lt_Some in Ha. exact Ha.
           ++ simpl. apply lookup_ge_None. rewrite length_insert, Hlen.
              apply lookup_ge_None in Ha. exact Ha.
        -- rewrite bool_decide_eq_false_2; [reflexivity|].
           intros [_ Hf]. discriminate Hf.
      * rewrite bool_decide_eq_false_2
          by (intros [Hr Hb]; apply Hin; split; [lia|exact Hb]).
        destruct (Nat.testbit k 0); [|reflexivity].
        apply list_lookup_insert_ne. congruence.
Qed.

Lemma applyPhaseRotation_0_lookup (ph : R) (q : t) (i : nat) :
  amplitudes (applyPhaseRotation 0 ph q) !! i =
    (fun a => if Nat.testbit i 0 then a * cos ph else a)
      <$> (amplitudes q !! i).
Proof.
  unfold applyPhaseRotation. rewrite updateProbabilities_amplitudes.
  cbn [set_amplitudes amplitudes].
  rewrite phase_fold by reflexivity.
  destruct (amplitudes q !! i) as [a|] eqn:Ha.
  - apply lookup_lt_Some in Ha.
    destruct (Nat.testbit i 0) eqn:Hb.
    + rewrite bool_decide_eq_true_2 by (split; [lia|reflexivity]).
      reflexivity.
    + rewrite bool_decide_eq_false_2; [reflexivity|].
      intros [_ Hf]. discriminate Hf.
  - destruct (bool_decide _); reflexivity.
Qed.

Lemma applyPhaseRotation_cos_only (qubit : nat) (ph ph' : R) (q : t) :
  cos ph = cos ph' ->
  applyPhaseRotation qubit ph q = applyPhaseRotation qubit ph' q.
Proof.
  intros Hc. unfold applyPhaseRotation. do 2 f_equal.
  apply fold_left_pointwise. intros ns i.
  unfold phase_body. rewrite Hc. reflexivity.
Qed.

End Gates.

(** ** The measurement loop *)

Section Measurement.

Lemma measure_loop_zero (rand : R) (probs : list R) :
  Forall (fun p => p = 0) probs ->
  forall (i : nat) (c : R), c <= rand -> measure_loop rand probs i c = None.
Proof.
  induction 1 as [|p rest Hp _ IH]; intros i c Hc; simpl.
  - reflexivity.
  - subst p. destruct (Rlt_dec rand (c + 0)) as [Hlt|_]; [lra|].
    apply IH. lra.
Qed.

Lemma measure_loop_bound (rand : R) (probs : list R) :
  forall (i j : nat) (c : R),
    measure_loop rand probs i c = Some j -> (i <= j < i + length probs)%nat.
Proof.
  induction probs as [|p rest IH]; intros i j c; simpl.
  - discriminate.
  - destruct (Rlt_dec rand (c + p)).
    + intros H. injection H as <-. lia.
    + intros H. apply IH in H. lia.
Qed.

Lemma measure_loop_hits (rand : R) (probs : list R) :
  forall (i : nat) (c : R),
    c <= rand -> rand < fold_left Rplus probs c ->
    exists j, measure_loop rand probs i c = Some j.
Proof.
  induction probs as [|p rest IH]; intros i c Hc Hs; simpl in *.
  - lra.
  - destruct (Rlt_dec rand (c + p)) as [|Hn].
    + exists i. reflexivity.
    + apply IH; [lra|exact Hs].
Qed.

(** The trigger read off the bits of a basis index below 4. *)
Lemma collapse_trigger (i : nat) (q : QuantumLayer.t) :
  (i < 4)%nat ->
  let m := lastMeasurement (collapse i q) in
  let stateValue := (fst m * 2 + snd m)%nat in
  m = (Nat.land (Nat.shiftr i 1) 1, Nat.land i 1) /\
  stateValue = i /\
  let r := _mapMeasurementToRhythm (collapse i q) in
  (kick r = true <-> stateValue = 1%nat \/ stateValue = 3%nat) /\
  (snare r = true <-> stateValue = 2%nat \/ stateValue = 3%nat) /\
  (hihat r = true <-> stateValue = 1%nat \/ stateValue = 2%nat) /\
  (clap r = true <-> stateValue = 3%nat).
Proof.
  intros Hi.
  assert (Hcases : i = 0%nat \/ i = 1%nat \/ i = 2%nat \/ i = 3%nat) by lia.
  destruct Hcases as [-> | [-> | [-> | ->]]]; cbn;
    intuition (try discriminate; try lia).
Qed.

End Measurement.

(** ** The circuit of [processInput] *)

Section Circuit.

Lemma superposed_phase (alphaValue betaValue : R) (q : QuantumLayer.t) :
  phase (superposed alphaValue betaValue q) = betaValue * PI.
Proof.
  unfold superposed.
  destruct (Rgt_dec alphaValue 0.3), (Rgt_dec alphaValue 0.6); reflexivity.
Qed.

Lemma processInput_stages (alphaValue betaValue rand : R) (q : QuantumLayer.t) :
  processInput alphaValue betaValue rand q =
    measure rand (entangled alphaValue betaValue q).
Proof.
  unfold processInput, entangled.
  change (set_phase (betaValue * PI) (reset q)) with (prepared betaValue q).
  fold (superposed alphaValue betaValue q).
  rewrite superposed_phase. reflexivity.
Qed.

Lemma sqrt2_pos : 0 < JsMath.SQRT2.
Proof. unfold JsMath.SQRT2. apply sqrt_lt_R0. lra. Qed.

Lemma sqrt2_twice (x : R) : x / JsMath.SQRT2 / JsMath.SQRT2 = x / 2.
Proof.
  pose proof sqrt2_pos as Hp.
  assert (Hs : JsMath.SQRT2 * JsMath.SQRT2 = 2)
    by (unfold JsMath.SQRT2; apply sqrt_sqrt; lra).
  rewrite <- Hs. field. lra.
Qed.

Lemma prepared_amplitudes (betaValue : R) (q : QuantumLayer.t) :
  amplitudes (prepared betaValue q) = [1; 0; 0; 0].
Proof. reflexivity. Qed.

(** After the guarded gates the vector has four entries and the first one
    is positive, whatever the drive. *)
Lemma superposed_shape (alphaValue betaValue : R) (q : QuantumLayer.t) :
  exists a b c d,
    amplitudes (superposed alphaValue betaValue q) = [a; b; c; d] /\ 0 < a.
Proof.
  pose proof sqrt2_pos as Hp.
  unfold superposed.
  destruct (Rgt_dec alphaValue 0.3), (Rgt_dec alphaValue 0.6).
  - do 4 eexists. split.
    + apply applyHadamard_1_amplitudes, applyHadamard_0_amplitudes,
        prepared_amplitudes.
    + apply Rdiv_lt_0_compat; [|exact Hp].
      pose proof (Rinv_0_lt_compat _ Hp) as Hi. unfold Rdiv. nra.
  - do 4 eexists. split.
    + apply applyHadamard_0_amplitudes, prepared_amplitudes.
    + apply Rdiv_lt_0_compat; [lra|exact Hp].
  - do 4 eexists. split.
    + apply applyHadamard_1_amplitudes, prepared_amplitudes.
    + apply Rdiv_lt_0_compat; [lra|exact Hp].
  - do 4 eexists. split; [apply prepared_amplitudes|lra].
Qed.

Lemma entangled_shape (alphaValue betaValue : R) (q : QuantumLayer.t) :
  exists a b c d,
    amplitudes (entangled alphaValue betaValue q) = [a; b; c; d] /\ 0 < a.
Proof.
  destruct (superposed_shape alphaValue betaValue q) as (a & b & c & d & Hs & Ha).
  exists a, (d * cos (betaValue * PI)), c, (b * cos (betaValue * PI)).
  split; [|exact Ha].
  unfold entangled.
  apply applyCNOT_0_1_amplitudes, applyPhaseRotation_0_amplitudes, Hs.
Qed.

Lemma entangled_normalized (alphaValue betaValue : R) (q : QuantumLayer.t) :
  normalized (entangled alphaValue betaValue q).
Proof. apply applyCNOT_normalized. Qed.

Lemma entangled_probabilities_sum (alphaValue betaValue : R) (q : QuantumLayer.t) :
  length (probabilities (entangled alphaValue betaValue q)) = 4%nat /\
  fold_left Rplus (probabilities (entangled alphaValue betaValue q)) 0 = 1.
Proof.
  destruct (entangled_shape alphaValue betaValue q) as (a & b & c & d & Hs & Ha).
  destruct (entangled_normalized alphaValue betaValue q) as (Hlen & Hpos & _).
  split.
  - rewrite Hlen, Hs. reflexivity.
  - apply Hpos. unfold sum_squares. rewrite Hs.
    apply (sum_squares_pos_head a [b; c; d]). lra.
Qed.

(** Inside [processInput] the loop of [measure] always reaches its
    [break], at an index below 4. *)
Lemma processInput_collapses (alphaValue betaValue rand : R) (q : QuantumLayer.t) :
  0 <= rand < 1 ->
  exists i, (i < 4)%nat /\
    measure_loop rand (probabilities (entangled alphaValue betaValue q)) 0 0
      = Some i.
Proof.
  intros [H0 H1].
  destruct (entangled_probabilities_sum alphaValue betaValue q) as [Hlen Hsum].
  destruct (measure_loop_hits rand
              (probabilities (entangled alphaValue betaValue q)) 0 0)
    as [i Hi]; [exact H0|lra|].
  exists i. split; [|exact Hi].
  apply measure_loop_bound in Hi. lia.
Qed.

Lemma normalized_basis_state (q : QuantumLayer.t) :
  amplitudes q = [1; 0; 0; 0] -> normalized q ->
  probabilities q = [1; 0; 0; 0].
Proof.
  intros Ha (_ & Hpos & _).
  assert (Hs : sum_squares q = 1).
  { unfold sum_squares. rewrite Ha. simpl. lra. }
  destruct Hpos as (Hp & _); [lra|].
  rewrite Hp, Hs, Ha. simpl. repeat f_equal; lra.
Qed.

End Circuit.

(** ** The quantum rhythm simulator against its specification *)

(** C10.  When every probability is zero the loop of [measure] never
    reaches its [break] for a draw in [[0,1)]: [measure] returns the object
    as it was (amplitudes, probabilities, [lastMeasurement] untouched) and
    the trigger is read from the [lastMeasurement] left by the previous
    call; with the bits [[0,0]] of a fresh object the trigger has no drum. *)
Theorem measure_zero_probabilities_frame (rand : R) (q : QuantumLayer.t) :
  0 <= rand < 1 ->
  Forall (fun p => p = 0) (probabilities q) ->
  measure_loop rand (probabilities q) 0 0 = None /\
  measure rand q = (q, _mapMeasurementToRhythm q) /\
  (lastMeasurement q = (0%nat, 0%nat) -> snd (measure rand q) = silent).
Proof.
  intros [H0 _] Hz.
  assert (Hloop : measure_loop rand (probabilities q) 0 0 = None)
    by (apply measure_loop_zero; [exact Hz|exact H0]).
  assert (Hm : measure rand q = (q, _mapMeasurementToRhythm q))
    by (unfold measure; rewrite Hloop; reflexivity).
  repeat split; [exact Hloop|exact Hm|].
  intros Hl. rewrite Hm. unfold _mapMeasurementToRhythm. cbn [snd].
  rewrite Hl. reflexivity.
Qed.

Lemma measure_zero_probabilities_frame_witness :
  0 <= 0 < 1 /\
  Forall (fun p => p = 0) (probabilities degenerate) /\
  measure 0 degenerate = (degenerate, _mapMeasurementToRhythm degenerate) /\
  snd (measure 0 degenerate) = silent.
Proof.
  assert (Hr : 0 <= 0 < 1) by lra.
  assert (Hz : Forall (fun p => p = 0) (probabilities degenerate))
    by (repeat constructor).
  destruct (measure_zero_probabilities_frame 0 degenerate Hr Hz)
    as (_ & Hm & Hs).
  repeat split; try lra; [exact Hz|exact Hm|apply Hs; reflexivity].
Defined.

(** C1, as the code has it.  With the probability vector [[0,0,0,0]] no
    collapse happens and there is no fallback index: amplitudes stay as
    they were, the probabilities stay all zero, [lastMeasurement] is kept,
    and the returned trigger is the one of the kept [lastMeasurement]. *)
Theorem measure_zero_probabilities_no_collapse (rand : R) (q : QuantumLayer.t) :
  0 <= rand < 1 ->
  probabilities q = [0; 0; 0; 0] ->
  amplitudes (fst (measure rand q)) = amplitudes q /\
  probabilities (fst (measure rand q)) = [0; 0; 0; 0] /\
  lastMeasurement (fst (measure rand q)) = lastMeasurement q /\
  snd (measure rand q) = _mapMeasurementToRhythm q.
Proof.
  intros [H0 _] Hp.
  assert (Hloop : measure_loop rand (probabilities q) 0 0 = None).
  { apply measure_loop_zero; [|exact H0]. rewrite Hp. repeat constructor. }
  unfold measure. rewrite Hloop. cbn [fst snd].
  repeat split; try reflexivity. exact Hp.
Qed.

Lemma measure_zero_probabilities_no_collapse_witness :
  0 <= 0 < 1 /\
  probabilities degenerate = [0; 0; 0; 0] /\
  amplitudes (fst (measure 0 degenerate)) = [0; 0; 0; 0] /\
  snd (measure 0 degenerate) = _mapMeasurementToRhythm degenerate.
Proof.
  assert (Hr : 0 <= 0 < 1) by lra.
  destruct (measure_zero_probabilities_no_collapse 0 degenerate Hr eq_refl)
    as (Ha & _ & _ & Ht).
  repeat split; try lra; [exact Ha|exact Ht].
Defined.

(** C1, as the specification has it, fails: on the all-zero layer with the
    draw [0], [measure] leaves the amplitudes and the probabilities all
    zero instead of one-hot at index 3, keeps the measurement [[0,0]]
    instead of [[1,1]], and returns the silent trigger instead of the one
    of index 3. *)
Lemma measure_degenerate_no_fallback :
  Forall (fun p => p = 0) (probabilities degenerate) /\
  amplitudes (fst (measure 0 degenerate)) <> <[3%nat := 1]> [0; 0; 0; 0] /\
  probabilities (fst (measure 0 degenerate)) <> <[3%nat := 1]> [0; 0; 0; 0] /\
  lastMeasurement (fst (measure 0 degenerate)) <> (1%nat, 1%nat) /\
  lastMeasurement (collapse 3 degenerate) = (1%nat, 1%nat) /\
  snd (measure 0 degenerate) = silent /\
  snd (measure 0 degenerate) <> _mapMeasurementToRhythm (collapse 3 degenerate).
Proof.
  assert (Hloop : measure_loop 0 (probabilities degenerate) 0 0 = None).
  { apply measure_loop_zero; [repeat constructor|lra]. }
  unfold measure. rewrite Hloop. cbn [fst snd].
  split; [repeat constructor|].
  split; [|split]; [| |split; [|split; [|split]]].
  - cbn. intros H. injection H as H. lra.
  - cbn. intros H. injection H as H. lra.
  - cbn. discriminate.
  - reflexivity.
  - reflexivity.
  - cbn. discriminate.
Qed.

(** C2.  Each gate ends by recomputing the probabilities, so after
    [applyHadamard], [applyCNOT] and [applyPhaseRotation] on four amplitudes
    the state is normalized: when the sum of the squared amplitudes is
    positive, every probability is the squared amplitude over that sum, all
    four are non-negative and they add up to 1; when the sum is zero, the
    probabilities are all zero.  The sum is never negative. *)
Theorem gates_leave_state_normalized
    (q : QuantumLayer.t) (qubit controlQubit targetQubit : nat) (ph : R) :
  length (amplitudes q) = 4%nat ->
  (qubit < 2)%nat -> (controlQubit < 2)%nat -> (targetQubit < 2)%nat ->
  forall q',
    q' = applyHadamard qubit q \/
    q' = applyCNOT controlQubit targetQubit q \/
    q' = applyPhaseRotation qubit ph q ->
    length (amplitudes q') = 4%nat /\
    length (probabilities q') = 4%nat /\
    0 <= sum_squares q' /\
    (0 < sum_squares q' ->
       (forall i a, amplitudes q' !! i = Some a ->
                    probabilities q' !! i = Some (a ^ 2 / sum_squares q')) /\
       Forall (fun p => 0 <= p) (probabilities q') /\
       fold_left Rplus (probabilities q') 0 = 1) /\
    (sum_squares q' = 0 -> probabilities q' = [0; 0; 0; 0]).
Proof.
  intros Hlen _ _ _ q' Hq'.
  assert (Hn : normalized q' /\ length (amplitudes q') = 4%nat).
  { destruct Hq' as [-> | [-> | ->]].
    - split; [apply applyHadamard_normalized|].
      rewrite applyHadamard_length; exact Hlen.
    - split; [apply applyCNOT_normalized|].
      rewrite applyCNOT_length; exact Hlen.
    - split; [apply applyPhaseRotation_normalized|].
      rewrite applyPhaseRotation_length; exact Hlen. }
  destruct Hn as ((Hpl & Hpos & Hzero) & Hal).
  rewrite Hal in Hpl.
  split; [exact Hal|]. split; [exact Hpl|].
  split; [apply sum_squares_nonneg|]. split.
  - intros Hs. destruct (Hpos Hs) as (Hp & Hnn & Hsum).
    split; [|split; [exact Hnn|exact Hsum]].
    intros i a Hi. rewrite Hp, list_lookup_fmap, Hi. reflexivity.
  - intros Hz. specialize (Hzero Hz).
    destruct (probabilities q') as [|p0 [|p1 [|p2 [|p3 [|p4 rest]]]]];
      try discriminate Hpl.
    inversion Hzero as [|? ? E0 H1]; subst.
    inversion H1 as [|? ? E1 H2]; subst.
    inversion H2 as [|? ? E2 H3]; subst.
    inversion H3 as [|? ? E3 H4]; subst.
    reflexivity.
Qed.

Lemma gates_leave_state_normalized_witness :
  length (amplitudes QuantumLayer.new) = 4%nat /\
  (0 < 2)%nat /\ (1 < 2)%nat /\
  length (probabilities (applyHadamard 0 QuantumLayer.new)) = 4%nat /\
  0 <= sum_squares (applyHadamard 0 QuantumLayer.new).
Proof.
  assert (H02 : (0 < 2)%nat) by lia.
  assert (H12 : (1 < 2)%nat) by lia.
  destruct (gates_leave_state_normalized QuantumLayer.new 0 0 1 0
              eq_refl H02 H02 H12 (applyHadamard 0 QuantumLayer.new)
              (or_introl eq_refl))
    as (_ & Hp & Hs & _).
  repeat split; [exact H02|exact H12|exact Hp|exact Hs].
Defined.

(** C5.  For every phase and every amplitude vector,
    [applyPhaseRotation(0, phase)] multiplies the amplitude at each index
    whose bit 0 is 1 by [cos phase] and leaves the others as they are; the
    sine it computes reaches no amplitude (two phases with one cosine give
    one result, in particular [phase] and [- phase]); and the phase that
    [processInput] passes is [betaValue * PI]. *)
Theorem applyPhaseRotation_scales_by_cosine (ph : R) (q : QuantumLayer.t) :
  length (amplitudes (applyPhaseRotation 0 ph q)) = length (amplitudes q) /\
  (forall i a,
     amplitudes q !! i = Some a ->
     amplitudes (applyPhaseRotation 0 ph q) !! i =
       Some (if Nat.testbit i 0 then a * cos ph else a)) /\
  (forall ph', cos ph' = cos ph ->
     applyPhaseRotation 0 ph' q = applyPhaseRotation 0 ph q) /\
  applyPhaseRotation 0 (- ph) q = applyPhaseRotation 0 ph q /\
  (forall alphaValue betaValue rand,
     phase (superposed alphaValue betaValue q) = betaValue * PI /\
     processInput alphaValue betaValue rand q =
       measure rand
         (applyCNOT 0 1
            (applyPhaseRotation 0 (betaValue * PI)
               (superposed alphaValue betaValue q))) /\
     phase (fst (processInput alphaValue betaValue rand q)) = betaValue * PI).
Proof.
  split; [apply applyPhaseRotation_length|].
  split.
  { intros i a Hi. rewrite applyPhaseRotation_0_lookup, Hi. reflexivity. }
  split.
  { intros ph' Hc. apply applyPhaseRotation_cos_only. exact Hc. }
  split.
  { apply applyPhaseRotation_cos_only. apply cos_neg. }
  intros alphaValue betaValue rand.
  split; [apply superposed_phase|].
  split; [apply processInput_stages|].
  rewrite processInput_stages. unfold measure. cbn [fst].
  destruct (measure_loop _ _ _ _); cbn [collapse phase];
    unfold entangled; rewrite (proj1 (applyCNOT_frame _ _ _)),
      (proj1 (applyPhaseRotation_frame _ _ _)); apply superposed_phase.
Qed.

Lemma applyPhaseRotation_scales_by_cosine_witness :
  amplitudes QuantumLayer.new !! 1%nat = Some 0 /\
  amplitudes (applyPhaseRotation 0 PI QuantumLayer.new) !! 1%nat
    = Some (0 * cos PI).
Proof.
  split; [reflexivity|].
  destruct (applyPhaseRotation_scales_by_cosine PI QuantumLayer.new)
    as (_ & H & _).
  apply (H 1%nat 0 eq_refl).
Defined.

(** C3.  With [driveA = 0] and [driveB = 0] neither threshold is met, so no
    Hadamard gate is applied; the amplitudes are [[1,0,0,0]] after the
    reset, after the phase rotation and after the CNOT; for every draw in
    [[0,1)] the loop of [measure] stops at index 0; and the trigger
    returned has [kick], [snare], [hihat] and [clap] all false. *)
Theorem processInput_zero_drive (rand : R) (q : QuantumLayer.t) :
  0 <= rand < 1 ->
  superposed 0 0 q = prepared 0 q /\
  amplitudes (superposed 0 0 q) = [1; 0; 0; 0] /\
  amplitudes (applyPhaseRotation 0 (0 * PI) (superposed 0 0 q)) = [1; 0; 0; 0] /\
  amplitudes (entangled 0 0 q) = [1; 0; 0; 0] /\
  measure_loop rand (probabilities (entangled 0 0 q)) 0 0 = Some 0%nat /\
  lastMeasurement (fst (processInput 0 0 rand q)) = (0%nat, 0%nat) /\
  snd (processInput 0 0 rand q) =
    {| kick := false; snare := false; hihat := false; clap := false |}.
Proof.
  intros [H0 H1].
  assert (Hs : superposed 0 0 q = prepared 0 q).
  { unfold superposed.
    destruct (Rgt_dec 0 0.3) as [Hgt|_]; [lra|].
    destruct (Rgt_dec 0 0.6) as [Hgt|_]; [lra|]. reflexivity. }
  assert (Hp : amplitudes (applyPhaseRotation 0 (0 * PI) (superposed 0 0 q))
               = [1; 0; 0; 0]).
  { rewrite Hs.
    rewrite (applyPhaseRotation_0_amplitudes 1 0 0 0) by reflexivity.
    rewrite !Rmult_0_l. reflexivity. }
  assert (He : amplitudes (entangled 0 0 q) = [1; 0; 0; 0]).
  { unfold entangled. apply applyCNOT_0_1_amplitudes. exact Hp. }
  assert (Hpr : probabilities (entangled 0 0 q) = [1; 0; 0; 0]).
  { apply normalized_basis_state; [exact He|apply entangled_normalized]. }
  assert (Hloop : measure_loop rand (probabilities (entangled 0 0 q)) 0 0
                  = Some 0%nat).
  { rewrite Hpr. simpl. destruct (Rlt_dec rand (0 + 1)) as [_|Hn]; [reflexivity|lra]. }
  split; [exact Hs|]. split; [rewrite Hs; reflexivity|].
  split; [exact Hp|]. split; [exact He|]. split; [exact Hloop|].
  rewrite processInput_stages. unfold measure. rewrite Hloop.
  split; reflexivity.
Qed.

Lemma processInput_zero_drive_witness :
  0 <= 0.5 < 1 /\
  snd (processInput 0 0 0.5 QuantumLayer.new) = silent.
Proof.
  assert (Hr : 0 <= 0.5 < 1) by lra.
  split; [exact Hr|].
  apply (processInput_zero_drive 0.5 QuantumLayer.new Hr).
Defined.

(** C4.  In every run of [processInput] with a draw in [[0,1)] the loop of
    [measure] stops at some index [i] below 4; the state collapses to the
    one-hot vectors at [i]; the measurement is
    [((i >> 1) & 1, i & 1)]; and with
    [stateValue = measurement[0] * 2 + measurement[1]] the trigger has
    [kick] iff [stateValue] is 1 or 3, [snare] iff 2 or 3, [hihat] iff 1 or
    2, [clap] iff 3. *)
Theorem processInput_measurement_and_trigger
    (alphaValue betaValue rand : R) (q : QuantumLayer.t) :
  0 <= rand < 1 ->
  exists i,
    (i < 4)%nat /\
    measure_loop rand (probabilities (entangled alphaValue betaValue q)) 0 0
      = Some i /\
    let q' := fst (processInput alphaValue betaValue rand q) in
    let r := snd (processInput alphaValue betaValue rand q) in
    let m := lastMeasurement q' in
    let stateValue := (fst m * 2 + snd m)%nat in
    amplitudes q' = <[i := 1]> [0; 0; 0; 0] /\
    probabilities q' = <[i := 1]> [0; 0; 0; 0] /\
    m = (Nat.land (Nat.shiftr i 1) 1, Nat.land i 1) /\
    stateValue = i /\
    (kick r = true <-> stateValue = 1%nat \/ stateValue = 3%nat) /\
    (snare r = true <-> stateValue = 2%nat \/ stateValue = 3%nat) /\
    (hihat r = true <-> stateValue = 1%nat \/ stateValue = 2%nat) /\
    (clap r = true <-> stateValue = 3%nat).
Proof.
  intros Hr.
  destruct (processInput_collapses alphaValue betaValue rand q Hr)
    as (i & Hi & Hloop).
  exists i. split; [exact Hi|]. split; [exact Hloop|].
  rewrite processInput_stages. unfold measure. rewrite Hloop. cbn [fst snd].
  split; [reflexivity|]. split; [reflexivity|].
  apply (collapse_trigger i (entangled alphaValue betaValue q) Hi).
Qed.

Lemma processInput_measurement_and_trigger_witness :
  0 <= 0.5 < 1 /\
  exists i, (i < 4)%nat /\
    lastMeasurement (fst (processInput 1 0.5 0.5 QuantumLayer.new)) =
      (Nat.land (Nat.shiftr i 1) 1, Nat.land i 1).
Proof.
  assert (Hr : 0 <= 0.5 < 1) by lra.
  split; [exact Hr|].
  destruct (processInput_measurement_and_trigger 1 0.5 0.5 QuantumLayer.new Hr)
    as (i & Hi & _ & _ & _ & Hm & _).
  exists i. split; [exact Hi|exact Hm].
Defined.

(** C6.  For every [driveA > 0.6], [processInput] applies the Hadamard
    gate to qubit 0 and then to qubit 1, and right after these two gates,
    before the phase rotation and the CNOT, the four amplitudes are [1/2]
    and the four probabilities are exactly [0.25]. *)
Theorem processInput_uniform_after_both_hadamards
    (alphaValue betaValue : R) (q : QuantumLayer.t) :
  alphaValue > 0.6 ->
  superposed alphaValue betaValue q =
    applyHadamard 1 (applyHadamard 0 (prepared betaValue q)) /\
  amplitudes (superposed alphaValue betaValue q) = [1/2; 1/2; 1/2; 1/2] /\
  probabilities (superposed alphaValue betaValue q) = [0.25; 0.25; 0.25; 0.25] /\
  forall rand,
    processInput alphaValue betaValue rand q =
      measure rand
        (applyCNOT 0 1
           (applyPhaseRotation 0 (betaValue * PI)
              (superposed alphaValue betaValue q))).
Proof.
  intros Ha.
  assert (Hs : superposed alphaValue betaValue q =
               applyHadamard 1 (applyHadamard 0 (prepared betaValue q))).
  { unfold superposed.
    destruct (Rgt_dec alphaValue 0.3) as [_|Hn]; [|lra].
    destruct (Rgt_dec alphaValue 0.6) as [_|Hn]; [|lra]. reflexivity. }
  assert (Hamp : amplitudes (superposed alphaValue betaValue q)
                 = [1/2; 1/2; 1/2; 1/2]).
  { rewrite Hs.
    rewrite (applyHadamard_1_amplitudes _ _ _ _ _
               (applyHadamard_0_amplitudes 1 0 0 0 _
                  (prepared_amplitudes betaValue q))).
    pose proof sqrt2_pos as Hp.
    assert (E1 : ((1 + 0) / JsMath.SQRT2 + (0 + 0) / JsMath.SQRT2)
                   / JsMath.SQRT2 = 1 / 2).
    { rewrite <- (sqrt2_twice 1). field. lra. }
    assert (E2 : ((1 - 0) / JsMath.SQRT2 + (0 - 0) / JsMath.SQRT2)
                   / JsMath.SQRT2 = 1 / 2).
    { rewrite <- (sqrt2_twice 1). field. lra. }
    assert (E3 : ((1 + 0) / JsMath.SQRT2 - (0 + 0) / JsMath.SQRT2)
                   / JsMath.SQRT2 = 1 / 2).
    { rewrite <- (sqrt2_twice 1). field. lra. }
    assert (E4 : ((1 - 0) / JsMath.SQRT2 - (0 - 0) / JsMath.SQRT2)
                   / JsMath.SQRT2 = 1 / 2).
    { rewrite <- (sqrt2_twice 1). field. lra. }
    rewrite E1, E2, E3, E4. reflexivity. }
  split; [exact Hs|]. split; [exact Hamp|]. split.
  - assert (Hn : normalized (superposed alphaValue betaValue q))
      by (rewrite Hs; apply applyHadamard_normalized).
    destruct Hn as (_ & Hpos & _).
    assert (Hsum : sum_squares (superposed alphaValue betaValue q) = 1).
    { unfold sum_squares. rewrite Hamp. simpl. lra. }
    destruct Hpos as (Hp & _); [lra|].
    rewrite Hp, Hsum, Hamp. simpl. repeat f_equal; lra.
  - intros rand. apply processInput_stages.
Qed.

Lemma processInput_uniform_after_both_hadamards_witness :
  1 > 0.6 /\
  probabilities (superposed 1 0 QuantumLayer.new) = [0.25; 0.25; 0.25; 0.25].
Proof.
  assert (Ha : 1 > 0.6) by lra.
  split; [exact Ha|].
  apply (processInput_uniform_after_both_hadamards 1 0 QuantumLayer.new Ha).
Defined.

(** ** The genre blend *)

Section Blend.

Import AIMusicEngine.

Lemma blend_weights_simplex (x : R) :
  0 <= x <= 1 ->
  let wLow := Rmax 0 (1 - 2 * x) in
  let wHigh := Rmax 0 (2 * x - 1) in
  let wMid := 1 - wLow - wHigh in
  0 <= wLow /\ 0 <= wMid /\ 0 <= wHigh /\ wLow + wMid + wHigh = 1.
Proof.
  intros [H0 H1]. cbv zeta. unfold Rmax.
  destruct (Rle_dec 0 (1 - 2 * x)), (Rle_dec 0 (2 * x - 1));
    repeat split; lra.
Qed.

Lemma blend_fold (p : paramName) (a b c : R) :
  fold_left (blend_body p) [(trance, a); (dubstep, b); (dnb, c)] (0, 0) =
    (0 + genreParams trance p * a + genreParams dubstep p * b
       + genreParams dnb p * c,
     0 + a + b + c).
Proof. reflexivity. Qed.

End Blend.

(** C7.  For every influence [x] in [[0,1]] the blend written by
    [_updateGenreBlend] is [wLow = max(0, 1 - 2x)] on the first preset,
    [wMid = 1 - wLow - wHigh] on the second and [wHigh = max(0, 2x - 1)] on
    the third; the three weights are non-negative and add up to exactly 1;
    [x = 0], [x = 0.5] and [x = 1] give [(1,0,0)], [(0,1,0)] and [(0,0,1)];
    and [_blendGenreParams] returns the sum of the preset values times
    their weights, divided by the sum of the weights. *)
Theorem genre_blend_is_simplex_average (x : R) (e : AIMusicEngine.t) :
  0 <= x <= 1 ->
  let wLow := Rmax 0 (1 - 2 * x) in
  let wHigh := Rmax 0 (2 * x - 1) in
  let wMid := 1 - wLow - wHigh in
  AIMusicEngine.genreBlend (AIMusicEngine._updateGenreBlend x e) =
    [(AIMusicEngine.trance, wLow); (AIMusicEngine.dubstep, wMid);
     (AIMusicEngine.dnb, wHigh)] /\
  0 <= wLow /\ 0 <= wMid /\ 0 <= wHigh /\
  wLow + wMid + wHigh = 1 /\
  AIMusicEngine.genreBlend (AIMusicEngine._updateGenreBlend 0 e) =
    [(AIMusicEngine.trance, 1); (AIMusicEngine.dubstep, 0);
     (AIMusicEngine.dnb, 0)] /\
  AIMusicEngine.genreBlend (AIMusicEngine._updateGenreBlend 0.5 e) =
    [(AIMusicEngine.trance, 0); (AIMusicEngine.dubstep, 1);
     (AIMusicEngine.dnb, 0)] /\
  AIMusicEngine.genreBlend (AIMusicEngine._updateGenreBlend 1 e) =
    [(AIMusicEngine.trance, 0); (AIMusicEngine.dubstep, 0);
     (AIMusicEngine.dnb, 1)] /\
  forall p,
    AIMusicEngine.genreBlend (fst (AIMusicEngine._blendGenreParams p x e)) =
      [(AIMusicEngine.trance, wLow); (AIMusicEngine.dubstep, wMid);
       (AIMusicEngine.dnb, wHigh)] /\
    snd (AIMusicEngine._blendGenreParams p x e) =
      (AIMusicEngine.genreParams AIMusicEngine.trance p * wLow
       + AIMusicEngine.genreParams AIMusicEngine.dubstep p * wMid
       + AIMusicEngine.genreParams AIMusicEngine.dnb p * wHigh)
      / (wLow + wMid + wHigh).
Proof.
  intros Hx. cbv zeta.
  destruct (blend_weights_simplex x Hx) as (Hl & Hm & Hh & Hsum).
  cbv zeta in Hl, Hm, Hh, Hsum.
  split; [reflexivity|].
  split; [exact Hl|]. split; [exact Hm|]. split; [exact Hh|].
  split; [exact Hsum|].
  split; [|split; [|split]].
  - unfold AIMusicEngine._updateGenreBlend. cbn [AIMusicEngine.genreBlend].
    unfold Rmax.
    destruct (Rle_dec 0 (1 - 2 * 0)), (Rle_dec 0 (2 * 0 - 1));
      repeat (f_equal; try lra).
  - unfold AIMusicEngine._updateGenreBlend. cbn [AIMusicEngine.genreBlend].
    unfold Rmax.
    destruct (Rle_dec 0 (1 - 2 * 0.5)), (Rle_dec 0 (2 * 0.5 - 1));
      repeat (f_equal; try lra).
  - unfold AIMusicEngine._updateGenreBlend. cbn [AIMusicEngine.genreBlend].
    unfold Rmax.
    destruct (Rle_dec 0 (1 - 2 * 1)), (Rle_dec 0 (2 * 1 - 1));
      repeat (f_equal; try lra).
  - intros p. split; [reflexivity|].
    unfold AIMusicEngine._blendGenreParams, AIMusicEngine._updateGenreBlend.
    cbn [AIMusicEngine.genreBlend snd fst].
    rewrite blend_fold. cbn [fst snd].
    f_equal; [ring|f_equal; ring].
Qed.

Lemma genre_blend_is_simplex_average_witness :
  0 <= 0.25 <= 1 /\
  Rmax 0 (1 - 2 * 0.25)
    + (1 - Rmax 0 (1 - 2 * 0.25) - Rmax 0 (2 * 0.25 - 1))
    + Rmax 0 (2 * 0.25 - 1) = 1.
Proof.
  assert (Hx : 0 <= 0.25 <= 1) by lra.
  split; [exact Hx|].
  apply (genre_blend_is_simplex_average 0.25 AIMusicEngine.new Hx).
Defined.

(** ** The signal tracker at rest *)

Section Tracker.

Import InputSystem.

Lemma pow_zero_base (y : R) : JsMath.pow 0 y = 0.
Proof. unfold JsMath.pow. destruct (Rle_dec 0 0) as [_|Hn]; [reflexivity|lra]. Qed.

(** One tick of a tracker at rest. *)
Lemma update_quiet (s : InputSystem.t) :
  quiet s ->
  quiet (fst (update s)) /\
  alphaValue (fst (update s)) = alphaValue s * 0.8 /\
  keyActivityLevel (fst (update s)) = keyActivityLevel s * 0.95 /\
  betaValue (fst (update s)) =
    betaValue s * 0.7 + 0.1425 * keyActivityLevel s.
Proof.
  intros (Hx & Hy & Hk & Hd).
  unfold update, quiet.
  cbn [fst mouseX mouseY prevMouseX prevMouseY keysPressed keyActivityDecay
       alphaValue betaValue keyActivityLevel].
  rewrite Hx, Hy, Hk, Hd, size_empty.
  replace ((prevMouseX s - prevMouseX s) * (prevMouseX s - prevMouseX s)
           + (prevMouseY s - prevMouseY s) * (prevMouseY s - prevMouseY s))
    with 0 by ring.
  rewrite sqrt_0.
  replace (0 / 20) with 0 by lra.
  replace (INR 0 / 5) with 0 by (simpl; lra).
  assert (Hmin : Rmin 1.0 0 = 0) by (apply Rmin_right; lra).
  rewrite Hmin, pow_zero_base.
  repeat split; lra.
Qed.

Lemma ticks_succ (n : nat) (s : InputSystem.t) :
  ticks (S n) s = fst (update (ticks n s)).
Proof.
  revert s. induction n as [|n IH]; intros s.
  - reflexivity.
  - change (ticks (S (S n)) s) with (ticks (S n) (fst (update s))).
    rewrite IH. reflexivity.
Qed.

Lemma ticks_quiet (n : nat) (s : InputSystem.t) :
  quiet s -> quiet (ticks n s).
Proof.
  intros Hq. induction n as [|n IH].
  - exact Hq.
  - rewrite ticks_succ. apply update_quiet, IH.
Qed.

Lemma ticks_step (n : nat) (s : InputSystem.t) :
  quiet s ->
  alphaValue (ticks (S n) s) = alphaValue (ticks n s) * 0.8 /\
  keyActivityLevel (ticks (S n) s) = keyActivityLevel (ticks n s) * 0.95 /\
  betaValue (ticks (S n) s) =
    betaValue (ticks n s) * 0.7 + 0.1425 * keyActivityLevel (ticks n s).
Proof.
  intros Hq. rewrite ticks_succ.
  apply (update_quiet (ticks n s) (ticks_quiet n s Hq)).
Qed.

Lemma ticks_nonneg (n : nat) (s : InputSystem.t) :
  quiet s ->
  0 <= alphaValue s -> 0 <= betaValue s -> 0 <= keyActivityLevel s ->
  0 <= alphaValue (ticks n s) /\ 0 <= betaValue (ticks n s) /\
  0 <= keyActivityLevel (ticks n s).
Proof.
  intros Hq Ha Hb Hk. induction n as [|n (IHa & IHb & IHk)].
  - repeat split; assumption.
  - destruct (ticks_step n s Hq) as (Ea & Ek & Eb).
    rewrite Ea, Ek, Eb. repeat split; nra.
Qed.

(** Both drives are dominated by a geometric sequence of ratio [0.96]. *)
Lemma ticks_geometric (n : nat) (s : InputSystem.t) :
  quiet s ->
  0 <= alphaValue s -> 0 <= betaValue s -> 0 <= keyActivityLevel s ->
  alphaValue (ticks n s) <= alphaValue s * 0.96 ^ n /\
  betaValue (ticks n s) + 15 * keyActivityLevel (ticks n s)
    <= (betaValue s + 15 * keyActivityLevel s) * 0.96 ^ n.
Proof.
  intros Hq Ha Hb Hk. induction n as [|n (IHa & IHb)].
  - simpl. split; lra.
  - destruct (ticks_step n s Hq) as (Ea & Ek & Eb).
    destruct (ticks_nonneg n s Hq Ha Hb Hk) as (Na & Nb & Nk).
    rewrite Ea, Ek, Eb.
    assert (Hpow : 0 <= 0.96 ^ n) by (apply pow_le; lra).
    change (0.96 ^ S n) with (0.96 * 0.96 ^ n).
    split; nra.
Qed.

End Tracker.

(** C9, as the code has it.  From a tracker at rest with both drives and
    the key activity in [[0,1]], under ticks with no event: [alphaValue]
    never increases (each tick multiplies it by 0.8); neither drive becomes
    negative; both converge to 0; each tick gives
    [betaValue' = 0.7 * betaValue + 0.1425 * keyActivityLevel], so
    [betaValue] does not increase on a tick exactly when
    [0.1425 * keyActivityLevel <= 0.3 * betaValue], and on every tick when
    the key activity starts at 0. *)
Theorem quiet_ticks_decay (s : InputSystem.t) :
  quiet s ->
  0 <= InputSystem.alphaValue s <= 1 ->
  0 <= InputSystem.betaValue s <= 1 ->
  0 <= InputSystem.keyActivityLevel s <= 1 ->
  (forall n, InputSystem.alphaValue (InputSystem.ticks (S n) s)
             = 0.8 * InputSystem.alphaValue (InputSystem.ticks n s) /\
             InputSystem.alphaValue (InputSystem.ticks (S n) s)
             <= InputSystem.alphaValue (InputSystem.ticks n s)) /\
  (forall n, 0 <= InputSystem.alphaValue (InputSystem.ticks n s) /\
             0 <= InputSystem.betaValue (InputSystem.ticks n s)) /\
  (forall eps, 0 < eps ->
     exists N, forall n, (N <= n)%nat ->
       InputSystem.alphaValue (InputSystem.ticks n s) < eps /\
       InputSystem.betaValue (InputSystem.ticks n s) < eps) /\
  (forall n,
     InputSystem.betaValue (InputSystem.ticks (S n) s)
       = 0.7 * InputSystem.betaValue (InputSystem.ticks n s)
         + 0.1425 * InputSystem.keyActivityLevel (InputSystem.ticks n s) /\
     (InputSystem.betaValue (InputSystem.ticks (S n) s)
        <= InputSystem.betaValue (InputSystem.ticks n s)
      <-> 0.1425 * InputSystem.keyActivityLevel (InputSystem.ticks n s)
            <= 0.3 * InputSystem.betaValue (InputSystem.ticks n s))) /\
  (InputSystem.keyActivityLevel s = 0 ->
     forall n, InputSystem.betaValue (InputSystem.ticks (S n) s)
               <= InputSystem.betaValue (InputSystem.ticks n s)).
Proof.
  intros Hq [Ha0 Ha1] [Hb0 Hb1] [Hk0 Hk1].
  split; [|split; [|split; [|split]]].
  - intros n. destruct (ticks_step n s Hq) as (Ea & _ & _).
    destruct (ticks_nonneg n s Hq Ha0 Hb0 Hk0) as (Na & _ & _).
    rewrite Ea. split; lra.
  - intros n. destruct (ticks_nonneg n s Hq Ha0 Hb0 Hk0) as (Na & Nb & _).
    split; assumption.
  - intros eps Heps.
    assert (Hr : Rabs 0.96 < 1) by (rewrite Rabs_pos_eq; lra).
    assert (He : 0 < eps / 16) by lra.
    destruct (pow_lt_1_zero 0.96 Hr (eps / 16) He) as [N HN].
    exists N. intros n Hn.
    assert (Hp : 0.96 ^ n < eps / 16).
    { specialize (HN n Hn). rewrite Rabs_pos_eq in HN; [exact HN|].
      apply pow_le; lra. }
    assert (Hp0 : 0 <= 0.96 ^ n) by (apply pow_le; lra).
    destruct (ticks_geometric n s Hq Ha0 Hb0 Hk0) as (Ga & Gb).
    destruct (ticks_nonneg n s Hq Ha0 Hb0 Hk0) as (Na & Nb & Nk).
    split; nra.
  - intros n. destruct (ticks_step n s Hq) as (_ & _ & Eb).
    rewrite Eb. split; [lra|]. split; intros H; lra.
  - intros Hz n.
    assert (Hk : forall m, InputSystem.keyActivityLevel (InputSystem.ticks m s) = 0).
    { induction m as [|m IH]; [exact Hz|].
      destruct (ticks_step m s Hq) as (_ & Ek & _). rewrite Ek, IH. lra. }
    destruct (ticks_step n s Hq) as (_ & _ & Eb).
    destruct (ticks_nonneg n s Hq Ha0 Hb0 Hk0) as (_ & Nb & _).
    rewrite Eb, Hk. lra.
Qed.

Lemma quiet_ticks_decay_witness :
  quiet residual /\
  0 <= InputSystem.alphaValue residual <= 1 /\
  0 <= InputSystem.betaValue residual <= 1 /\
  0 <= InputSystem.keyActivityLevel residual <= 1 /\
  0 <= InputSystem.betaValue (InputSystem.ticks 3 residual).
Proof.
  assert (Hq : quiet residual) by (repeat split; reflexivity).
  assert (Ha : 0 <= InputSystem.alphaValue residual <= 1) by (simpl; lra).
  assert (Hb : 0 <= InputSystem.betaValue residual <= 1) by (simpl; lra).
  assert (Hk : 0 <= InputSystem.keyActivityLevel residual <= 1) by (simpl; lra).
  destruct (quiet_ticks_decay residual Hq Ha Hb Hk) as (_ & Hn & _).
  repeat split; try (simpl; lra); try reflexivity.
  apply (Hn 3%nat).
Defined.

(** The state [residual] is one the page produces: five presses of one
    key and its release, before the first tick. *)
Lemma residual_reached :
  InputSystem._handleKeyUp "a"
    (Nat.iter 5 (InputSystem._handleKeyDown "a") InputSystem.new) = residual.
Proof.
  unfold InputSystem._handleKeyUp.
  rewrite bool_decide_eq_true_2 by (cbn; set_solver).
  cbn. unfold residual. f_equal.
  rewrite (Rmin_right 1.0 (0 + 0.2)) by lra.
  rewrite (Rmin_right 1.0 (0 + 0.2 + 0.2)) by lra.
  rewrite (Rmin_right 1.0 (0 + 0.2 + 0.2 + 0.2)) by lra.
  rewrite (Rmin_right 1.0 (0 + 0.2 + 0.2 + 0.2 + 0.2)) by lra.
  rewrite (Rmin_right 1.0 (0 + 0.2 + 0.2 + 0.2 + 0.2 + 0.2)) by lra.
  lra.
Qed.

(** C9, as the specification has it, fails for [betaValue]: on the tracker
    at rest [residual], whose drives are both 0, one tick with no pointer
    movement and no key event raises [betaValue] from 0 to 0.1425. *)
Lemma residual_key_activity_raises_beta :
  quiet residual /\
  InputSystem.alphaValue residual = 0 /\
  InputSystem.betaValue residual = 0 /\
  InputSystem.betaValue (InputSystem.ticks 1 residual) = 0.1425 /\
  ~ (InputSystem.betaValue (InputSystem.ticks 1 residual)
     <= InputSystem.betaValue (InputSystem.ticks 0 residual)).
Proof.
  assert (Hq : quiet residual) by (repeat split; reflexivity).
  destruct (update_quiet residual Hq) as (_ & _ & _ & Eb).
  change (InputSystem.ticks 1 residual) with (fst (InputSystem.update residual)).
  change (InputSystem.ticks 0 residual) with residual.
  rewrite Eb. cbn [residual InputSystem.betaValue InputSystem.keyActivityLevel
                   InputSystem.alphaValue].
  repeat split; try reflexivity; lra.
Qed.

(** ** The trigger scheduler *)

Section Scheduler.

Import App.

Lemma gtb_true (a b : R) : JsMath.gtb a b = true <-> a > b.
Proof.
  unfold JsMath.gtb. destruct (Rgt_dec a b); split; intros H;
    try reflexivity; try assumption; try discriminate; contradiction.
Qed.

Lemma adjustedInterval_endpoints :
  adjustedInterval 1 = minInterval /\ adjustedInterval 0 = baseInterval.
Proof. unfold adjustedInterval, minInterval, baseInterval. split; lra. Qed.

End Scheduler.

(** C8.  On a tick of the running application with the threshold 0.05,
    [_update] always forwards the music update and one visualizer update
    with the flag [false]; it calls [processInput], plays the returned
    pattern and forwards a second visualizer update with the flag [true]
    exactly when a drive moved by more than 0.05 from the stored values and
    the time since the last trigger is at least
    [adjustedInterval = 1000 - alpha * (1000 - 300)]; otherwise the quantum
    layer and the trigger time are left as they were.  The interval is
    [minInterval = 300] at [alpha = 1] and [baseInterval = 1000] at
    [alpha = 0]. *)
Theorem update_tick_fires_when_changed_and_due (now rand : R) (app : App.t) :
  App.isRunning app = true ->
  App.inputChangeThreshold app = 0.05 ->
  let inputData := snd (InputSystem.update (App.inputSystem app)) in
  let alphaValue := InputSystem.alpha inputData in
  let betaValue := InputSystem.beta inputData in
  let quantumState := getStateForVisualization (App.quantumLayer app) in
  let changed :=
    Rabs (alphaValue - App.alpha (App.lastInputValues app)) > 0.05 \/
    Rabs (betaValue - App.beta (App.lastInputValues app)) > 0.05 in
  let due :=
    now - App.lastRhythmTriggerTime app >= App.adjustedInterval alphaValue in
  let fired := processInput alphaValue betaValue rand (App.quantumLayer app) in
  let app' := fst (App._update now rand app) in
  let effects := snd (App._update now rand app) in
  In (App.visualizerUpdate quantumState alphaValue betaValue false) effects /\
  (changed /\ due ->
     effects =
       [App.updateMusic alphaValue betaValue;
        App.visualizerUpdate quantumState alphaValue betaValue false;
        App.playRhythmPattern (snd fired);
        App.visualizerUpdate quantumState alphaValue betaValue true] /\
     App.quantumLayer app' = fst fired /\
     App.lastRhythmTriggerTime app' = now) /\
  (~ (changed /\ due) ->
     effects =
       [App.updateMusic alphaValue betaValue;
        App.visualizerUpdate quantumState alphaValue betaValue false] /\
     App.quantumLayer app' = App.quantumLayer app /\
     App.lastRhythmTriggerTime app' = App.lastRhythmTriggerTime app) /\
  App.adjustedInterval alphaValue = 1000 - alphaValue * (1000 - 300) /\
  App.adjustedInterval 1 = App.minInterval /\
  App.adjustedInterval 0 = App.baseInterval /\
  App.minInterval = 300 /\ App.baseInterval = 1000.
Proof.
  intros Hrun Hthr. cbv zeta.
  unfold App._update. rewrite Hrun, Hthr. cbn [negb].
  destruct (InputSystem.update (App.inputSystem app)) as [input' inputData].
  cbn [snd].
  set (alphaValue := InputSystem.alpha inputData).
  set (betaValue := InputSystem.beta inputData).
  set (da := Rabs (alphaValue - App.alpha (App.lastInputValues app))).
  set (db := Rabs (betaValue - App.beta (App.lastInputValues app))).
  destruct (processInput alphaValue betaValue rand (App.quantumLayer app))
    as [layer' rhythmPattern].
  unfold JsMath.gtb.
  destruct (Rgt_dec da 0.05) as [Ha|Ha], (Rgt_dec db 0.05) as [Hb|Hb];
    cbn [orb];
    destruct (Rge_dec (now - App.lastRhythmTriggerTime app)
                      (App.adjustedInterval alphaValue)) as [Hd|Hd];
    cbn [fst snd App.quantumLayer App.lastRhythmTriggerTime];
    (split; [simpl; tauto|]);
    (split; [intros [Hc Hdue]; try contradiction; try (destruct Hc; contradiction);
             repeat split; reflexivity|]);
    (split; [intros Hno; try (exfalso; apply Hno; tauto);
             repeat split; reflexivity|]);
    (split; [reflexivity|]);
    (split; [apply adjustedInterval_endpoints|]);
    (split; [apply adjustedInterval_endpoints|]);
    split; reflexivity.
Qed.

Lemma update_tick_fires_when_changed_and_due_witness :
  App.isRunning started = true /\
  App.inputChangeThreshold started = 0.05 /\
  App.adjustedInterval 1 = App.minInterval /\
  App.adjustedInterval 0 = App.baseInterval.
Proof.
  split; [reflexivity|]. split; [reflexivity|].
  destruct (update_tick_fires_when_changed_and_due 0 0.5 started
              eq_refl eq_refl)
    as (_ & _ & _ & _ & H1 & H0 & _).
  split; [exact H1|exact H0].
Defined.

(** * Further properties of the code *)

(** ** Algebra of the gates *)

Section GateAlgebra.

Lemma four_entries (l : list R) :
  length l = 4%nat -> exists a b c d, l = [a; b; c; d].
Proof.
  destruct l as [|a [|b [|c [|d [|e l]]]]]; try discriminate.
  intros _. exists a, b, c, d. reflexivity.
Qed.

Lemma sqrt2_square : JsMath.SQRT2 * JsMath.SQRT2 = 2.
Proof. unfold JsMath.SQRT2. apply sqrt_sqrt. lra. Qed.



(** Two states with the same amplitudes, phase and measurement differ at
    most in their probabilities, which [_updateProbabilities] rewrites. *)
Lemma updateProbabilities_ext (q1 q2 : QuantumLayer.t) :
  amplitudes q1 = amplitudes q2 ->
  phase q1 = phase q2 ->
  lastMeasurement q1 = lastMeasurement q2 ->
  _updateProbabilities q1 = _updateProbabilities q2.
Proof.
  intros Ha Hp Hl. unfold _updateProbabilities. rewrite Ha, Hp, Hl. reflexivity.
Qed.

End GateAlgebra.



(** X2.  On four amplitudes [applyCNOT(0, 1)] exchanges the amplitudes of
    the indices 1 and 3 and keeps the other two, so a second application
    restores the amplitudes. *)
Theorem applyCNOT_0_1_twice (q : QuantumLayer.t) :
  length (amplitudes q) = 4%nat ->
  (forall a b c d, amplitudes q = [a; b; c; d] ->
     amplitudes (applyCNOT 0 1 q) = [a; d; c; b]) /\
  amplitudes (applyCNOT 0 1 (applyCNOT 0 1 q)) = amplitudes q /\
  applyCNOT 0 1 (applyCNOT 0 1 q) = _updateProbabilities q.
Proof.
  intros Hlen.
  destruct (four_entries _ Hlen) as (a & b & c & d & Hamp).
  assert (Ha : amplitudes (applyCNOT 0 1 (applyCNOT 0 1 q)) = amplitudes q).
  { rewrite (applyCNOT_0_1_amplitudes _ _ _ _ _
               (applyCNOT_0_1_amplitudes a b c d q Hamp)).
    symmetry. exact Hamp. }
  split; [intros; apply applyCNOT_0_1_amplitudes; assumption|].
  split; [exact Ha|].
  unfold applyCNOT at 1.
  apply updateProbabilities_ext; cbn [set_amplitudes amplitudes phase lastMeasurement].
  - unfold applyCNOT at 1 in Ha.
    rewrite updateProbabilities_amplitudes in Ha.
    cbn [set_amplitudes amplitudes] in Ha. exact Ha.
  - reflexivity.
  - reflexivity.
Qed.

Lemma applyCNOT_0_1_twice_witness :
  length (amplitudes QuantumLayer.new) = 4%nat /\
  amplitudes (applyCNOT 0 1 (applyCNOT 0 1 QuantumLayer.new)) = [1; 0; 0; 0].
Proof.
  split; [reflexivity|].
  apply (applyCNOT_0_1_twice QuantumLayer.new eq_refl).
Defined.



(** ** The sampling done by [measure] *)

Section Sampling.

Lemma prefix_sum_cons (k : nat) (p : R) (rest : list R) :
  prefix_sum (S k) (p :: rest) = p + prefix_sum k rest.
Proof. unfold prefix_sum. cbn [take]. apply sum_cons. Qed.

Lemma prefix_sum_nonneg (k : nat) (probs : list R) :
  Forall (fun p => 0 <= p) probs -> 0 <= prefix_sum k probs.
Proof.
  intros Hnn. revert k. induction Hnn as [|p rest Hp _ IH]; intros k.
  - unfold prefix_sum. rewrite take_nil. simpl. lra.
  - destruct k as [|k].
    + unfold prefix_sum. simpl. lra.
    + rewrite prefix_sum_cons. specialize (IH k). lra.
Qed.

Lemma measure_loop_interval (rand : R) (probs : list R) :
  Forall (fun p => 0 <= p) probs ->
  forall (k j : nat) (c : R),
    c <= rand ->
    (measure_loop rand probs k c = Some j <->
     exists i, j = (k + i)%nat /\ (i < length probs)%nat /\
               c + prefix_sum i probs <= rand < c + prefix_sum (S i) probs).
Proof.
  induction 1 as [|p rest Hp Hrest IH]; intros k j c Hc.
  - simpl. split; [discriminate|]. intros (i & _ & Hi & _). simpl in Hi. lia.
  - cbn [measure_loop]. destruct (Rlt_dec rand (c + p)) as [Hlt|Hge].
    + split.
      * intros H. injection H as <-. exists 0%nat.
        split; [lia|]. split; [simpl; lia|].
        rewrite prefix_sum_cons. unfold prefix_sum. simpl. lra.
      * intros (i & -> & _ & Hlo & _). destruct i as [|i].
        -- f_equal. lia.
        -- rewrite prefix_sum_cons in Hlo.
           pose proof (prefix_sum_nonneg i rest Hrest). lra.
    + rewrite IH by lra. split.
      * intros (i & -> & Hi & Hlo & Hhi). exists (S i).
        split; [lia|]. split; [simpl; lia|].
        rewrite !prefix_sum_cons. lra.
      * intros (i & -> & Hi & Hlo & Hhi). destruct i as [|i].
        -- rewrite prefix_sum_cons in Hhi. unfold prefix_sum in Hhi.
           simpl in Hhi. lra.
        -- exists i. split; [lia|]. split; [simpl in Hi; lia|].
           rewrite !prefix_sum_cons in *. lra.
Qed.

Lemma measure_loop_positive (rand : R) (probs : list R) :
  forall (k j : nat) (c : R),
    c <= rand ->
    measure_loop rand probs k c = Some j ->
    exists p, probs !! (j - k)%nat = Some p /\ 0 < p.
Proof.
  induction probs as [|p rest IH]; intros k j c Hc; simpl.
  - discriminate.
  - destruct (Rlt_dec rand (c + p)) as [Hlt|Hge].
    + intros H. injection H as <-. exists p.
      rewrite Nat.sub_diag. split; [reflexivity|lra].
    + intros H. pose proof (measure_loop_bound _ _ _ _ _ H) as Hb.
      destruct (IH (S k) j (c + p)) as (p' & Hp' & Hpos); [lra|exact H|].
      exists p'. split; [|exact Hpos].
      replace (j - k)%nat with (S (j - S k)) by lia. exact Hp'.
Qed.

Lemma measure_loop_onehot (rand : R) (i : nat) :
  (i < 4)%nat -> 0 <= rand < 1 ->
  measure_loop rand (<[i := 1]> [0; 0; 0; 0]) 0 0 = Some i.
Proof.
  intros Hi [H0 H1].
  assert (Hcases : i = 0%nat \/ i = 1%nat \/ i = 2%nat \/ i = 3%nat) by lia.
  destruct Hcases as [-> | [-> | [-> | ->]]]; simpl;
    repeat (destruct (Rlt_dec _ _); try lra); reflexivity.
Qed.

End Sampling.

(** X4.  With non-negative probabilities and a draw [rand >= 0], the loop
    of [measure] breaks at the index [i] exactly when [rand] lies between
    the sum of the entries before [i] and that sum plus entry [i]: the
    index is drawn by inverting the cumulative distribution, an entry
    claims an interval as long as its probability. *)
Theorem measure_loop_inverts_cumulative (rand : R) (probs : list R) (i : nat) :
  Forall (fun p => 0 <= p) probs ->
  0 <= rand ->
  (measure_loop rand probs 0 0 = Some i <->
   (i < length probs)%nat /\
   prefix_sum i probs <= rand < prefix_sum (S i) probs).
Proof.
  intros Hnn Hr.
  rewrite (measure_loop_interval rand probs Hnn 0 i 0 Hr).
  split.
  - intros (i' & -> & Hi & Hlo & Hhi). simpl. split; [exact Hi|lra].
  - intros (Hi & Hlo & Hhi). exists i. split; [reflexivity|].
    split; [exact Hi|lra].
Qed.

Lemma measure_loop_inverts_cumulative_witness :
  Forall (fun p => 0 <= p) [0.25; 0.25; 0.25; 0.25] /\
  0 <= 0.6 /\
  measure_loop 0.6 [0.25; 0.25; 0.25; 0.25] 0 0 = Some 2%nat.
Proof.
  assert (Hnn : Forall (fun p => 0 <= p) [0.25; 0.25; 0.25; 0.25])
    by (repeat constructor; lra).
  assert (Hr : 0 <= 0.6) by lra.
  split; [exact Hnn|]. split; [exact Hr|].
  apply (measure_loop_inverts_cumulative 0.6 _ 2 Hnn Hr).
  split; [simpl; lia|]. unfold prefix_sum. simpl. lra.
Defined.

(** X5.  For a draw [rand >= 0], whatever the entries of the probability
    vector, the index at which the loop of [measure] breaks holds a
    positive probability: an index of probability zero is never the
    outcome. *)
Theorem measure_never_picks_zero_probability (rand : R) (q : QuantumLayer.t) (i : nat) :
  0 <= rand ->
  measure_loop rand (probabilities q) 0 0 = Some i ->
  exists p, probabilities q !! i = Some p /\ 0 < p.
Proof.
  intros Hr Hloop.
  destruct (measure_loop_positive rand (probabilities q) 0 i 0 Hr Hloop)
    as (p & Hp & Hpos).
  rewrite Nat.sub_0_r in Hp. exists p. split; assumption.
Qed.

Lemma measure_never_picks_zero_probability_witness :
  0 <= 0.5 /\
  measure_loop 0.5 (probabilities QuantumLayer.new) 0 0 = Some 0%nat /\
  exists p, probabilities QuantumLayer.new !! 0%nat = Some p /\ 0 < p.
Proof.
  assert (Hr : 0 <= 0.5) by lra.
  assert (Hl : measure_loop 0.5 (probabilities QuantumLayer.new) 0 0 = Some 0%nat).
  { simpl. destruct (Rlt_dec 0.5 (0 + 1)) as [_|Hn]; [reflexivity|lra]. }
  split; [exact Hr|]. split; [exact Hl|].
  apply (measure_never_picks_zero_probability 0.5 QuantumLayer.new 0 Hr Hl).
Defined.

(** X6.  Measuring again changes nothing: when [measure] has collapsed a
    four-entry state, a second [measure] with any draw in [[0,1)] returns
    the same object and the same trigger. *)
Theorem measure_again_is_stable (r1 r2 : R) (q : QuantumLayer.t) (i : nat) :
  length (probabilities q) = 4%nat ->
  0 <= r2 < 1 ->
  measure_loop r1 (probabilities q) 0 0 = Some i ->
  collapsed_at i (fst (measure r1 q)) /\
  measure r2 (fst (measure r1 q)) = measure r1 q.
Proof.
  intros Hlen Hr2 Hloop.
  assert (Hi : (i < 4)%nat).
  { apply measure_loop_bound in Hloop. lia. }
  assert (Hm : measure r1 q
               = (collapse i q, _mapMeasurementToRhythm (collapse i q)))
    by (unfold measure; rewrite Hloop; reflexivity).
  rewrite Hm. cbn [fst].
  split.
  - unfold collapsed_at. repeat split; try reflexivity. exact Hi.
  - unfold measure. cbn [collapse probabilities].
    rewrite (measure_loop_onehot r2 i Hi Hr2). reflexivity.
Qed.

Lemma measure_again_is_stable_witness :
  length (probabilities QuantumLayer.new) = 4%nat /\
  0 <= 0.9 < 1 /\
  measure 0.9 (fst (measure 0.5 QuantumLayer.new)) = measure 0.5 QuantumLayer.new.
Proof.
  assert (Hr : 0 <= 0.9 < 1) by lra.
  assert (Hl : measure_loop 0.5 (probabilities QuantumLayer.new) 0 0 = Some 0%nat).
  { simpl. destruct (Rlt_dec 0.5 (0 + 1)) as [_|Hn]; [reflexivity|lra]. }
  split; [reflexivity|]. split; [exact Hr|].
  apply (measure_again_is_stable 0.5 0.9 QuantumLayer.new 0 eq_refl Hr Hl).
Defined.

(** ** [processInput] by regime of the first drive *)

(** Proves an equation between two lists of the same length entry by
    entry, each entry with [tac]. *)
Ltac entrywise tac :=
  repeat (apply (f_equal2 (@cons R)); [tac|]); try reflexivity.

Section Regimes.






(** The probabilities of a normalized four-entry state, written out. *)
Lemma normalized_four (a b c d : R) (q : QuantumLayer.t) :
  amplitudes q = [a; b; c; d] -> normalized q ->
  0 < a * a + b * b + c * c + d * d ->
  probabilities q =
    [a * a / (a * a + b * b + c * c + d * d);
     b * b / (a * a + b * b + c * c + d * d);
     c * c / (a * a + b * b + c * c + d * d);
     d * d / (a * a + b * b + c * c + d * d)].
Proof.
  intros Ha (_ & Hpos & _) Hs.
  assert (E : sum_squares q = a * a + b * b + c * c + d * d).
  { unfold sum_squares. rewrite Ha. simpl. lra. }
  destruct Hpos as (Hp & _); [lra|].
  rewrite Hp, E, Ha. simpl. repeat f_equal; lra.
Qed.

Lemma superposed_low (alphaValue betaValue : R) (q : QuantumLayer.t) :
  alphaValue <= 0.3 ->
  superposed alphaValue betaValue q = prepared betaValue q.
Proof.
  intros Ha. unfold superposed.
  destruct (Rgt_dec alphaValue 0.3) as [Hgt|_]; [lra|].
  destruct (Rgt_dec alphaValue 0.6) as [Hgt|_]; [lra|]. reflexivity.
Qed.

Lemma entangled_low_amplitudes (alphaValue betaValue : R) (q : QuantumLayer.t) :
  alphaValue <= 0.3 ->
  amplitudes (entangled alphaValue betaValue q) = [1; 0; 0; 0].
Proof.
  intros Ha. unfold entangled. rewrite (superposed_low _ _ _ Ha).
  apply applyCNOT_0_1_amplitudes.
  rewrite (applyPhaseRotation_0_amplitudes 1 0 0 0) by reflexivity.
  rewrite !Rmult_0_l. reflexivity.
Qed.


Lemma superposed_high_amplitudes (alphaValue betaValue : R) (q : QuantumLayer.t) :
  0.6 < alphaValue ->
  amplitudes (superposed alphaValue betaValue q) = [1/2; 1/2; 1/2; 1/2].
Proof.
  intros Hhi. unfold superposed.
  destruct (Rgt_dec alphaValue 0.3) as [_|Hn]; [|lra].
  destruct (Rgt_dec alphaValue 0.6) as [_|Hn]; [|lra].
  rewrite (applyHadamard_1_amplitudes _ _ _ _ _
             (applyHadamard_0_amplitudes 1 0 0 0 _
                (prepared_amplitudes betaValue q))).
  pose proof sqrt2_pos as Hp.
  assert (E : forall x y, (x / JsMath.SQRT2 + y / JsMath.SQRT2) / JsMath.SQRT2
                          = (x + y) / 2).
  { intros x y. rewrite <- sqrt2_square. field. lra. }
  assert (E' : forall x y, (x / JsMath.SQRT2 - y / JsMath.SQRT2) / JsMath.SQRT2
                           = (x - y) / 2).
  { intros x y. rewrite <- sqrt2_square. field. lra. }
  rewrite !E, !E'. repeat f_equal; lra.
Qed.

Lemma entangled_high_amplitudes (alphaValue betaValue : R) (q : QuantumLayer.t) :
  0.6 < alphaValue ->
  amplitudes (entangled alphaValue betaValue q) =
    [1/2; 1/2 * cos (betaValue * PI); 1/2; 1/2 * cos (betaValue * PI)].
Proof.
  intros Hhi. unfold entangled.
  apply applyCNOT_0_1_amplitudes, applyPhaseRotation_0_amplitudes,
    superposed_high_amplitudes, Hhi.
Qed.

End Regimes.



(** X8.  For every first drive [alphaValue <= 0.3], every second drive and
    every draw in [[0,1)], [processInput] ends in the basis state 0 and
    returns the trigger with no drum: at low drive the simulator is
    deterministic and silent. *)
Theorem processInput_low_drive_is_silent
    (alphaValue betaValue rand : R) (q : QuantumLayer.t) :
  alphaValue <= 0.3 ->
  0 <= rand < 1 ->
  processInput alphaValue betaValue rand q =
    ({| amplitudes := [1; 0; 0; 0];
        probabilities := [1; 0; 0; 0];
        phase := betaValue * PI;
        lastMeasurement := (0%nat, 0%nat) |},
     silent).
Proof.
  intros Ha [H0 H1].
  pose proof (entangled_low_amplitudes alphaValue betaValue q Ha) as He.
  assert (Hpr : probabilities (entangled alphaValue betaValue q) = [1; 0; 0; 0])
    by (apply normalized_basis_state; [exact He|apply entangled_normalized]).
  assert (Hph : phase (entangled alphaValue betaValue q) = betaValue * PI).
  { unfold entangled.
    rewrite (proj1 (applyCNOT_frame _ _ _)),
      (proj1 (applyPhaseRotation_frame _ _ _)).
    apply superposed_phase. }
  rewrite processInput_stages. unfold measure. rewrite Hpr. simpl.
  destruct (Rlt_dec rand (0 + 1)) as [_|Hn]; [|lra].
  unfold collapse. rewrite Hph. reflexivity.
Qed.

Lemma processInput_low_drive_is_silent_witness :
  0.3 <= 0.3 /\ 0 <= 0.99 < 1 /\
  snd (processInput 0.3 0.8 0.99 QuantumLayer.new) = silent.
Proof.
  assert (Ha : 0.3 <= 0.3) by lra.
  assert (Hr : 0 <= 0.99 < 1) by lra.
  split; [exact Ha|]. split; [exact Hr|].
  rewrite (processInput_low_drive_is_silent 0.3 0.8 0.99 QuantumLayer.new Ha Hr).
  reflexivity.
Defined.



(** X10.  For [alphaValue > 0.6] both Hadamard gates run.  With
    [c = cos (betaValue * PI)] the probabilities at the call of [measure]
    are [1/(2(1+c^2))] at the indices 0 and 2 and [c^2/(2(1+c^2))] at the
    indices 1 and 3: the even indices are never less likely than the odd
    ones, each even index has probability at least 1/4 and each odd one at
    most 1/4. *)
Theorem processInput_high_drive_probabilities
    (alphaValue betaValue : R) (q : QuantumLayer.t) :
  0.6 < alphaValue ->
  let c := cos (betaValue * PI) in
  let even := 1 / (2 * (1 + c * c)) in
  let odd := c * c / (2 * (1 + c * c)) in
  probabilities (entangled alphaValue betaValue q) = [even; odd; even; odd] /\
  odd <= 1 / 4 <= even /\ 0 <= odd.
Proof.
  intros Ha c even odd.
  pose proof (entangled_high_amplitudes alphaValue betaValue q Ha) as He.
  fold c in He.
  pose proof (COS_bound (betaValue * PI)) as [Hc1 Hc2]. fold c in Hc1, Hc2.
  assert (Hc : 0 <= c * c <= 1) by nra.
  split.
  - rewrite (normalized_four _ _ _ _ _ He (entangled_normalized _ _ _)) by nra.
    unfold even, odd. entrywise ltac:(field; lra).
  - unfold even, odd.
    assert (Hd : 0 < 2 * (1 + c * c)) by lra.
    split; [split|].
    + apply Rmult_le_reg_r with (2 * (1 + c * c)); [exact Hd|].
      unfold Rdiv. rewrite Rmult_assoc, Rinv_l by lra. lra.
    + apply Rmult_le_reg_r with (2 * (1 + c * c)); [exact Hd|].
      unfold Rdiv at 2. rewrite Rmult_assoc, Rinv_l by lra. lra.
    + apply Rmult_le_reg_r with (2 * (1 + c * c)); [exact Hd|].
      unfold Rdiv. rewrite Rmult_assoc, Rinv_l by lra. lra.
Qed.

Lemma processInput_high_drive_probabilities_witness :
  0.6 < 1 /\
  0 <= cos (0.25 * PI) * cos (0.25 * PI)
       / (2 * (1 + cos (0.25 * PI) * cos (0.25 * PI))).
Proof.
  assert (Ha : 0.6 < 1) by lra.
  split; [exact Ha|].
  apply (processInput_high_drive_probabilities 1 0.25 QuantumLayer.new Ha).
Defined.

(** X11.  For measurement bits [(m0, m1)] the trigger is a code of the two
    bits: kick is [m1], snare is [m0], hihat is their exclusive or and clap
    their conjunction; so the bits can be read back from kick and snare,
    and the four measurements give four different triggers. *)
Theorem trigger_encodes_measurement (q : QuantumLayer.t) (m0 m1 : nat) :
  lastMeasurement q = (m0, m1) ->
  (m0 < 2)%nat -> (m1 < 2)%nat ->
  let r := _mapMeasurementToRhythm q in
  kick r = Nat.eqb m1 1 /\
  snare r = Nat.eqb m0 1 /\
  hihat r = xorb (Nat.eqb m0 1) (Nat.eqb m1 1) /\
  clap r = Nat.eqb m0 1 && Nat.eqb m1 1 /\
  lastMeasurement q =
    ((if snare r then 1 else 0)%nat, (if kick r then 1 else 0)%nat).
Proof.
  intros Hl H0 H1. unfold _mapMeasurementToRhythm. rewrite Hl. cbn [fst snd].
  assert (C0 : m0 = 0%nat \/ m0 = 1%nat) by lia.
  assert (C1 : m1 = 0%nat \/ m1 = 1%nat) by lia.
  destruct C0 as [-> | ->], C1 as [-> | ->]; cbn; repeat split; reflexivity.
Qed.

Lemma trigger_encodes_measurement_witness :
  lastMeasurement (collapse 2 QuantumLayer.new) = (1%nat, 0%nat) /\
  (1 < 2)%nat /\ (0 < 2)%nat /\
  snare (_mapMeasurementToRhythm (collapse 2 QuantumLayer.new)) = true.
Proof.
  assert (H1 : (1 < 2)%nat) by lia.
  assert (H0 : (0 < 2)%nat) by lia.
  split; [reflexivity|]. split; [exact H1|]. split; [exact H0|].
  destruct (trigger_encodes_measurement (collapse 2 QuantumLayer.new) 1 0
              eq_refl H1 H0) as (_ & Hs & _).
  exact Hs.
Defined.

(** ** The signal tracker under arbitrary input *)

Section TrackerRange.

Import InputSystem.

Lemma pow_unit_interval (x y : R) :
  0 <= x <= 1 -> 0 <= y -> 0 <= JsMath.pow x y <= 1.
Proof.
  intros [Hx0 Hx1] Hy. unfold JsMath.pow.
  destruct (Rle_dec x 0) as [_|Hpos]; [lra|].
  assert (Hx : 0 < x) by lra.
  split.
  - left. unfold Rpower. apply exp_pos.
  - assert (H1 : Rpower 1 y = 1).
    { unfold Rpower. rewrite ln_1, Rmult_0_r. apply exp_0. }
    rewrite <- H1. apply Rle_Rpower_l; [exact Hy|lra].
Qed.

Lemma pow_one (y : R) : JsMath.pow 1 y = 1.
Proof.
  unfold JsMath.pow. destruct (Rle_dec 1 0) as [Hle|_]; [lra|].
  unfold Rpower. rewrite ln_1, Rmult_0_r. apply exp_0.
Qed.

Lemma normalized_velocity_range (v : R) :
  0 <= v -> 0 <= Rmin 1.0 (v / 20) <= 1.
Proof.
  intros Hv. unfold Rmin. destruct (Rle_dec 1.0 (v / 20)); lra.
Qed.

Lemma complexity_range (n : nat) :
  0 <= Rmin 1.0 (INR n / 5) * 0.5 <= 0.5.
Proof.
  pose proof (pos_INR n) as Hn.
  unfold Rmin. destruct (Rle_dec 1.0 (INR n / 5)); lra.
Qed.

(** One tick, whatever the pointer and the keys did. *)
Lemma update_bounds (s : InputSystem.t) :
  in_range s ->
  alphaValue s * 0.8 <= alphaValue (fst (update s)) <= alphaValue s * 0.8 + 0.2 /\
  betaValue s * 0.7 <= betaValue (fst (update s)) <= betaValue s * 0.7 + 0.2925 /\
  keyActivityLevel (fst (update s)) = keyActivityLevel s * 0.95 /\
  keyActivityDecay (fst (update s)) = 0.95.
Proof.
  intros (Ha & Hb & Hk & Hd).
  unfold update.
  cbn [fst alphaValue betaValue keyActivityLevel keyActivityDecay].
  rewrite Hd.
  set (v := sqrt _).
  assert (Hv : 0 <= v) by apply sqrt_pos.
  pose proof (pow_unit_interval _ 1.5 (normalized_velocity_range v Hv)) as Hf.
  pose proof (complexity_range (size (keysPressed s))) as Hc.
  repeat split; try lra.
Qed.

Lemma update_in_range (s : InputSystem.t) :
  in_range s -> in_range (fst (update s)).
Proof.
  intros Hr. destruct (update_bounds s Hr) as (Ha & Hb & Hk & Hd).
  destruct Hr as (Ha0 & Hb0 & Hk0 & _).
  unfold in_range. rewrite Hk. repeat split; lra.
Qed.

Lemma dispatch_in_range (s : InputSystem.t) (e : PageEvent) :
  in_range s -> in_range (dispatch s e).
Proof.
  intros Hr. destruct e as [x y|key|key|]; cbn [dispatch].
  - exact Hr.
  - unfold _handleKeyDown. destruct (Nat.eqb _ 1); [|exact Hr].
    destruct Hr as (Ha & Hb & Hk & Hd). unfold in_range.
    cbn [alphaValue betaValue keyActivityLevel keyActivityDecay].
    repeat split; try lra; try exact Hd;
      unfold Rmin; destruct (Rle_dec 1.0 (keyActivityLevel s + 0.2)); lra.
  - unfold _handleKeyUp. destruct (bool_decide _); exact Hr.
  - apply update_in_range, Hr.
Qed.

End TrackerRange.

(** X12.  Whatever sequence of pointer moves, key presses, key releases
    and frames reaches a fresh tracker, both drives and the key activity
    stay in [[0,1]]; and a tracker in that range stays in it under any
    further sequence. *)
Theorem tracker_stays_in_range (events : list PageEvent) (s : InputSystem.t) :
  in_range (replay events InputSystem.new) /\
  (in_range s -> in_range (replay events s)).
Proof.
  assert (Hgen : forall s0, in_range s0 -> in_range (replay events s0)).
  { unfold replay. induction events as [|e es IH]; intros s0 Hr; simpl.
    - exact Hr.
    - apply IH, dispatch_in_range, Hr. }
  split; [|apply Hgen].
  apply Hgen. unfold in_range. simpl. repeat split; lra.
Qed.

Lemma tracker_stays_in_range_witness :
  in_range residual /\
  in_range (replay [mousemove 300 400; frame; keydown "q"; frame] residual).
Proof.
  assert (Hr : in_range residual) by (unfold in_range; simpl; repeat split; lra).
  split; [exact Hr|].
  apply (tracker_stays_in_range _ residual), Hr.
Defined.

(** X13.  The key handlers at their edges.  A key whose name is not one
    character long (Shift, Enter) is ignored by [_handleKeyDown]; a release
    of a key that is not held is ignored by [_handleKeyUp]; pressing and
    releasing a one-character key that was not held leaves the set of held
    keys as it was while the key activity keeps its raise; and a repeated
    key-down of a key that is already held leaves the set alone and still
    raises the activity. *)
Theorem key_handlers_edges (key : string) (s : InputSystem.t) :
  (String.length key <> 1%nat -> InputSystem._handleKeyDown key s = s) /\
  (key ∉ InputSystem.keysPressed s -> InputSystem._handleKeyUp key s = s) /\
  (String.length key = 1%nat ->
     key ∉ InputSystem.keysPressed s ->
     InputSystem.keysPressed
       (InputSystem._handleKeyUp key (InputSystem._handleKeyDown key s))
       = InputSystem.keysPressed s /\
     InputSystem.keyActivityLevel
       (InputSystem._handleKeyUp key (InputSystem._handleKeyDown key s))
       = Rmin 1.0 (InputSystem.keyActivityLevel s + 0.2)) /\
  (String.length key = 1%nat ->
     key ∈ InputSystem.keysPressed s ->
     InputSystem.keysPressed (InputSystem._handleKeyDown key s)
       = InputSystem.keysPressed s /\
     InputSystem.keyActivityLevel (InputSystem._handleKeyDown key s)
       = Rmin 1.0 (InputSystem.keyActivityLevel s + 0.2)).
Proof.
  split; [|split; [|split]].
  - intros Hlen. unfold InputSystem._handleKeyDown.
    destruct (Nat.eqb_spec (String.length key) 1); [contradiction|reflexivity].
  - intros Hnot. unfold InputSystem._handleKeyUp.
    rewrite bool_decide_eq_false_2 by exact Hnot. reflexivity.
  - intros Hlen Hnot. unfold InputSystem._handleKeyDown. rewrite Hlen.
    cbn [Nat.eqb]. unfold InputSystem._handleKeyUp.
    cbn [InputSystem.keysPressed].
    rewrite bool_decide_eq_true_2 by set_solver.
    cbn [InputSystem.keysPressed InputSystem.keyActivityLevel].
    split; [|reflexivity].
    apply set_eq. intros x. set_unfold. intuition congruence.
  - intros Hlen Hin. unfold InputSystem._handleKeyDown. rewrite Hlen.
    cbn [Nat.eqb InputSystem.keysPressed InputSystem.keyActivityLevel].
    split; [|reflexivity].
    apply set_eq. intros x. set_unfold. intuition congruence.
Qed.

Lemma key_handlers_edges_witness :
  String.length "Shift" <> 1%nat /\
  InputSystem._handleKeyDown "Shift" InputSystem.new = InputSystem.new.
Proof.
  assert (Hlen : String.length "Shift" <> 1%nat) by (simpl; lia).
  split; [exact Hlen|].
  destruct (key_handlers_edges "Shift" InputSystem.new) as (Hdown & _).
  apply Hdown, Hlen.
Defined.

(** X14.  One tick moves the drives by a bounded amount: from a tracker in
    range, [alphaValue] ends between [0.8 * alphaValue] and
    [0.8 * alphaValue + 0.2], [betaValue] between [0.7 * betaValue] and
    [0.7 * betaValue + 0.2925]; and a pointer displacement of 20 pixels or
    more saturates the first drive's input, giving exactly
    [0.8 * alphaValue + 0.2]. *)
Theorem update_slew_and_saturation (s : InputSystem.t) :
  in_range s ->
  let s' := fst (InputSystem.update s) in
  let dx := InputSystem.mouseX s - InputSystem.prevMouseX s in
  let dy := InputSystem.mouseY s - InputSystem.prevMouseY s in
  InputSystem.alphaValue s * 0.8 <= InputSystem.alphaValue s'
    <= InputSystem.alphaValue s * 0.8 + 0.2 /\
  InputSystem.betaValue s * 0.7 <= InputSystem.betaValue s'
    <= InputSystem.betaValue s * 0.7 + 0.2925 /\
  (400 <= dx * dx + dy * dy ->
     InputSystem.mouseVelocity s' >= 20 /\
     InputSystem.alphaValue s' = InputSystem.alphaValue s * 0.8 + 0.2).
Proof.
  intros Hr. cbv zeta.
  destruct (update_bounds s Hr) as (Ha & Hb & _ & _).
  split; [exact Ha|]. split; [exact Hb|].
  intros Hfar. unfold InputSystem.update.
  cbn [fst InputSystem.alphaValue InputSystem.mouseVelocity].
  set (v := sqrt _).
  assert (Hv : 20 <= v).
  { replace 20 with (sqrt (20 * 20)) by (apply sqrt_square; lra).
    unfold v. apply sqrt_le_1_alt. lra. }
  split; [lra|].
  rewrite Rmin_left by lra.
  replace 1.0 with 1 by lra. rewrite pow_one. lra.
Qed.

Lemma update_slew_and_saturation_witness :
  in_range (InputSystem._handleMouseMove 30 40 InputSystem.new) /\
  InputSystem.alphaValue
    (fst (InputSystem.update (InputSystem._handleMouseMove 30 40 InputSystem.new)))
    <= 0 * 0.8 + 0.2.
Proof.
  assert (Hr : in_range (InputSystem._handleMouseMove 30 40 InputSystem.new))
    by (unfold in_range; simpl; repeat split; lra).
  split; [exact Hr|].
  apply (update_slew_and_saturation _ Hr).
Defined.

(** X15.  A pointer displacement is used by one tick only: [update()]
    stores the pointer position, so a second [update()] with no event in
    between measures velocity 0, keeps the direction, and multiplies
    [alphaValue] by 0.8. *)
Theorem second_update_sees_no_motion (s : InputSystem.t) :
  let s1 := fst (InputSystem.update s) in
  let s2 := fst (InputSystem.update s1) in
  InputSystem.prevMouseX s1 = InputSystem.mouseX s /\
  InputSystem.prevMouseY s1 = InputSystem.mouseY s /\
  InputSystem.mouseVelocity s2 = 0 /\
  InputSystem.mouseDirection s2 = InputSystem.mouseDirection s1 /\
  InputSystem.alphaValue s2 = InputSystem.alphaValue s1 * 0.8.
Proof.
  cbv zeta. split; [reflexivity|]. split; [reflexivity|].
  set (s1 := fst (InputSystem.update s)).
  assert (Hx : InputSystem.mouseX s1 = InputSystem.prevMouseX s1) by reflexivity.
  assert (Hy : InputSystem.mouseY s1 = InputSystem.prevMouseY s1) by reflexivity.
  unfold InputSystem.update at 1 2 3.
  cbn [fst InputSystem.mouseVelocity InputSystem.mouseDirection
       InputSystem.alphaValue].
  rewrite Hx, Hy.
  replace ((InputSystem.prevMouseX s1 - InputSystem.prevMouseX s1)
           * (InputSystem.prevMouseX s1 - InputSystem.prevMouseX s1)
           + (InputSystem.prevMouseY s1 - InputSystem.prevMouseY s1)
             * (InputSystem.prevMouseY s1 - InputSystem.prevMouseY s1))
    with 0 by ring.
  rewrite sqrt_0.
  destruct (Rgt_dec 0 0.1) as [Hgt|_]; [lra|].
  replace (0 / 20) with 0 by lra.
  rewrite (Rmin_right 1.0 0) by lra.
  rewrite pow_zero_base.
  split; [reflexivity|]. split; [reflexivity|]. lra.
Qed.

(** ** The genre blend outside its nominal range, and its values *)

Lemma blend_value_weighted_sum
    (p : AIMusicEngine.paramName) (x : R) (e : AIMusicEngine.t) :
  snd (AIMusicEngine._blendGenreParams p x e) =
    AIMusicEngine.genreParams AIMusicEngine.trance p * Rmax 0 (1 - 2 * x)
    + AIMusicEngine.genreParams AIMusicEngine.dubstep p
      * (1 - Rmax 0 (1 - 2 * x) - Rmax 0 (2 * x - 1))
    + AIMusicEngine.genreParams AIMusicEngine.dnb p * Rmax 0 (2 * x - 1).
Proof.
  unfold AIMusicEngine._blendGenreParams, AIMusicEngine._updateGenreBlend.
  cbn [AIMusicEngine.genreBlend snd fst].
  rewrite blend_fold. cbn [fst snd].
  replace (0 + Rmax 0 (1 - 2 * x)
           + (1 - Rmax 0 (1 - 2 * x) - Rmax 0 (2 * x - 1))
           + Rmax 0 (2 * x - 1)) with 1 by ring.
  field.
Qed.


(** X17.  For an influence in [[0,1]] the blended parameter is piecewise
    linear: it goes from the trance value at 0 to the dubstep value at 0.5
    and on to the dnb value at 1, and so it never leaves the interval
    spanned by the three preset values.  The blend stored before the call
    plays no part: result and stored blend are those of the last
    influence. *)
Theorem genre_blend_piecewise_linear
    (p : AIMusicEngine.paramName) (x : R) (e e' : AIMusicEngine.t) :
  0 <= x <= 1 ->
  let v := snd (AIMusicEngine._blendGenreParams p x e) in
  let vt := AIMusicEngine.genreParams AIMusicEngine.trance p in
  let vd := AIMusicEngine.genreParams AIMusicEngine.dubstep p in
  let vn := AIMusicEngine.genreParams AIMusicEngine.dnb p in
  (x <= 0.5 -> v = vt + 2 * x * (vd - vt)) /\
  (0.5 <= x -> v = vd + (2 * x - 1) * (vn - vd)) /\
  Rmin vt (Rmin vd vn) <= v <= Rmax vt (Rmax vd vn) /\
  AIMusicEngine._blendGenreParams p x e = AIMusicEngine._blendGenreParams p x e'.
Proof.
  intros [H0 H1]. cbv zeta.
  rewrite blend_value_weighted_sum.
  set (vt := AIMusicEngine.genreParams AIMusicEngine.trance p).
  set (vd := AIMusicEngine.genreParams AIMusicEngine.dubstep p).
  set (vn := AIMusicEngine.genreParams AIMusicEngine.dnb p).
  assert (Hlo : x <= 0.5 -> Rmax 0 (1 - 2 * x) = 1 - 2 * x /\ Rmax 0 (2 * x - 1) = 0).
  { intros Hx. split; [apply Rmax_right; lra|apply Rmax_left; lra]. }
  assert (Hhi : 0.5 <= x -> Rmax 0 (1 - 2 * x) = 0 /\ Rmax 0 (2 * x - 1) = 2 * x - 1).
  { intros Hx. split; [apply Rmax_left; lra|apply Rmax_right; lra]. }
  split; [intros Hx; destruct (Hlo Hx) as [-> ->]; ring|].
  split; [intros Hx; destruct (Hhi Hx) as [-> ->]; ring|].
  split; [|reflexivity].
  assert (Hmin : Rmin vt (Rmin vd vn) <= vt /\ Rmin vt (Rmin vd vn) <= vd
                 /\ Rmin vt (Rmin vd vn) <= vn).
  { pose proof (Rmin_l vt (Rmin vd vn)). pose proof (Rmin_r vt (Rmin vd vn)).
    pose proof (Rmin_l vd vn). pose proof (Rmin_r vd vn). lra. }
  assert (Hmax : vt <= Rmax vt (Rmax vd vn) /\ vd <= Rmax vt (Rmax vd vn)
                 /\ vn <= Rmax vt (Rmax vd vn)).
  { pose proof (Rmax_l vt (Rmax vd vn)). pose proof (Rmax_r vt (Rmax vd vn)).
    pose proof (Rmax_l vd vn). pose proof (Rmax_r vd vn). lra. }
  destruct (Rle_dec x 0.5) as [Hx|Hx].
  - destruct (Hlo Hx) as [-> ->]. split; nra.
  - assert (Hx' : 0.5 <= x) by lra.
    destruct (Hhi Hx') as [-> ->]. split; nra.
Qed.

Lemma genre_blend_piecewise_linear_witness :
  0 <= 0.25 <= 1 /\
  snd (AIMusicEngine._blendGenreParams AIMusicEngine.temperature 0.25
         AIMusicEngine.new) = 0.8 + 2 * 0.25 * (1.2 - 0.8).
Proof.
  assert (Hx : 0 <= 0.25 <= 1) by lra.
  split; [exact Hx|].
  destruct (genre_blend_piecewise_linear AIMusicEngine.temperature 0.25
              AIMusicEngine.new AIMusicEngine.new Hx) as (Hlo & _).
  apply Hlo. lra.
Defined.

(** ** The update tick, further *)

Section Tick.

(** The three ways a running tick can go. *)
Lemma update_running_cases (now rand : R) (app : App.t) :
  App.isRunning app = true ->
  let input' := fst (InputSystem.update (App.inputSystem app)) in
  let inputData := snd (InputSystem.update (App.inputSystem app)) in
  let alphaValue := InputSystem.alpha inputData in
  let betaValue := InputSystem.beta inputData in
  let quantumState := getStateForVisualization (App.quantumLayer app) in
  let changed :=
    Rabs (alphaValue - App.alpha (App.lastInputValues app))
      > App.inputChangeThreshold app \/
    Rabs (betaValue - App.beta (App.lastInputValues app))
      > App.inputChangeThreshold app in
  let due :=
    now - App.lastRhythmTriggerTime app >= App.adjustedInterval alphaValue in
  let fired := processInput alphaValue betaValue rand (App.quantumLayer app) in
  let quiet_effects :=
    [App.updateMusic alphaValue betaValue;
     App.visualizerUpdate quantumState alphaValue betaValue false] in
  (changed /\ due /\
   App._update now rand app =
     ({| App.inputSystem := input';
         App.quantumLayer := fst fired;
         App.isRunning := true;
         App.lastRhythmTriggerTime := now;
         App.lastInputValues := {| App.alpha := alphaValue; App.beta := betaValue |};
         App.inputChangeThreshold := App.inputChangeThreshold app |},
      quiet_effects ++
      [App.playRhythmPattern (snd fired);
       App.visualizerUpdate quantumState alphaValue betaValue true])) \/
  (changed /\ ~ due /\
   App._update now rand app =
     ({| App.inputSystem := input';
         App.quantumLayer := App.quantumLayer app;
         App.isRunning := true;
         App.lastRhythmTriggerTime := App.lastRhythmTriggerTime app;
         App.lastInputValues := {| App.alpha := alphaValue; App.beta := betaValue |};
         App.inputChangeThreshold := App.inputChangeThreshold app |},
      quiet_effects)) \/
  (~ changed /\
   App._update now rand app =
     ({| App.inputSystem := input';
         App.quantumLayer := App.quantumLayer app;
         App.isRunning := true;
         App.lastRhythmTriggerTime := App.lastRhythmTriggerTime app;
         App.lastInputValues := App.lastInputValues app;
         App.inputChangeThreshold := App.inputChangeThreshold app |},
      quiet_effects)).
Proof.
  intros Hrun. cbv zeta. unfold App._update. rewrite Hrun. cbn [negb].
  destruct (InputSystem.update (App.inputSystem app)) as [input' inputData].
  cbn [fst snd].
  destruct (processInput (InputSystem.alpha inputData)
              (InputSystem.beta inputData) rand (App.quantumLayer app))
    as [layer' rhythmPattern].
  unfold JsMath.gtb.
  destruct (Rgt_dec _ (App.inputChangeThreshold app)) as [Ha|Ha];
    destruct (Rgt_dec _ (App.inputChangeThreshold app)) as [Hb|Hb];
    cbn [orb];
    try (destruct (Rge_dec (now - App.lastRhythmTriggerTime app)
                           (App.adjustedInterval (InputSystem.alpha inputData)))
           as [Hd|Hd]);
    cbn [fst snd].
  all: try (left; split; [tauto|]; split; [exact Hd|reflexivity]).
  all: try (right; left; split; [tauto|]; split; [exact Hd|reflexivity]).
  all: right; right; split; [tauto|reflexivity].
Qed.

Lemma adjustedInterval_range (alphaValue : R) :
  0 <= alphaValue <= 1 ->
  App.minInterval <= App.adjustedInterval alphaValue <= App.baseInterval.
Proof.
  intros [H0 H1].
  unfold App.adjustedInterval, App.minInterval, App.baseInterval. lra.
Qed.




End Tick.

(** X18.  After every tick of the running application the stored
    [lastInputValues] are within the change threshold of the drives that
    the tick read: either they were just replaced by those drives, or the
    drives had not moved by more than the threshold. *)
Theorem update_keeps_stored_drives_close (now rand : R) (app : App.t) :
  App.isRunning app = true ->
  0 <= App.inputChangeThreshold app ->
  let inputData := snd (InputSystem.update (App.inputSystem app)) in
  let app' := fst (App._update now rand app) in
  Rabs (InputSystem.alpha inputData - App.alpha (App.lastInputValues app'))
    <= App.inputChangeThreshold app /\
  Rabs (InputSystem.beta inputData - App.beta (App.lastInputValues app'))
    <= App.inputChangeThreshold app /\
  App.inputSystem app' = fst (InputSystem.update (App.inputSystem app)) /\
  App.isRunning app' = true /\
  App.inputChangeThreshold app' = App.inputChangeThreshold app.
Proof.
  intros Hrun Hthr. cbv zeta.
  destruct (update_running_cases now rand app Hrun)
    as [(_ & _ & ->) | [(_ & _ & ->) | (Hno & ->)]];
    cbn [fst App.lastInputValues App.alpha App.beta App.inputSystem
         App.isRunning App.inputChangeThreshold].
  - rewrite !Rminus_diag, Rabs_R0. repeat split; try reflexivity; lra.
  - rewrite !Rminus_diag, Rabs_R0. repeat split; try reflexivity; lra.
  - repeat split; try reflexivity; lra.
Qed.

Lemma update_keeps_stored_drives_close_witness :
  App.isRunning started = true /\
  0 <= App.inputChangeThreshold started /\
  App.isRunning (fst (App._update 2000 0.5 started)) = true.
Proof.
  assert (Hthr : 0 <= App.inputChangeThreshold started) by (simpl; lra).
  split; [reflexivity|]. split; [exact Hthr|].
  apply (update_keeps_stored_drives_close 2000 0.5 started eq_refl Hthr).
Defined.

(** X19.  With the tracker in range, a tick of the running application
    plays a rhythm pattern only if at least [minInterval = 300]
    milliseconds have passed since [lastRhythmTriggerTime], and then it
    sets [lastRhythmTriggerTime] to the time of the tick; a tick that plays
    nothing leaves [lastRhythmTriggerTime] alone.  A tick whose drives
    changed and that comes [baseInterval = 1000] milliseconds or more after
    the last trigger always plays.  The tracker stays in range. *)
Theorem triggers_are_spaced (now rand : R) (app : App.t) :
  App.isRunning app = true ->
  in_range (App.inputSystem app) ->
  let inputData := snd (InputSystem.update (App.inputSystem app)) in
  let changed :=
    Rabs (InputSystem.alpha inputData - App.alpha (App.lastInputValues app))
      > App.inputChangeThreshold app \/
    Rabs (InputSystem.beta inputData - App.beta (App.lastInputValues app))
      > App.inputChangeThreshold app in
  let app' := fst (App._update now rand app) in
  let effects := snd (App._update now rand app) in
  (forall r, In (App.playRhythmPattern r) effects ->
     now - App.lastRhythmTriggerTime app >= 300 /\
     App.lastRhythmTriggerTime app' = now) /\
  ((forall r, ~ In (App.playRhythmPattern r) effects) ->
     App.lastRhythmTriggerTime app' = App.lastRhythmTriggerTime app) /\
  (changed -> now - App.lastRhythmTriggerTime app >= 1000 ->
     exists r, In (App.playRhythmPattern r) effects) /\
  in_range (App.inputSystem app').
Proof.
  intros Hrun Hr. cbv zeta.
  pose proof (update_in_range _ Hr) as Hr'.
  assert (Halpha : 0 <= InputSystem.alpha
                          (snd (InputSystem.update (App.inputSystem app))) <= 1).
  { destruct Hr' as (Ha & _). exact Ha. }
  pose proof (adjustedInterval_range _ Halpha) as Hint.
  unfold App.minInterval, App.baseInterval in Hint.
  destruct (update_running_cases now rand app Hrun)
    as [(Hc & Hd & ->) | [(Hc & Hd & ->) | (Hno & ->)]];
    cbn [fst snd App.lastRhythmTriggerTime App.inputSystem].
  - split; [intros r _; split; [lra|reflexivity]|].
    split; [intros Hnone; exfalso; eapply Hnone; simpl; eauto|].
    split; [intros _ _; eexists; simpl; eauto|exact Hr'].
  - split; [intros r Hin; simpl in Hin;
            destruct Hin as [Hin|[Hin|[]]]; discriminate Hin|].
    split; [reflexivity|].
    split; [intros _ Hlate; exfalso; apply Hd; lra|exact Hr'].
  - split; [intros r Hin; simpl in Hin;
            destruct Hin as [Hin|[Hin|[]]]; discriminate Hin|].
    split; [reflexivity|].
    split; [intros Hc; contradiction|exact Hr'].
Qed.

Lemma triggers_are_spaced_witness :
  App.isRunning started = true /\
  in_range (App.inputSystem started) /\
  in_range (App.inputSystem (fst (App._update 2000 0.5 started))).
Proof.
  assert (Hr : in_range (App.inputSystem started))
    by (unfold in_range; simpl; repeat split; lra).
  split; [reflexivity|]. split; [exact Hr|].
  apply (triggers_are_spaced 2000 0.5 started eq_refl Hr).
Defined.



(** X21.  What the visualizer would compute from any normalized snapshot:
    for four non-negative probabilities that add up to 1, the entanglement
    lies in [[0,1]], the beam opacity in [[0.1,0.8]], the pulsed opacity
    never exceeds 1, each sphere scale lies in [[0.5,1.5]] and the two
    scales add up to 2. *)
Theorem visualizer_values_in_range
    (quantumState : Snapshot.t) (p0 p1 p2 p3 : R) :
  Snapshot.probabilities quantumState = [p0; p1; p2; p3] ->
  0 <= p0 -> 0 <= p1 -> 0 <= p2 -> 0 <= p3 ->
  p0 + p1 + p2 + p3 = 1 ->
  0 <= Visualizer.entanglement quantumState <= 1 /\
  0.1 <= Visualizer.beamOpacity quantumState <= 0.8 /\
  Visualizer.pulsedOpacity quantumState <= 1 /\
  0.5 <= Visualizer.q0Scale quantumState <= 1.5 /\
  0.5 <= Visualizer.q1Scale quantumState <= 1.5 /\
  Visualizer.q0Scale quantumState + Visualizer.q1Scale quantumState = 2.
Proof.
  intros Hp H0 H1 H2 H3 Hsum.
  unfold Visualizer.pulsedOpacity, Visualizer.beamOpacity,
    Visualizer.entanglement, Visualizer.q0Scale, Visualizer.q1Scale.
  rewrite Hp. unfold at_index. cbn.
  assert (Ha : 0 <= Rabs (p0 - p3) <= p0 + p3).
  { split; [apply Rabs_pos|]. unfold Rabs. destruct (Rcase_abs (p0 - p3)); lra. }
  assert (Hb : 0 <= Rabs (p1 - p2) <= p1 + p2).
  { split; [apply Rabs_pos|]. unfold Rabs. destruct (Rcase_abs (p1 - p2)); lra. }
  split; [lra|]. split; [lra|].
  split; [apply Rle_trans with 1.0; [apply Rmin_l|lra]|].
  split; [lra|]. split; lra.
Qed.

Lemma visualizer_values_in_range_witness :
  Snapshot.probabilities (getStateForVisualization QuantumLayer.new)
    = [1; 0; 0; 0] /\
  0 <= Visualizer.entanglement (getStateForVisualization QuantumLayer.new) <= 1.
Proof.
  split; [reflexivity|].
  apply (visualizer_values_in_range
           (getStateForVisualization QuantumLayer.new) 1 0 0 0 eq_refl);
    lra.
Defined.

(** ** The frame loop *)

Section FrameLoop.

Lemma update_running_emits (now rand : R) (app : App.t) :
  App.isRunning app = true ->
  snd (App._update now rand app) <> [] /\
  App.isRunning (fst (App._update now rand app)) = true.
Proof.
  intros Hrun.
  destruct (update_running_cases now rand app Hrun)
    as [(_ & _ & ->) | [(_ & _ & ->) | (_ & ->)]];
    cbn [fst snd App.isRunning]; split; try reflexivity; discriminate.
Qed.

Lemma animationLoop_running (now rand : R) (l : AppLoop.t) :
  App.isRunning (AppLoop.app l) = true ->
  let k := AppLoop.frameSkip l in
  let c := AppLoop.frameCount l in
  let l' := fst (fst (AppLoop.animationLoop now rand l)) in
  let effects := snd (fst (AppLoop.animationLoop now rand l)) in
  snd (AppLoop.animationLoop now rand l) = true /\
  AppLoop.frameSkip l' = k /\
  App.isRunning (AppLoop.app l') = true /\
  (effects <> [] <-> ((c + 1) mod (k + 1) = 0)%nat) /\
  (AppLoop.frameCount l' + 1) mod (k + 1) = (c + 1 + 1) mod (k + 1).
Proof.
  intros Hrun. cbv zeta. unfold AppLoop.animationLoop. rewrite Hrun. cbn [negb].
  destruct (update_running_emits now rand (AppLoop.app l) Hrun) as [Hne Hrun'].
  destruct (App._update now rand (AppLoop.app l)) as [app' effects].
  cbn [fst snd] in Hne, Hrun'.
  destruct (AppLoop.frameSkip l) as [|k] eqn:Hk.
  - cbn [Nat.ltb Nat.leb fst snd AppLoop.frameSkip AppLoop.app AppLoop.frameCount].
    split; [reflexivity|]. split; [reflexivity|]. split; [exact Hrun'|].
    split; [|rewrite !Nat.mod_1_r; reflexivity].
    split; [intros _; apply Nat.mod_1_r|intros _; exact Hne].
  - change (Nat.ltb 0 (S k)) with true. cbv iota.
    destruct (Nat.eqb_spec ((AppLoop.frameCount l + 1) mod (S k + 1)) 0)
      as [Hz|Hnz];
      cbn [negb fst snd AppLoop.frameSkip AppLoop.app AppLoop.frameCount].
    + split; [reflexivity|]. split; [reflexivity|]. split; [exact Hrun'|].
      split; [|rewrite Nat.Div0.add_mod_idemp_l; reflexivity].
      split; [intros _; exact Hz|intros _; exact Hne].
    + split; [reflexivity|]. split; [reflexivity|]. split; [exact Hrun|].
      split; [|rewrite Nat.Div0.add_mod_idemp_l; reflexivity].
      split; [intros Hcontra; exfalso; apply Hcontra; reflexivity
             |intros Hcontra; contradiction].
Qed.

Lemma frames_log (fs : list (R * R)) :
  forall l : AppLoop.t,
    App.isRunning (AppLoop.app l) = true ->
    length (snd (AppLoop.frames fs l)) = length fs /\
    forall j, (j < length fs)%nat ->
      (nth j (snd (AppLoop.frames fs l)) [] <> [] <->
       ((AppLoop.frameCount l + j + 1) mod (AppLoop.frameSkip l + 1) = 0)%nat).
Proof.
  induction fs as [|[now rand] rest IH]; intros l Hrun.
  - split; [reflexivity|]. intros j Hj. simpl in Hj. lia.
  - destruct (animationLoop_running now rand l Hrun)
      as (_ & Hk & Hrun' & Heff & Hc).
    cbn [AppLoop.frames].
    destruct (AppLoop.animationLoop now rand l) as [[l' effects] again].
    cbn [fst snd] in Hk, Hrun', Heff, Hc.
    destruct (IH l' Hrun') as [Hlen Hlog].
    destruct (AppLoop.frames rest l') as [l'' log]. cbn [snd] in *.
    split; [simpl; rewrite Hlen; reflexivity|].
    intros [|j] Hj.
    + cbn [nth]. rewrite Nat.add_0_r. exact Heff.
    + cbn [nth]. rewrite Hlog by (simpl in Hj; lia). rewrite Hk.
      replace (AppLoop.frameCount l' + j + 1)%nat
        with ((AppLoop.frameCount l' + 1) + j)%nat by lia.
      rewrite <- Nat.Div0.add_mod_idemp_l, Hc, Nat.Div0.add_mod_idemp_l.
      replace (AppLoop.frameCount l + 1 + 1 + j)%nat
        with (AppLoop.frameCount l + S j + 1)%nat by lia.
      reflexivity.
Qed.

End FrameLoop.

(** X22.  Frame skipping.  Once [_startUpdateLoop] has cleared the
    counter, the running loop calls [_update] on exactly those frames whose
    number, counted from 1, is a multiple of [frameSkip + 1]: every frame
    for [frameSkip = 0], every second for 1, every third for 2; the other
    frames produce no effect at all.  [_detectPerformance] never sets a
    skip above 2.  When the application is not running the closure does
    nothing and does not ask for another frame. *)
Theorem frame_loop_processes_every_nth
    (fs : list (R * R)) (l : AppLoop.t) :
  App.isRunning (AppLoop.app l) = true ->
  let log := snd (AppLoop.frames fs (AppLoop._startUpdateLoop l)) in
  length log = length fs /\
  (forall j, (j < length fs)%nat ->
     (nth j log [] <> [] <-> ((j + 1) mod (AppLoop.frameSkip l + 1) = 0)%nat)) /\
  (forall duration, (AppLoop._detectPerformance duration <= 2)%nat) /\
  (forall now rand l',
     App.isRunning (AppLoop.app l') = false ->
     AppLoop.animationLoop now rand l' = (l', [], false)).
Proof.
  intros Hrun. cbv zeta.
  destruct (frames_log fs (AppLoop._startUpdateLoop l) Hrun) as [Hlen Hlog].
  split; [exact Hlen|]. split; [|split].
  - intros j Hj. rewrite (Hlog j Hj). reflexivity.
  - intros duration. unfold AppLoop._detectPerformance.
    destruct (Rgt_dec duration 100), (Rgt_dec duration 50); lia.
  - intros now rand l' Hstop. unfold AppLoop.animationLoop.
    rewrite Hstop. reflexivity.
Qed.

Lemma frame_loop_processes_every_nth_witness :
  App.isRunning started = true /\
  length (snd (AppLoop.frames [(0, 0.5); (16, 0.5); (33, 0.5)]
                 (AppLoop._startUpdateLoop
                    {| AppLoop.app := started; AppLoop.frameSkip := 2;
                       AppLoop.frameCount := 0 |}))) = 3%nat.
Proof.
  split; [reflexivity|].
  apply (frame_loop_processes_every_nth
           [(0, 0.5); (16, 0.5); (33, 0.5)]
           {| AppLoop.app := started; AppLoop.frameSkip := 2;
              AppLoop.frameCount := 0 |} eq_refl).
Defined.

(** ** The seed sequence *)

Section SeedSequence.

Import Seed.

Lemma round_between (x : R) (lo hi : Z) :
  IZR lo <= x <= IZR hi -> (lo <= round x <= hi)%Z.
Proof.
  intros [Hlo Hhi]. unfold round. split.
  - apply Zfloor_lub. lra.
  - pose proof (Zfloor_bound (x + 0.5)) as [Hb _].
    assert (Hlt : IZR (Zfloor (x + 0.5)) < IZR (hi + 1)).
    { rewrite plus_IZR. lra. }
    apply lt_IZR in Hlt. lia.
Qed.

Lemma floor_between (x : R) (lo hi : Z) :
  IZR lo <= x < IZR hi -> (lo <= floor x < hi)%Z.
Proof.
  intros [Hlo Hhi]. unfold floor. split.
  - apply Zfloor_lub. exact Hlo.
  - pose proof (Zfloor_bound x) as [Hb _].
    apply lt_IZR. lra.
Qed.

Lemma selectedScale_length (alphaValue : R) :
  length (selectedScale alphaValue) = 8%nat.
Proof.
  unfold selectedScale.
  destruct (Rlt_dec alphaValue 0.33), (Rlt_dec alphaValue 0.66); reflexivity.
Qed.

Lemma rhythmComplexity_cases (betaValue : R) :
  0 <= betaValue <= 1 ->
  rhythmComplexity betaValue = 0%Z \/ rhythmComplexity betaValue = 1%Z \/
  rhythmComplexity betaValue = 2%Z \/ rhythmComplexity betaValue = 3%Z.
Proof.
  intros Hb.
  assert (H : (0 <= rhythmComplexity betaValue <= 3)%Z)
    by (apply round_between; lra).
  lia.
Qed.

(** A loop whose callback appends one entry when [g i] holds and nothing
    otherwise. *)
Lemma forEach_length {A B : Type} (f : list B -> A -> nat -> list B)
    (g : nat -> bool) :
  (forall s x i, length (f s x i) = (length s + (if g i then 1 else 0))%nat) ->
  forall (a : list A) (i : nat) (s : list B),
    length (forEach f a i s)
      = (length s + length (filter (fun j => g j = true) (seq i (length a))))%nat.
Proof.
  intros Hf a. induction a as [|x rest IH]; intros i s; cbn [forEach length seq].
  - rewrite filter_nil. simpl. lia.
  - rewrite IH, Hf, filter_cons.
    destruct (g i); [rewrite decide_True by reflexivity
                    |rewrite decide_False by discriminate]; simpl; lia.
Qed.

Lemma forEach_Forall {A B : Type} (P : B -> Prop)
    (f : list B -> A -> nat -> list B) :
  (forall s x i, Forall P s -> Forall P (f s x i)) ->
  forall (a : list A) (i : nat) (s : list B),
    Forall P s -> Forall P (forEach f a i s).
Proof.
  intros Hf a. induction a as [|x rest IH]; intros i s Hs; cbn [forEach].
  - exact Hs.
  - apply IH, Hf, Hs.
Qed.

(** The same with a condition on the entries of the array being walked. *)
Lemma forEach_Forall_on {A B : Type} (P : B -> Prop) (Q : A -> Prop)
    (f : list B -> A -> nat -> list B) :
  (forall s x i, Q x -> Forall P s -> Forall P (f s x i)) ->
  forall (a : list A) (i : nat) (s : list B),
    Forall Q a -> Forall P s -> Forall P (forEach f a i s).
Proof.
  intros Hf a. induction a as [|x rest IH]; intros i s Ha Hs; cbn [forEach].
  - exact Hs.
  - inversion Ha as [|? ? Hx Hrest]; subst.
    apply IH; [exact Hrest|]. apply Hf; assumption.
Qed.

Lemma push_kick_length alphaValue betaValue s x i :
  length (push_kick alphaValue betaValue s x i)
    = (length s + (if Z.leb (Z.of_nat i) (rhythmComplexity betaValue)
                   then 1 else 0))%nat.
Proof.
  unfold push_kick. destruct (Z.leb _ _); [rewrite length_app|]; simpl; lia.
Qed.

Lemma push_snare_length alphaValue betaValue s x i :
  length (push_snare alphaValue betaValue s x i)
    = (length s + (if Z.leb (Z.of_nat i) (rhythmComplexity betaValue)
                   then 1 else 0))%nat.
Proof.
  unfold push_snare. destruct (Z.leb _ _); [rewrite length_app|]; simpl; lia.
Qed.

Lemma push_clap_length alphaValue betaValue s x i :
  length (push_clap alphaValue betaValue s x i)
    = (length s + (if Z.leb (Z.of_nat i) (rhythmComplexity betaValue)
                   then 1 else 0))%nat.
Proof.
  unfold push_clap. destruct (Z.leb _ _); [rewrite length_app|]; simpl; lia.
Qed.

Lemma push_hihat_length alphaValue s x i :
  length (push_hihat alphaValue s x i)
    = (length s + (if (fun _ : nat => true) i then 1 else 0))%nat.
Proof. unfold push_hihat. rewrite length_app. simpl. lia. Qed.

Lemma all_indices (i n : nat) :
  length (filter (fun j => (fun _ : nat => true) j = true) (seq i n)) = n.
Proof.
  revert i. induction n as [|n IH]; intros i; cbn [seq].
  - reflexivity.
  - rewrite filter_cons, decide_True by reflexivity. simpl. rewrite IH.
    reflexivity.
Qed.

End SeedSequence.

(** X23.  For drives in [[0,1]] the seed sequence has a tempo between 100
    and 160 beats per minute, between 4 and 8 steps per quarter, a base
    velocity between 80 and 120 and a rhythm complexity between 0 and 3;
    the sequence returned is the one stored in [currentSequence]. *)
Theorem seed_sequence_ranges
    (rhythmPattern : RhythmTrigger) (alphaValue betaValue : R) (e : Seed.t) :
  0 <= alphaValue <= 1 ->
  0 <= betaValue <= 1 ->
  let sequence := snd (Seed.createSeedSequence rhythmPattern alphaValue betaValue e) in
  (100 <= Seed.qpm sequence <= 160)%Z /\
  (4 <= Seed.stepsPerQuarter sequence <= 8)%Z /\
  (80 <= Seed.baseVelocity alphaValue <= 120)%Z /\
  (0 <= Seed.rhythmComplexity betaValue <= 3)%Z /\
  Seed.getCurrentSequence
    (fst (Seed.createSeedSequence rhythmPattern alphaValue betaValue e))
    = Some sequence.
Proof.
  intros Ha Hb. cbv zeta. unfold Seed.createSeedSequence.
  cbn [snd fst Seed.qpm Seed.stepsPerQuarter Seed.getCurrentSequence
       Seed.currentSequence].
  assert (H1 : (0 <= Seed.round (alphaValue * 60) <= 60)%Z)
    by (apply round_between; lra).
  assert (H2 : (4 <= Seed.round (4 + betaValue * 4) <= 8)%Z)
    by (apply round_between; lra).
  assert (H3 : (80 <= Seed.baseVelocity alphaValue <= 120)%Z)
    by (apply round_between; lra).
  assert (H4 : (0 <= Seed.rhythmComplexity betaValue <= 3)%Z)
    by (apply round_between; lra).
  repeat split; try lia. 
Qed.

Lemma seed_sequence_ranges_witness :
  0 <= 0.5 <= 1 /\ 0 <= 0.5 <= 1 /\
  (100 <= Seed.qpm (snd (Seed.createSeedSequence silent 0.5 0.5
                           {| Seed.engine := AIMusicEngine.new;
                              Seed.currentSequence := None |})) <= 160)%Z.
Proof.
  assert (H : 0 <= 0.5 <= 1) by lra.
  split; [exact H|]. split; [exact H|].
  apply (seed_sequence_ranges silent 0.5 0.5 _ H H).
Defined.

Section SeedCounts.

Import Seed.

Lemma guard_keeps_every_position (c : Z) :
  c = 0%Z \/ c = 1%Z \/ c = 2%Z \/ c = 3%Z ->
  let kept n :=
    length (filter (fun j => Z.leb (Z.of_nat j) c = true) (seq 0 n)) in
  kept (length (positions_kick c)) = length (positions_kick c) /\
  kept (length (positions_snare c)) = length (positions_snare c) /\
  kept (length (positions_clap c)) = length (positions_clap c) /\
  length (positions_kick c) = (Z.to_nat c + 1)%nat /\
  length (positions_snare c) = (Z.to_nat c + 1)%nat /\
  length (positions_hihat c) = (2 * (Z.to_nat c + 1))%nat /\
  (1 <= length (positions_clap c) <= 2)%nat.
Proof.
  intros [-> | [-> | [-> | ->]]]; cbv zeta; cbn; repeat split; lia.
Qed.

Lemma slice0_length {A : Type} (n : Z) (a : list A) :
  (0 <= n <= Z.of_nat (length a))%Z ->
  length (slice0 n a) = Z.to_nat n.
Proof.
  intros Hn. unfold slice0.
  destruct (Z.ltb_spec n 0) as [Hneg|_]; [lia|].
  rewrite length_take. lia.
Qed.

End SeedCounts.

(** X24.  For drives in [[0,1]] the test [i <= rhythmComplexity] of the
    kick, snare and clap loops never drops a position: the position table
    of complexity [c] has [c + 1] kick entries, [c + 1] snare entries and
    one or two clap entries, all of index at most [c].  So the number of
    notes is the sum, over the drums that are set, of the table lengths,
    with the hihat table cut to [min(length, round(2 + 6 * alphaValue))]
    entries; and a pattern with no drum gives no note. *)
Theorem seed_sequence_note_count
    (rhythmPattern : RhythmTrigger) (alphaValue betaValue : R) (e : Seed.t) :
  0 <= alphaValue <= 1 ->
  0 <= betaValue <= 1 ->
  let c := Seed.rhythmComplexity betaValue in
  let sequence := snd (Seed.createSeedSequence rhythmPattern alphaValue betaValue e) in
  length (Seed.notes sequence) =
    ((if kick rhythmPattern then length (Seed.positions_kick c) else 0)
     + (if snare rhythmPattern then length (Seed.positions_snare c) else 0)
     + (if hihat rhythmPattern
        then Z.to_nat (Z.min (Z.of_nat (length (Seed.positions_hihat c)))
                             (Seed.round (2 + alphaValue * 6)))
        else 0)
     + (if clap rhythmPattern then length (Seed.positions_clap c) else 0))%nat /\
  length (Seed.positions_kick c) = (Z.to_nat c + 1)%nat /\
  length (Seed.positions_snare c) = (Z.to_nat c + 1)%nat /\
  length (Seed.positions_hihat c) = (2 * (Z.to_nat c + 1))%nat /\
  (1 <= length (Seed.positions_clap c) <= 2)%nat /\
  (2 <= Seed.round (2 + alphaValue * 6) <= 8)%Z /\
  (rhythmPattern = silent -> Seed.notes sequence = []).
Proof.
  intros Ha Hb. cbv zeta.
  pose proof (rhythmComplexity_cases betaValue Hb) as Hc.
  destruct (guard_keeps_every_position _ Hc)
    as (Kk & Ks & Kc & Lk & Ls & Lh & Lc).
  cbv zeta in Kk, Ks, Kc.
  assert (Hd : (2 <= Seed.round (2 + alphaValue * 6) <= 8)%Z)
    by (apply round_between; lra).
  split; [|split; [exact Lk|split; [exact Ls|split; [exact Lh|
          split; [exact Lc|split; [exact Hd|]]]]]].
  - unfold Seed.createSeedSequence. cbn [snd Seed.notes].
    set (n0 := @nil Seed.Note).
    set (n1 := if kick rhythmPattern then _ else n0).
    set (n2 := if snare rhythmPattern then _ else n1).
    set (n3 := if hihat rhythmPattern then _ else n2).
    assert (H1 : length n1 = if kick rhythmPattern
                             then length (Seed.positions_kick
                                            (Seed.rhythmComplexity betaValue))
                             else 0%nat).
    { unfold n1. destruct (kick rhythmPattern); [|reflexivity].
      rewrite (forEach_length _ _ (push_kick_length alphaValue betaValue)).
      rewrite Kk. reflexivity. }
    assert (H2 : length n2 = (length n1 +
                              if snare rhythmPattern
                              then length (Seed.positions_snare
                                             (Seed.rhythmComplexity betaValue))
                              else 0)%nat).
    { unfold n2. destruct (snare rhythmPattern); [|lia].
      rewrite (forEach_length _ _ (push_snare_length alphaValue betaValue)).
      rewrite Ks. reflexivity. }
    assert (H3 : length n3 = (length n2 +
                              if hihat rhythmPattern
                              then Z.to_nat
                                     (Z.min (Z.of_nat
                                               (length (Seed.positions_hihat
                                                  (Seed.rhythmComplexity betaValue))))
                                            (Seed.round (2 + alphaValue * 6)))
                              else 0)%nat).
    { unfold n3. destruct (hihat rhythmPattern); [|lia].
      rewrite (forEach_length _ (fun _ => true) (push_hihat_length alphaValue)).
      rewrite all_indices, slice0_length by lia. reflexivity. }
    destruct (clap rhythmPattern).
    + rewrite (forEach_length _ _ (push_clap_length alphaValue betaValue)).
      rewrite Kc, H3, H2, H1. lia.
    + rewrite H3, H2, H1. lia.
  - intros ->. reflexivity.
Qed.

Lemma seed_sequence_note_count_witness :
  0 <= 0.5 <= 1 /\ 0 <= 0.5 <= 1 /\
  (2 <= Seed.round (2 + 0.5 * 6) <= 8)%Z.
Proof.
  assert (H : 0 <= 0.5 <= 1) by lra.
  split; [exact H|]. split; [exact H|].
  apply (seed_sequence_note_count silent 0.5 0.5
           {| Seed.engine := AIMusicEngine.new; Seed.currentSequence := None |}
           H H).
Defined.

Section SeedPitches.

Import Seed.

Lemma scale_length_R (alphaValue : R) :
  INR (length (selectedScale alphaValue)) = 8.
Proof. rewrite selectedScale_length. simpl. lra. Qed.

Lemma scale_entry (alphaValue : R) (k : Z) :
  (0 <= k < 8)%Z ->
  exists v, at_int (selectedScale alphaValue) k = Some v /\ (0 <= v <= 16)%Z.
Proof.
  intros Hk.
  assert (Hcases : (k = 0 \/ k = 1 \/ k = 2 \/ k = 3 \/ k = 4 \/ k = 5
                    \/ k = 6 \/ k = 7)%Z) by lia.
  unfold selectedScale.
  destruct (Rlt_dec alphaValue 0.33), (Rlt_dec alphaValue 0.66);
    destruct Hcases as [-> | [-> | [-> | [-> | [-> | [-> | [-> | ->]]]]]]];
    cbn; eexists; (split; [reflexivity|lia]).
Qed.

Lemma scale_past_end (alphaValue : R) (k : Z) :
  (8 <= k)%Z -> at_int (selectedScale alphaValue) k = None.
Proof.
  intros Hk. unfold at_int.
  destruct (Z.ltb_spec k 0) as [Hneg|_]; [lia|].
  apply lookup_ge_None. rewrite selectedScale_length. lia.
Qed.

Lemma Forall_snoc {A : Type} (P : A -> Prop) (l : list A) (x : A) :
  Forall P l -> P x -> Forall P (l ++ [x]).
Proof. intros Hl Hx. apply Forall_app. split; [exact Hl|]. constructor; [exact Hx|constructor]. Qed.

Lemma push_kick_pitch alphaValue betaValue s x i :
  0 <= alphaValue ->
  Forall (pitch_in 36 88) s ->
  Forall (pitch_in 36 88) (push_kick alphaValue betaValue s x i).
Proof.
  intros Ha Hs. unfold push_kick. destruct (Z.leb _ _); [|exact Hs].
  apply Forall_snoc; [exact Hs|].
  rewrite scale_length_R, selectedScale_length.
  assert (Hf : (0 <= floor (alphaValue * 8))%Z)
    by (unfold floor; apply Zfloor_lub; simpl; lra).
  destruct (scale_entry alphaValue
              (Z.rem (floor (alphaValue * 8) + Z.of_nat i) (Z.of_nat 8)))
    as (v & Hv & Hr).
  { apply Z.rem_bound_pos; lia. }
  unfold pitch_in. cbn [pitch]. rewrite Hv. cbn.
  eexists. split; [reflexivity|]. unfold pitchBase. lia.
Qed.

Lemma push_hihat_pitch alphaValue s x i :
  0 <= alphaValue ->
  Forall (pitch_in 36 88) s ->
  Forall (pitch_in 36 88) (push_hihat alphaValue s x i).
Proof.
  intros Ha Hs. unfold push_hihat.
  apply Forall_snoc; [exact Hs|].
  rewrite selectedScale_length.
  assert (Hf : (0 <= floor (alphaValue * 100))%Z)
    by (unfold floor; apply Zfloor_lub; simpl; lra).
  destruct (scale_entry alphaValue
              (Z.rem (floor (alphaValue * 100) + Z.of_nat i) (Z.of_nat 8)))
    as (v & Hv & Hr).
  { apply Z.rem_bound_pos; lia. }
  unfold pitch_in. cbn [pitch]. rewrite Hv. cbn.
  eexists. split; [reflexivity|]. unfold pitchBase. lia.
Qed.

Lemma push_snare_pitch alphaValue betaValue s x i :
  0 <= alphaValue < 1 ->
  Forall (pitch_in 36 88) s ->
  Forall (pitch_in 36 88) (push_snare alphaValue betaValue s x i).
Proof.
  intros Ha Hs. unfold push_snare. destruct (Z.leb _ _); [|exact Hs].
  apply Forall_snoc; [exact Hs|].
  rewrite scale_length_R.
  destruct (scale_entry alphaValue (floor (alphaValue * 8))) as (v & Hv & Hr).
  { apply floor_between. simpl. lra. }
  unfold pitch_in. cbn [pitch]. rewrite Hv. cbn.
  eexists. split; [reflexivity|]. unfold pitchBase. lia.
Qed.

Lemma push_clap_pitch alphaValue betaValue s x i :
  0 <= alphaValue < 1 ->
  Forall (pitch_in 36 88) s ->
  Forall (pitch_in 36 88) (push_clap alphaValue betaValue s x i).
Proof.
  intros Ha Hs. unfold push_clap. destruct (Z.leb _ _); [|exact Hs].
  apply Forall_snoc; [exact Hs|].
  rewrite scale_length_R.
  destruct (scale_entry alphaValue (floor (alphaValue * 8))) as (v & Hv & Hr).
  { apply floor_between. simpl. lra. }
  unfold pitch_in. cbn [pitch]. rewrite Hv. cbn.
  eexists. split; [reflexivity|]. unfold pitchBase. lia.
Qed.

(** The loops only append: a note once pushed stays. *)
Lemma forEach_Exists {A B : Type} (P : B -> Prop)
    (f : list B -> A -> nat -> list B) :
  (forall s x i, Exists P s -> Exists P (f s x i)) ->
  forall (a : list A) (i : nat) (s : list B),
    Exists P s -> Exists P (forEach f a i s).
Proof.
  intros Hf a. induction a as [|x rest IH]; intros i s Hs; cbn [forEach].
  - exact Hs.
  - apply IH, Hf, Hs.
Qed.

Lemma Exists_app_l {A : Type} (P : A -> Prop) (l l' : list A) :
  Exists P l -> Exists P (l ++ l').
Proof. intros H. apply Exists_app. left. exact H. Qed.

Lemma push_keeps_Exists (P : Note -> Prop) alphaValue betaValue s x i :
  Exists P s ->
  Exists P (push_kick alphaValue betaValue s x i) /\
  Exists P (push_snare alphaValue betaValue s x i) /\
  Exists P (push_hihat alphaValue s x i) /\
  Exists P (push_clap alphaValue betaValue s x i).
Proof.
  intros Hs. unfold push_kick, push_snare, push_hihat, push_clap.
  destruct (Z.leb _ _); repeat split;
    try exact Hs; apply Exists_app_l; exact Hs.
Qed.

End SeedPitches.

Section SeedNotes.

Import Seed.

Lemma rhythmComplexity_nonneg (betaValue : R) :
  0 <= betaValue -> (0 <= rhythmComplexity betaValue)%Z.
Proof.
  intros Hb. unfold rhythmComplexity, round. apply Zfloor_lub. simpl. lra.
Qed.

Lemma first_snare_undefined alphaValue betaValue (s : list Note) (a : list R) :
  1 <= alphaValue -> 0 <= betaValue -> a <> [] ->
  Exists (fun n => pitch n = None)
         (forEach (push_snare alphaValue betaValue) a 0 s).
Proof.
  intros Ha Hb Hne. destruct a as [|x rest]; [contradiction|].
  cbn [forEach].
  apply forEach_Exists.
  { intros s' x' i' Hs'.
    apply (push_keeps_Exists _ alphaValue betaValue s' x' i' Hs'). }
  unfold push_snare.
  pose proof (rhythmComplexity_nonneg betaValue Hb) as Hc.
  destruct (Z.leb_spec (Z.of_nat 0) (rhythmComplexity betaValue)) as [_|Hlt];
    [|simpl in Hlt; lia].
  apply Exists_app. right. constructor. cbn [pitch].
  rewrite scale_length_R, scale_past_end; [reflexivity|].
  unfold floor. apply Zfloor_lub. simpl. lra.
Qed.

Lemma first_clap_undefined alphaValue betaValue (s : list Note) (a : list R) :
  1 <= alphaValue -> 0 <= betaValue -> a <> [] ->
  Exists (fun n => pitch n = None)
         (forEach (push_clap alphaValue betaValue) a 0 s).
Proof.
  intros Ha Hb Hne. destruct a as [|x rest]; [contradiction|].
  cbn [forEach].
  apply forEach_Exists.
  { intros s' x' i' Hs'.
    apply (push_keeps_Exists _ alphaValue betaValue s' x' i' Hs'). }
  unfold push_clap.
  pose proof (rhythmComplexity_nonneg betaValue Hb) as Hc.
  destruct (Z.leb_spec (Z.of_nat 0) (rhythmComplexity betaValue)) as [_|Hlt];
    [|simpl in Hlt; lia].
  apply Exists_app. right. constructor. cbn [pitch].
  rewrite scale_length_R, scale_past_end; [reflexivity|].
  unfold floor. apply Zfloor_lub. simpl. lra.
Qed.

Lemma positions_nonempty (c : Z) :
  positions_snare c <> [] /\ positions_clap c <> [].
Proof.
  unfold positions_snare, positions_clap.
  destruct (Z.eqb c 0), (Z.eqb c 1), (Z.eqb c 2); split; discriminate.
Qed.

Lemma positions_in_bar (c : Z) :
  Forall (fun pos => 0 <= pos <= 0.875) (positions_kick c) /\
  Forall (fun pos => 0 <= pos <= 0.875) (positions_snare c) /\
  Forall (fun pos => 0 <= pos <= 0.875) (positions_hihat c) /\
  Forall (fun pos => 0 <= pos <= 0.875) (positions_clap c).
Proof.
  unfold positions_kick, positions_snare, positions_hihat, positions_clap.
  destruct (Z.eqb c 0), (Z.eqb c 1), (Z.eqb c 2);
    repeat split;
    repeat (apply Forall_cons_2; [lra|]); apply Forall_nil_2.
Qed.

Lemma slice0_Forall {A : Type} (P : A -> Prop) (n : Z) (a : list A) :
  Forall P a -> Forall P (slice0 n a).
Proof.
  intros Ha. unfold slice0. destruct (Z.ltb n 0); apply Forall_take, Ha.
Qed.

Lemma push_well_timed alphaValue betaValue s pos i :
  0 <= pos <= 0.875 ->
  Forall well_timed s ->
  Forall well_timed (push_kick alphaValue betaValue s pos i) /\
  Forall well_timed (push_snare alphaValue betaValue s pos i) /\
  Forall well_timed (push_hihat alphaValue s pos i) /\
  Forall well_timed (push_clap alphaValue betaValue s pos i).
Proof.
  intros Hpos Hs. unfold push_kick, push_snare, push_hihat, push_clap.
  destruct (Z.leb _ _); repeat split; try exact Hs;
    (apply Forall_snoc; [exact Hs|]);
    unfold well_timed; cbn [startTime endTime]; lra.
Qed.

End SeedNotes.

(** X25.  The pitches of the seed sequence.  For [0 <= alphaValue < 1]
    every note has a pitch, between 36 and 88.  For [alphaValue >= 1] the
    snare and clap loops read the scale at index
    [floor(alphaValue * 8) >= 8], one past its last entry: whenever the
    pattern has the snare or the clap, the sequence holds a note whose
    pitch is undefined. *)
Theorem seed_sequence_pitches
    (rhythmPattern : RhythmTrigger) (alphaValue betaValue : R) (e : Seed.t) :
  let sequence := snd (Seed.createSeedSequence rhythmPattern alphaValue betaValue e) in
  (0 <= alphaValue < 1 -> Forall (pitch_in 36 88) (Seed.notes sequence)) /\
  (1 <= alphaValue -> 0 <= betaValue ->
   snare rhythmPattern = true \/ clap rhythmPattern = true ->
   Exists (fun n => Seed.pitch n = None) (Seed.notes sequence)).
Proof.
  cbv zeta. unfold Seed.createSeedSequence. cbn [snd Seed.notes]. split.
  - intros Ha.
    assert (Ha0 : 0 <= alphaValue) by lra.
    set (n0 := @nil Seed.Note).
    assert (H0 : Forall (pitch_in 36 88) n0) by constructor.
    set (n1 := if kick rhythmPattern then _ else n0).
    assert (H1 : Forall (pitch_in 36 88) n1).
    { unfold n1. destruct (kick rhythmPattern); [|exact H0].
      apply forEach_Forall; [|exact H0].
      intros s x i. apply push_kick_pitch, Ha0. }
    set (n2 := if snare rhythmPattern then _ else n1).
    assert (H2 : Forall (pitch_in 36 88) n2).
    { unfold n2. destruct (snare rhythmPattern); [|exact H1].
      apply forEach_Forall; [|exact H1].
      intros s x i. apply push_snare_pitch, Ha. }
    set (n3 := if hihat rhythmPattern then _ else n2).
    assert (H3 : Forall (pitch_in 36 88) n3).
    { unfold n3. destruct (hihat rhythmPattern); [|exact H2].
      apply forEach_Forall; [|exact H2].
      intros s x i. apply push_hihat_pitch, Ha0. }
    destruct (clap rhythmPattern); [|exact H3].
    apply forEach_Forall; [|exact H3].
    intros s x i. apply push_clap_pitch, Ha.
  - intros Ha Hb Hdrum.
    destruct (positions_nonempty (Seed.rhythmComplexity betaValue)) as [Hs Hc].
    set (n1 := if kick rhythmPattern then _ else []).
    set (n2 := if snare rhythmPattern then _ else n1).
    set (n3 := if hihat rhythmPattern then _ else n2).
    destruct (clap rhythmPattern) eqn:Eclap.
    + apply first_clap_undefined; assumption.
    + destruct Hdrum as [Hsn|Hcl]; [|discriminate Hcl].
      assert (H2 : Exists (fun n => Seed.pitch n = None) n2).
      { unfold n2. rewrite Hsn. apply first_snare_undefined; assumption. }
      unfold n3. destruct (hihat rhythmPattern); [|exact H2].
      apply forEach_Exists; [|exact H2].
      intros s x i Hex.
      apply (push_keeps_Exists _ alphaValue betaValue s x i Hex).
Qed.

Lemma seed_sequence_pitches_witness :
  1 <= 1 /\ 0 <= 0.5 /\
  Exists (fun n => Seed.pitch n = None)
    (Seed.notes
       (snd (Seed.createSeedSequence
               {| kick := true; snare := true; hihat := false; clap := true |}
               1 0.5
               {| Seed.engine := AIMusicEngine.new;
                  Seed.currentSequence := None |}))).
Proof.
  assert (Ha : 1 <= 1) by lra.
  assert (Hb : 0 <= 0.5) by lra.
  split; [exact Ha|]. split; [exact Hb|].
  destruct (seed_sequence_pitches
              {| kick := true; snare := true; hihat := false; clap := true |}
              1 0.5
              {| Seed.engine := AIMusicEngine.new; Seed.currentSequence := None |})
    as (_ & Hundef).
  apply Hundef; [exact Ha|exact Hb|left; reflexivity].
Defined.

(** X26.  Whatever the drives and the pattern, every note of the seed
    sequence starts between 0 and 0.875 and lasts between 0.1 and 0.2. *)
Theorem seed_sequence_timing
    (rhythmPattern : RhythmTrigger) (alphaValue betaValue : R) (e : Seed.t) :
  Forall well_timed
    (Seed.notes
       (snd (Seed.createSeedSequence rhythmPattern alphaValue betaValue e))).
Proof.
  unfold Seed.createSeedSequence. cbn [snd Seed.notes].
  destruct (positions_in_bar (Seed.rhythmComplexity betaValue))
    as (Pk & Ps & Ph & Pc).
  set (n0 := @nil Seed.Note).
  assert (H0 : Forall well_timed n0) by constructor.
  set (n1 := if kick rhythmPattern then _ else n0).
  assert (H1 : Forall well_timed n1).
  { unfold n1. destruct (kick rhythmPattern); [|exact H0].
    apply (forEach_Forall_on well_timed (fun pos => 0 <= pos <= 0.875));
      [|exact Pk|exact H0].
    intros s x i Hx Hs. apply (push_well_timed alphaValue betaValue s x i Hx Hs). }
  set (n2 := if snare rhythmPattern then _ else n1).
  assert (H2 : Forall well_timed n2).
  { unfold n2. destruct (snare rhythmPattern); [|exact H1].
    apply (forEach_Forall_on well_timed (fun pos => 0 <= pos <= 0.875));
      [|exact Ps|exact H1].
    intros s x i Hx Hs. apply (push_well_timed alphaValue betaValue s x i Hx Hs). }
  set (n3 := if hihat rhythmPattern then _ else n2).
  assert (H3 : Forall well_timed n3).
  { unfold n3. destruct (hihat rhythmPattern); [|exact H2].
    apply (forEach_Forall_on well_timed (fun pos => 0 <= pos <= 0.875));
      [|apply slice0_Forall; exact Ph|exact H2].
    intros s x i Hx Hs. apply (push_well_timed alphaValue betaValue s x i Hx Hs). }
  destruct (clap rhythmPattern); [|exact H3].
  apply (forEach_Forall_on well_timed (fun pos => 0 <= pos <= 0.875));
    [|exact Pc|exact H3].
  intros s x i Hx Hs. apply (push_well_timed alphaValue betaValue s x i Hx Hs).
Qed.

(** ** The music generator *)

Section Generator.

Import MusicGenerator.

Lemma Complexity_eqb_eq (a b : Complexity) :
  Complexity_eqb a b = true <-> a = b.
Proof. destruct a, b; simpl; split; intros H; try reflexivity; discriminate. Qed.

Lemma round_of_integer (z : Z) (x : R) :
  x = IZR z -> Seed.round x = z.
Proof.
  intros ->. unfold Seed.round. apply Zfloor_eq. lra.
Qed.

Lemma startMusic_state (alpha beta : R) (env : Env) (g : t) :
  fst (startMusic alpha beta env g) =
    {| currentParts :=
         four_parts (complexity beta) (if Rgt_dec alpha 0.5 then "16n" else "8n");
       currentPattern := complexity beta;
       isPlaying := true |}.
Proof.
  unfold startMusic. destruct (stopMusic g) as [g' stopped]. reflexivity.
Qed.

Lemma startMusic_calls (alpha beta : R) (env : Env) (g : t) :
  snd (startMusic alpha beta env g) =
    snd (stopMusic g) ++
    [bpmValue (tempo alpha)] ++
    map partStart
        (four_parts (complexity beta) (if Rgt_dec alpha 0.5 then "16n" else "8n")) ++
    (if String.eqb (transportState env) "started" then [] else [transportStart]).
Proof.
  unfold startMusic. destruct (stopMusic g) as [g' stopped]. reflexivity.
Qed.

Lemma perform_consistent (g : t) (c : Call) :
  parts_consistent g -> parts_consistent (perform g c).
Proof.
  intros Hg. destruct c as [alpha beta env|alpha beta env|]; cbn [perform].
  - rewrite startMusic_state. right. split; [reflexivity|].
    eexists. reflexivity.
  - unfold updateMusic.
    destruct (isPlaying g) eqn:Hp; cbn [negb]; [|exact Hg].
    destruct (Complexity_eqb (complexity beta) (currentPattern g));
      cbn [negb].
    + exact Hg.
    + match goal with
      | |- context [startMusic alpha beta env ?g0] =>
          pose proof (startMusic_state alpha beta env g0) as Hs;
          destruct (startMusic alpha beta env g0) as [g1 calls]
      end.
      cbn [fst] in *. rewrite Hs. right. split; [reflexivity|].
      eexists. reflexivity.
  - left. unfold stopMusic.
    destruct Hg as [[Hp Hparts]|[Hp [sub Hparts]]]; rewrite Hparts.
    + split; reflexivity.
    + split; reflexivity.
Qed.

Lemma updateMusic_same (alpha beta : R) (env : Env) (g : t) :
  isPlaying g = true ->
  complexity beta = currentPattern g ->
  exists params,
    updateMusic alpha beta env g
      = (g, bpmRampTo (tempo alpha) 0.5 :: params) /\
    forall c, In c params ->
      (exists f, c = bassBaseFrequency f) \/ (exists ty, c = leadOscillator ty).
Proof.
  intros Hp Heq. unfold updateMusic. rewrite Hp. cbn [negb].
  apply Complexity_eqb_eq in Heq. rewrite Heq. cbn [negb].
  eexists. split; [reflexivity|].
  intros c Hin. apply in_app_or in Hin. destruct Hin as [Hin|Hin].
  - destruct (bassFilterEnvelope env); simpl in Hin; [|contradiction].
    destruct Hin as [<-|[]]. left. eexists. reflexivity.
  - repeat match type of Hin with
           | context [if ?b then _ else _] => destruct b
           end;
      simpl in Hin; try contradiction;
      destruct Hin as [<-|[]]; right; eexists; reflexivity.
Qed.

Lemma stopMusic_calls_ext (g g0 : t) :
  currentParts g0 = currentParts g ->
  snd (stopMusic g0) = snd (stopMusic g).
Proof.
  intros E. unfold stopMusic. rewrite E.
  destruct (Nat.eqb (length (currentParts g)) 0); reflexivity.
Qed.

Lemma updateMusic_changed (alpha beta : R) (env : Env) (g : t) :
  isPlaying g = true ->
  complexity beta <> currentPattern g ->
  updateMusic alpha beta env g =
    ({| currentParts :=
          four_parts (complexity beta)
                     (if Rgt_dec alpha 0.5 then "16n" else "8n");
        currentPattern := complexity beta;
        isPlaying := true |},
     [bpmRampTo (tempo alpha) 0.5] ++
     snd (stopMusic g) ++
     [bpmValue (tempo alpha)] ++
     map partStart
         (four_parts (complexity beta)
                     (if Rgt_dec alpha 0.5 then "16n" else "8n")) ++
     (if String.eqb (transportState env) "started" then [] else [transportStart])).
Proof.
  intros Hp Hne. unfold updateMusic. rewrite Hp. cbn [negb].
  destruct (Complexity_eqb (complexity beta) (currentPattern g)) eqn:Heq.
  { apply Complexity_eqb_eq in Heq. contradiction. }
  cbn [negb].
  match goal with
  | |- context [startMusic alpha beta env ?g0] =>
      pose proof (startMusic_state alpha beta env g0) as Hs;
      pose proof (startMusic_calls alpha beta env g0) as Hc;
      destruct (startMusic alpha beta env g0) as [g1 calls]
  end.
  cbn [fst snd] in Hs, Hc. rewrite Hs, Hc.
  rewrite (stopMusic_calls_ext g) by reflexivity. reflexivity.
Qed.

End Generator.

(** X27.  The tempo that [startMusic] and [updateMusic] send is
    [80 + round(alpha * 80)]: 80 at [alpha = 0], 160 at [alpha = 1],
    between the two for [alpha] in [[0,1]], and never lower for a larger
    [alpha]. *)
Theorem generator_tempo_range (alpha alpha' : R) :
  0 <= alpha <= 1 ->
  alpha <= alpha' ->
  (80 <= MusicGenerator.tempo alpha <= 160)%Z /\
  (MusicGenerator.tempo alpha <= MusicGenerator.tempo alpha')%Z /\
  MusicGenerator.tempo 0 = 80%Z /\
  MusicGenerator.tempo 1 = 160%Z.
Proof.
  intros Ha Hle. unfold MusicGenerator.tempo.
  assert (H : (0 <= Seed.round (alpha * 80) <= 80)%Z)
    by (apply round_between; lra).
  split; [lia|]. split.
  - unfold Seed.round.
    assert (Hm : (Zfloor (alpha * 80 + 0.5) <= Zfloor (alpha' * 80 + 0.5))%Z)
      by (apply Zfloor_le; lra).
    lia.
  - rewrite (round_of_integer 0 (0 * 80)) by lra.
    rewrite (round_of_integer 80 (1 * 80)) by lra.
    split; reflexivity.
Qed.

Lemma generator_tempo_range_witness :
  0 <= 0.5 <= 1 /\ 0.5 <= 0.75 /\
  (MusicGenerator.tempo 0.5 <= MusicGenerator.tempo 0.75)%Z.
Proof.
  assert (Ha : 0 <= 0.5 <= 1) by lra.
  assert (Hle : 0.5 <= 0.75) by lra.
  split; [exact Ha|]. split; [exact Hle|].
  apply (generator_tempo_range 0.5 0.75 Ha Hle).
Defined.

(** X28.  [updateMusic] on a generator that plays: it always ramps the
    tempo first, and afterwards the generator still plays and its
    [currentPattern] is the complexity of [beta] (simple below 0.3, medium
    below 0.7, complex from 0.7 on).  If that complexity differs from the
    one stored, the music is restarted: every old part is stopped and
    disposed, the tempo is set, and the four parts of the new complexity
    are started.  If it is the same, the generator is left as it was and no
    part is started, stopped or disposed.  On a generator that does not
    play, [updateMusic] does nothing. *)
Theorem updateMusic_restarts_on_new_complexity
    (alpha beta : R) (env : MusicGenerator.Env) (g : MusicGenerator.t) :
  MusicGenerator.isPlaying g = true ->
  let g' := fst (MusicGenerator.updateMusic alpha beta env g) in
  let calls := snd (MusicGenerator.updateMusic alpha beta env g) in
  let sub : string := if Rgt_dec alpha 0.5 then "16n" else "8n" in
  MusicGenerator.isPlaying g' = true /\
  MusicGenerator.currentPattern g' = MusicGenerator.complexity beta /\
  (exists rest,
     calls = MusicGenerator.bpmRampTo (MusicGenerator.tempo alpha) 0.5 :: rest) /\
  (MusicGenerator.complexity beta <> MusicGenerator.currentPattern g ->
     MusicGenerator.currentParts g'
       = four_parts (MusicGenerator.complexity beta) sub /\
     calls =
       [MusicGenerator.bpmRampTo (MusicGenerator.tempo alpha) 0.5] ++
       snd (MusicGenerator.stopMusic g) ++
       [MusicGenerator.bpmValue (MusicGenerator.tempo alpha)] ++
       map MusicGenerator.partStart
           (four_parts (MusicGenerator.complexity beta) sub) ++
       (if String.eqb (MusicGenerator.transportState env) "started"
        then [] else [MusicGenerator.transportStart])) /\
  (MusicGenerator.complexity beta = MusicGenerator.currentPattern g ->
     g' = g /\
     forall p, ~ In (MusicGenerator.partStart p) calls /\
               ~ In (MusicGenerator.partStop p) calls /\
               ~ In (MusicGenerator.partDispose p) calls) /\
  (forall g0, MusicGenerator.isPlaying g0 = false ->
     MusicGenerator.updateMusic alpha beta env g0 = (g0, [])).
Proof.
  intros Hp. cbv zeta.
  assert (Hstopped : forall g0, MusicGenerator.isPlaying g0 = false ->
            MusicGenerator.updateMusic alpha beta env g0 = (g0, [])).
  { intros g0 Hstop. unfold MusicGenerator.updateMusic. rewrite Hstop.
    reflexivity. }
  destruct (MusicGenerator.Complexity_eqb (MusicGenerator.complexity beta)
              (MusicGenerator.currentPattern g)) eqn:Heq.
  - apply Complexity_eqb_eq in Heq.
    destruct (updateMusic_same alpha beta env g Hp Heq) as (params & -> & Hpar).
    cbn [fst snd].
    split; [exact Hp|]. split; [symmetry; exact Heq|].
    split; [eexists; reflexivity|].
    split; [intros Hne; contradiction|].
    split; [|exact Hstopped].
    intros _. split; [reflexivity|]. intros p.
    repeat split; intros [Hin|Hin]; try discriminate Hin;
      destruct (Hpar _ Hin) as [[f E]|[ty E]]; discriminate E.
  - assert (Hne : MusicGenerator.complexity beta
                  <> MusicGenerator.currentPattern g).
    { intros E. apply Complexity_eqb_eq in E. congruence. }
    rewrite (updateMusic_changed alpha beta env g Hp Hne). cbn [fst snd].
    cbn [MusicGenerator.isPlaying MusicGenerator.currentPattern
         MusicGenerator.currentParts].
    split; [reflexivity|]. split; [reflexivity|].
    split; [eexists; reflexivity|].
    split; [intros _; split; reflexivity|].
    split; [intros E; contradiction|exact Hstopped].
Qed.

Lemma updateMusic_restarts_on_new_complexity_witness :
  MusicGenerator.isPlaying
    (fst (MusicGenerator.startMusic 0.2 0.1
            {| MusicGenerator.transportState := "stopped";
               MusicGenerator.bassFilterEnvelope := true;
               MusicGenerator.leadOscillatorType := "square4" |}
            MusicGenerator.new)) = true /\
  MusicGenerator.currentPattern
    (fst (MusicGenerator.updateMusic 0.2 0.9
            {| MusicGenerator.transportState := "started";
               MusicGenerator.bassFilterEnvelope := true;
               MusicGenerator.leadOscillatorType := "square4" |}
            (fst (MusicGenerator.startMusic 0.2 0.1
                    {| MusicGenerator.transportState := "stopped";
                       MusicGenerator.bassFilterEnvelope := true;
                       MusicGenerator.leadOscillatorType := "square4" |}
                    MusicGenerator.new))))
    = MusicGenerator.complexity 0.9.
Proof.
  split; [reflexivity|].
  apply (updateMusic_restarts_on_new_complexity 0.2 0.9
           {| MusicGenerator.transportState := "started";
              MusicGenerator.bassFilterEnvelope := true;
              MusicGenerator.leadOscillatorType := "square4" |}
           (fst (MusicGenerator.startMusic 0.2 0.1
                   {| MusicGenerator.transportState := "stopped";
                      MusicGenerator.bassFilterEnvelope := true;
                      MusicGenerator.leadOscillatorType := "square4" |}
                   MusicGenerator.new))
           eq_refl).
Defined.

(** X29.  No part is leaked: after any sequence of [startMusic],
    [updateMusic] and [stopMusic] calls on a fresh generator, either it
    does not play and holds no part, or it plays and holds exactly the four
    parts (bass, lead, and the two drum rows) of its current pattern.  And
    [stopMusic] stops and disposes every part it held. *)
Theorem generator_parts_consistent
    (calls : list MusicGenerator.Call) (g : MusicGenerator.t) :
  parts_consistent (fold_left MusicGenerator.perform calls MusicGenerator.new) /\
  (parts_consistent g ->
   parts_consistent (fold_left MusicGenerator.perform calls g)) /\
  MusicGenerator.currentParts (fst (MusicGenerator.stopMusic g)) = [] /\
  (forall p, In p (MusicGenerator.currentParts g) ->
     In (MusicGenerator.partStop p) (snd (MusicGenerator.stopMusic g)) /\
     In (MusicGenerator.partDispose p) (snd (MusicGenerator.stopMusic g))).
Proof.
  assert (Hgen : forall g0, parts_consistent g0 ->
                 parts_consistent (fold_left MusicGenerator.perform calls g0)).
  { induction calls as [|c cs IH]; intros g0 Hg0; simpl.
    - exact Hg0.
    - apply IH, perform_consistent, Hg0. }
  split; [apply Hgen; left; split; reflexivity|].
  split; [apply Hgen|].
  unfold MusicGenerator.stopMusic.
  destruct (MusicGenerator.currentParts g) as [|p0 ps] eqn:Hparts.
  - cbn. split; [reflexivity|]. intros p [].
  - cbn [length Nat.eqb fst snd MusicGenerator.currentParts].
    split; [reflexivity|].
    intros p Hin. rewrite !in_concat.
    split; eexists; (split; [apply in_map_iff; exists p;
                              split; [reflexivity|exact Hin]|]);
      simpl; tauto.
Qed.

Lemma generator_parts_consistent_witness :
  parts_consistent MusicGenerator.new /\
  parts_consistent
    (fold_left MusicGenerator.perform
       [MusicGenerator.callStart 0.2 0.1
          {| MusicGenerator.transportState := "stopped";
             MusicGenerator.bassFilterEnvelope := true;
             MusicGenerator.leadOscillatorType := "square4" |};
        MusicGenerator.callStop]
       MusicGenerator.new).
Proof.
  assert (H0 : parts_consistent MusicGenerator.new) by (left; split; reflexivity).
  split; [exact H0|].
  destruct (generator_parts_consistent
              [MusicGenerator.callStart 0.2 0.1
                 {| MusicGenerator.transportState := "stopped";
                    MusicGenerator.bassFilterEnvelope := true;
                    MusicGenerator.leadOscillatorType := "square4" |};
               MusicGenerator.callStop]
              MusicGenerator.new) as (_ & Hkeep & _).
  apply Hkeep, H0.
Defined.

(** X30.  [updateMusic] without a restart (the generator plays and the
    complexity of [beta] is the stored one) keeps the lead waveform in step
    with [beta]: sawtooth above 0.8, square4 above 0.4, triangle up to 0.4.
    A waveform is written only when it differs from the one the synth
    reports, and it is then the one of [beta]; when none is written the
    synth already has it.  When the bass synth has a filter envelope its
    base frequency is set to [100 + 400 * alpha]. *)
Theorem updateMusic_tracks_lead_waveform
    (alpha beta : R) (env : MusicGenerator.Env) (g : MusicGenerator.t) :
  MusicGenerator.isPlaying g = true ->
  MusicGenerator.complexity beta = MusicGenerator.currentPattern g ->
  let calls := snd (MusicGenerator.updateMusic alpha beta env g) in
  (forall ty, In (MusicGenerator.leadOscillator ty) calls ->
     ty = lead_band beta /\ MusicGenerator.leadOscillatorType env <> ty) /\
  ((forall ty, ~ In (MusicGenerator.leadOscillator ty) calls) ->
     MusicGenerator.leadOscillatorType env = lead_band beta) /\
  (MusicGenerator.bassFilterEnvelope env = true ->
     In (MusicGenerator.bassBaseFrequency (100 + alpha * 400)) calls) /\
  (forall f, In (MusicGenerator.bassBaseFrequency f) calls ->
     f = 100 + alpha * 400 /\ MusicGenerator.bassFilterEnvelope env = true).
Proof.
  intros Hp Heq. cbv zeta.
  unfold MusicGenerator.updateMusic. rewrite Hp. cbn [negb].
  apply Complexity_eqb_eq in Heq. rewrite Heq. cbn [negb snd].
  unfold lead_band, JsMath.gtb.
  destruct (MusicGenerator.bassFilterEnvelope env);
    destruct (Rgt_dec beta 0.8) as [H8|H8];
    destruct (Rgt_dec beta 0.4) as [H4|H4];
    destruct (Rle_dec beta 0.8) as [L8|L8];
    destruct (Rle_dec beta 0.4) as [L4|L4];
    try (exfalso; lra);
    destruct (String.eqb_spec (MusicGenerator.leadOscillatorType env) "sawtooth")
      as [Es|Es];
    destruct (String.eqb_spec (MusicGenerator.leadOscillatorType env) "square4")
      as [Eq|Eq];
    destruct (String.eqb_spec (MusicGenerator.leadOscillatorType env) "triangle")
      as [Et|Et];
    try (exfalso; congruence);
    cbn [andb negb app In];
    (split; [intros ty Hin;
             repeat (destruct Hin as [Hin|Hin]; try discriminate Hin);
             try contradiction;
             injection Hin as <-; split; first [reflexivity|assumption]|]);
    (split; [intros Hnone; first [assumption
                                 | exfalso; eapply Hnone; eauto 6]|]);
    (split; [intros Hb; first [discriminate Hb | eauto 6]|]);
    intros f Hin;
    repeat (destruct Hin as [Hin|Hin]; try discriminate Hin);
    try contradiction;
    injection Hin as <-; split; reflexivity.
Qed.

Lemma updateMusic_tracks_lead_waveform_witness :
  MusicGenerator.isPlaying
    {| MusicGenerator.currentParts := four_parts MusicGenerator.complex "8n";
       MusicGenerator.currentPattern := MusicGenerator.complex;
       MusicGenerator.isPlaying := true |} = true /\
  MusicGenerator.complexity 0.9 = MusicGenerator.complex /\
  In (MusicGenerator.bassBaseFrequency (100 + 0.2 * 400))
     (snd (MusicGenerator.updateMusic 0.2 0.9
             {| MusicGenerator.transportState := "started";
                MusicGenerator.bassFilterEnvelope := true;
                MusicGenerator.leadOscillatorType := "square4" |}
             {| MusicGenerator.currentParts := four_parts MusicGenerator.complex "8n";
                MusicGenerator.currentPattern := MusicGenerator.complex;
                MusicGenerator.isPlaying := true |})).
Proof.
  assert (Hc : MusicGenerator.complexity 0.9 = MusicGenerator.complex).
  { unfold MusicGenerator.complexity.
    destruct (Rlt_dec 0.9 0.3) as [H|_]; [lra|].
    destruct (Rlt_dec 0.9 0.7) as [H|_]; [lra|]. reflexivity. }
  split; [reflexivity|]. split; [exact Hc|].
  destruct (updateMusic_tracks_lead_waveform 0.2 0.9
              {| MusicGenerator.transportState := "started";
                 MusicGenerator.bassFilterEnvelope := true;
                 MusicGenerator.leadOscillatorType := "square4" |}
              {| MusicGenerator.currentParts := four_parts MusicGenerator.complex "8n";
                 MusicGenerator.currentPattern := MusicGenerator.complex;
                 MusicGenerator.isPlaying := true |}
              eq_refl Hc) as (_ & _ & Hbass & _).
  apply Hbass. reflexivity.
Defined.
